(** * Parsoid HTML-to-wikitext serializer: a shallow embedding

    The development follows [js/lib/dom.cleanup.js] (the cleanup pre-pass
    followed by the wikitext serializer) and
    [modules/ve/ce/ve.es.Content.js] (annotation rendering).

    JavaScript strings are sequences of UTF-16 code units; regular
    expressions are interpreted by a backtracking matcher that follows the
    ECMAScript pattern semantics (continuation passing, greedy and lazy
    quantifiers, captures, lookahead). *)

From Stdlib Require Import ZArith NArith Ascii String Sorted.
From stdpp Require Import base numbers option list.

Local Open Scope nat_scope.

Set Warnings "-register-all".

(** ** JavaScript strings *)

Module Js.

(** A code unit of a JavaScript string. *)
Definition char := N.

Definition jsstring := list char.

(** The JavaScript string of an ASCII literal. *)
Definition lit (s : string) : jsstring :=
  map N_of_ascii (list_ascii_of_string s).

Global Arguments lit : simpl never.

Definition chr (a : ascii) : char := N_of_ascii a.

Fixpoint eqb (s t : jsstring) : bool :=
  match s, t with
  | [], [] => true
  | c :: s', d :: t' => N.eqb c d && eqb s' t'
  | _, _ => false
  end.

(** [String.prototype.substring] on integral arguments: both indices are
    clamped to [0, length] and swapped when the first is the larger. *)
Definition substring (s : jsstring) (start finish : Z) : jsstring :=
  let len := Z.of_nat (length s) in
  let clamp := fun i => Z.min (Z.max i 0) len in
  let a := clamp start in
  let b := clamp finish in
  let from := Z.to_nat (Z.min a b) in
  let to := Z.to_nat (Z.max a b) in
  take (to - from) (drop from s).

(** Decimal digits of a natural number, as [Number.prototype.toString]
    prints a non-negative integer. *)
Fixpoint digits_aux (fuel n : nat) (acc : jsstring) : jsstring :=
  match fuel with
  | O => acc
  | S fuel' =>
      let d := N.of_nat (48 + n mod 10) in
      if n / 10 =? 0 then d :: acc else digits_aux fuel' (n / 10) (d :: acc)
  end.

Definition toString (n : nat) : jsstring := digits_aux (S n) n [].

(** [Array.prototype.join]. *)
Fixpoint join (sep : jsstring) (parts : list jsstring) : jsstring :=
  match parts with
  | [] => []
  | [p] => p
  | p :: ps => p ++ sep ++ join sep ps
  end.

(** Exceptions: a [TypeError] or [SyntaxError] raised by the engine, or a
    thrown string. *)
Inductive JsError : Type :=
| TypeError
| SyntaxError
| Thrown (message : jsstring).

(** How a call ends: with a value or with an exception. *)
Inductive outcome (A : Type) : Type :=
| Ok (a : A)
| Throw (e : JsError).

Arguments Ok {A} a.
Arguments Throw {A} e.

End Js.

(** ** Regular expressions *)

Module Regex.

Import Js.

(** Character classes as predicates on code units. *)
Definition cset := Js.char -> bool.

Definition one (a : ascii) : cset := fun c => N.eqb c (N_of_ascii a).

Definition oneOf (s : string) : cset :=
  fun c => existsb (N.eqb c) (lit s).

Definition neg (p : cset) : cset := fun c => negb (p c).

(** [\s]: white space and line terminators. *)
Definition space : cset := fun c =>
  existsb (N.eqb c)
    [9; 10; 11; 12; 13; 32; 160; 5760; 8232; 8233; 8239; 8287; 12288; 65279]%N
  || (N.leb 8192 c && N.leb c 8202).

(** Line terminators, which [.] does not match. *)
Definition lineTerminator : cset := fun c =>
  existsb (N.eqb c) [10; 13; 8232; 8233]%N.

Definition dot : cset := neg lineTerminator.

Definition digit : cset := fun c => N.leb 48 c && N.leb c 57.

(** [\w]: the characters that count as word characters for [\b]. *)
Definition word : cset := fun c =>
  (N.leb 97 c && N.leb c 122) || (N.leb 65 c && N.leb c 90)
  || digit c || N.eqb c 95.

Inductive re : Type :=
| Empty
| Chr (p : cset)
| Seq (r1 r2 : re)
| Alt (r1 r2 : re)
| Rep (lo : nat) (hi : option nat) (greedy : bool) (r : re)
| Group (n : nat) (r : re)
| Look (positive : bool) (r : re)
| Bol
| Eol
| WordB.

(** Position of the matcher: the code units already passed (most recent
    first), the ones still ahead, and the captures made so far. *)
Record mstate := MState {
  passed : jsstring;
  ahead : jsstring;
  captures : list (nat * jsstring)
}.

Definition setCapture (n : nat) (s : jsstring) (caps : list (nat * jsstring)) :=
  (n, s) :: filter (fun p => negb (Nat.eqb (fst p) n)) caps.

Fixpoint getCapture (n : nat) (caps : list (nat * jsstring)) : option jsstring :=
  match caps with
  | [] => None
  | (k, s) :: caps' => if Nat.eqb k n then Some s else getCapture n caps'
  end.

Fixpoint groupsIn (r : re) : list nat :=
  match r with
  | Seq a b | Alt a b => groupsIn a ++ groupsIn b
  | Rep _ _ _ a | Look _ a => groupsIn a
  | Group n a => n :: groupsIn a
  | _ => []
  end.

Definition clearCaptures (ns : list nat) (x : mstate) : mstate :=
  MState (passed x) (ahead x)
    (filter (fun p => negb (existsb (Nat.eqb (fst p)) ns)) (captures x)).

Definition orElse {A} (a b : option A) : option A :=
  match a with Some _ => a | None => b end.

Definition isWordAt (o : option char) : bool :=
  match o with Some c => word c | None => false end.

(** The matcher of a pattern, in continuation-passing style: [m r x k]
    matches [r] at [x] and hands every end position, in priority order, to
    [k] until [k] accepts one.  A quantifier follows RepeatMatcher: once
    the lower bound is met an iteration that consumes nothing is rejected,
    so the iteration count is bounded by the lower bound plus the length
    of the remaining input. *)
Fixpoint m (r : re) (x : mstate) (k : mstate -> option mstate) {struct r}
  : option mstate :=
  match r with
  | Empty => k x
  | Chr p =>
      match ahead x with
      | c :: rest =>
          if p c then k (MState (c :: passed x) rest (captures x)) else None
      | [] => None
      end
  | Seq r1 r2 => m r1 x (fun y => m r2 y k)
  | Alt r1 r2 => orElse (m r1 x k) (m r2 x k)
  | Rep lo hi greedy r' =>
      (fix rep (fuel lo : nat) (hi : option nat) (x : mstate) {struct fuel}
         : option mstate :=
         match hi with
         | Some O => k x
         | _ =>
             match fuel with
             | O => None
             | S fuel' =>
                 let d := fun y =>
                   if Nat.eqb lo 0 && Nat.eqb (length (ahead y)) (length (ahead x))
                   then None
                   else rep fuel' (pred lo) (option_map pred hi) y in
                 let xr := clearCaptures (groupsIn r') x in
                 if negb (Nat.eqb lo 0) then m r' xr d
                 else if greedy then orElse (m r' xr d) (k x)
                 else orElse (k x) (m r' xr d)
             end
         end) (lo + length (ahead x) + 1) lo hi x
  | Group n r' =>
      m r' x (fun y =>
        let s := take (length (ahead x) - length (ahead y)) (ahead x) in
        k (MState (passed y) (ahead y) (setCapture n s (captures y))))
  | Look positive r' =>
      match m r' x Some with
      | Some y =>
          if positive then k (MState (passed x) (ahead x) (captures y)) else None
      | None => if positive then None else k x
      end
  | Bol => match passed x with [] => k x | _ => None end
  | Eol => match ahead x with [] => k x | _ => None end
  | WordB =>
      if xorb (isWordAt (head (passed x))) (isWordAt (head (ahead x)))
      then k x else None
  end.

(** The result of a successful match, as the array [exec] returns:
    [index], the matched text (element 0) and the captures. *)
Record result := Result {
  index : nat;
  matched : jsstring;
  groups : list (nat * jsstring)
}.

Definition matchAt (r : re) (before after : jsstring) : option result :=
  match m r (MState before after []) Some with
  | Some y =>
      Some (Result (length before)
              (take (length after - length (ahead y)) after) (captures y))
  | None => None
  end.

(** Scan for the leftmost start position that matches. *)
Fixpoint scan (r : re) (before after : jsstring) : option result :=
  match matchAt r before after with
  | Some res => Some res
  | None =>
      match after with
      | [] => None
      | c :: rest => scan r (c :: before) rest
      end
  end.

(** [RegExp.prototype.exec] / [String.prototype.match] without the [g]
    flag: [None] stands for [null]. *)
Definition exec (r : re) (s : jsstring) : option result := scan r [] s.

Definition test (r : re) (s : jsstring) : bool :=
  match exec r s with Some _ => true | None => false end.

(** Element [n] of a match array: [None] is [undefined]. *)
Definition group (n : nat) (res : result) : option jsstring :=
  match n with
  | O => Some (matched res)
  | _ => getCapture n (groups res)
  end.

(** Replacement text: literal pieces and [$n] references. *)
Inductive rpiece : Type :=
| RLit (s : jsstring)
| RGroup (n : nat).

Definition expand (tpl : list rpiece) (res : result) : jsstring :=
  concat (map (fun p =>
    match p with
    | RLit s => s
    | RGroup n => default [] (group n res)
    end) tpl).

(** [String.prototype.replace] with a pattern without the [g] flag: only
    the first match is replaced. *)
Definition replace (r : re) (tpl : list rpiece) (s : jsstring) : jsstring :=
  match exec r s with
  | Some res =>
      take (index res) s ++ expand tpl res
        ++ drop (index res + length (matched res)) s
  | None => s
  end.

(** [String.prototype.replace] with the [g] flag: every match, scanning
    from the end of the previous one (one unit further after an empty
    match). *)
Fixpoint replaceAllFrom (fuel : nat) (r : re) (tpl : list rpiece)
    (before after : jsstring) : jsstring :=
  match fuel with
  | O => after
  | S fuel' =>
      match scan r before after with
      | None => after
      | Some res =>
          let skipped := index res - length before in
          let consumed := skipped + length (matched res) in
          let unchanged := take skipped after in
          match matched res with
          | [] =>
              match drop consumed after with
              | [] => unchanged ++ expand tpl res
              | c :: rest =>
                  unchanged ++ expand tpl res ++ c ::
                    replaceAllFrom fuel' r tpl
                      (c :: rev_append (take consumed after) before) rest
              end
          | _ =>
              unchanged ++ expand tpl res ++
                replaceAllFrom fuel' r tpl
                  (rev_append (take consumed after) before)
                  (drop consumed after)
          end
      end
  end.

Definition replaceAll (r : re) (tpl : list rpiece) (s : jsstring) : jsstring :=
  replaceAllFrom (S (length s)) r tpl [] s.

(** The length of the array [s.match(r)] returns for a pattern with the
    [g] flag: the number of successive matches. *)
Fixpoint countAllFrom (fuel : nat) (r : re) (before after : jsstring) : nat :=
  match fuel with
  | O => 0
  | S fuel' =>
      match scan r before after with
      | None => 0
      | Some res =>
          let consumed := index res - length before + length (matched res) in
          match matched res with
          | [] =>
              match drop consumed after with
              | [] => 1
              | c :: rest =>
                  S (countAllFrom fuel' r
                       (c :: rev_append (take consumed after) before) rest)
              end
          | _ =>
              S (countAllFrom fuel' r (rev_append (take consumed after) before)
                   (drop consumed after))
          end
      end
  end.

Definition countAll (r : re) (s : jsstring) : nat :=
  countAllFrom (S (length s)) r [] s.

(** Pattern syntax helpers. *)
Definition str (s : string) : re :=
  fold_right (fun a r => Seq (Chr (one a)) r) Empty (list_ascii_of_string s).

Definition star (r : re) : re := Rep 0 None true r.
Definition starLazy (r : re) : re := Rep 0 None false r.
Definition plus (r : re) : re := Rep 1 None true r.
Definition opt (r : re) : re := Rep 0 (Some 1) true r.
Definition range (lo hi : nat) (r : re) : re := Rep lo (Some hi) true r.

Fixpoint seq (rs : list re) : re :=
  match rs with
  | [] => Empty
  | [r] => r
  | r :: rs' => Seq r (seq rs')
  end.

Fixpoint alt (rs : list re) : re :=
  match rs with
  | [] => Empty
  | [r] => r
  | r :: rs' => Alt r (alt rs')
  end.

End Regex.

(** ** What a match is

    The matcher above is a program; the relation [sem] below says what it
    computes.  [repLoop] is the loop of a quantifier, taken out of [m]. *)

Module Matching.

Import Js.
Import Regex.

Definition repLoop (body : mstate -> (mstate -> option mstate) -> option mstate)
    (gs : list nat) (greedy : bool) (k : mstate -> option mstate)
  : nat -> nat -> option nat -> mstate -> option mstate :=
  fix rep (fuel lo : nat) (hi : option nat) (x : mstate) {struct fuel}
    : option mstate :=
    match hi with
    | Some O => k x
    | _ =>
        match fuel with
        | O => None
        | S fuel' =>
            let d := fun y =>
              if Nat.eqb lo 0 && Nat.eqb (length (ahead y)) (length (ahead x))
              then None
              else rep fuel' (pred lo) (option_map pred hi) y in
            let xr := clearCaptures gs x in
            if negb (Nat.eqb lo 0) then body xr d
            else if greedy then orElse (body xr d) (k x)
            else orElse (k x) (body xr d)
        end
    end.

(** The characters a pattern can consume. *)
Fixpoint accepts (r : re) (c : char) : bool :=
  match r with
  | Chr p => p c
  | Seq a b | Alt a b => accepts a c || accepts b c
  | Rep _ _ _ a | Group _ a => accepts a c
  | _ => false
  end.

(** [n] iterations of a quantifier: each one starts with the captures of
    the body cleared. *)
Inductive iter (R : mstate -> mstate -> Prop) (gs : list nat)
  : nat -> mstate -> mstate -> Prop :=
| iter_done x : iter R gs 0 x x
| iter_more n x y z :
    R (clearCaptures gs x) y -> iter R gs n y z -> iter R gs (S n) x z.

(** The numbers of iterations that the bounds [{lo,hi}] allow. *)
Definition withinBounds (lo : nat) (hi : option nat) (n : nat) : Prop :=
  (lo <= n \/ hi = Some n)
  /\ match hi with Some h => n <= h | None => True end.

(** What a match of a pattern is, whatever the order in which the matcher
    tries the alternatives: [sem r x y] when [r] can take the matcher from
    [x] to [y]. *)
Fixpoint sem (r : re) (x y : mstate) : Prop :=
  match r with
  | Empty => y = x
  | Chr p =>
      exists c rest, ahead x = c :: rest /\ p c = true
                     /\ y = MState (c :: passed x) rest (captures x)
  | Seq a b => exists z, sem a x z /\ sem b z y
  | Alt a b => sem a x y \/ sem b x y
  | Rep lo hi _ a =>
      exists n, withinBounds lo hi n /\ iter (sem a) (groupsIn a) n x y
  | Group n a =>
      exists y0, sem a x y0
        /\ y = MState (passed y0) (ahead y0)
                 (setCapture n (take (length (ahead x) - length (ahead y0)) (ahead x))
                    (captures y0))
  | Look positive a =>
      match m a x Some with
      | Some y0 => positive = true /\ y = MState (passed x) (ahead x) (captures y0)
      | None => positive = false /\ y = x
      end
  | Bol => passed x = [] /\ y = x
  | Eol => ahead x = [] /\ y = x
  | WordB => xorb (isWordAt (head (passed x))) (isWordAt (head (ahead x))) = true
             /\ y = x
  end.

(** [y] is reached from [x] by consuming characters that [r] accepts, the
    groups outside [r] untouched. *)
Definition advances (r : re) (x y : mstate) : Prop :=
  exists s, ahead x = s ++ ahead y
            /\ passed y = rev s ++ passed x
            /\ Forall (fun c => accepts r c = true) s
            /\ forall n, n ∉ groupsIn r ->
                 getCapture n (captures y) = getCapture n (captures x).

End Matching.

(** ** The cleanup pre-pass and the serializer *)

Import Js.

(** [commentWT]: the pattern [/-->/] carries no [g] flag. *)
Definition commentWT (comment : jsstring) : jsstring :=
  lit "<!--" ++ Regex.replace (Regex.str "-->") [Regex.RLit (lit "--&gt;")] comment
    ++ lit "-->".

(** ** The DOM

    A document is a tree; a node is addressed by the path of child indices
    that leads to it from the root, so that [parentNode], [nextSibling]
    and removal are functions of the document and the path. *)

Module Dom.

(** A component of [dsr]: a number, [null], or absent. *)
Inductive dsrval : Type :=
| DNum (z : Z)
| DNull
| DUndefined.

(** The fields of [data-parsoid] that the modelled functions read. *)
Record DataParsoid := mkDataParsoid {
  dsr : list dsrval;
  stx : option jsstring
}.

Inductive Node : Type :=
| Element (nodeName : jsstring) (attributes : list (jsstring * jsstring))
    (parsoid : DataParsoid) (childNodes : list Node)
| Text (nodeValue : jsstring)
| Comment (nodeValue : jsstring).

Definition path := list nat.

Definition children (n : Node) : list Node :=
  match n with
  | Element _ _ _ cs => cs
  | _ => []
  end.

Definition withChildren (n : Node) (cs : list Node) : Node :=
  match n with
  | Element name attrs dp _ => Element name attrs dp cs
  | _ => n
  end.

Fixpoint nodeAt (doc : Node) (p : path) : option Node :=
  match p with
  | [] => Some doc
  | i :: p' =>
      match children doc !! i with
      | Some c => nodeAt c p'
      | None => None
      end
  end.

Definition parentPath (p : path) : path := removelast p.

Definition parentNode (doc : Node) (p : path) : option Node :=
  match p with
  | [] => None
  | _ => nodeAt doc (parentPath p)
  end.

Definition nextSibling (doc : Node) (p : path) : option Node :=
  match p with
  | [] => None
  | _ => nodeAt doc (parentPath p ++ [S (List.last p 0)])
  end.

(** [getAttribute]: [None] stands for [null]. *)
Fixpoint lookupAttr (k : jsstring) (attrs : list (jsstring * jsstring))
  : option jsstring :=
  match attrs with
  | [] => None
  | (k', v) :: attrs' => if Js.eqb k' k then Some v else lookupAttr k attrs'
  end.

Definition getAttribute (n : Node) (k : jsstring) : option jsstring :=
  match n with
  | Element _ attrs _ _ => lookupAttr k attrs
  | _ => None
  end.

(** [removeChild] along a path: the node at [p] is taken out of the child
    list of its parent; the root has no parent and stays. *)
Fixpoint removeAt (doc : Node) (p : path) : Node :=
  match p with
  | [] => doc
  | [i] => withChildren doc (delete i (children doc))
  | i :: p' =>
      match children doc !! i with
      | Some c => withChildren doc (<[i := removeAt c p']> (children doc))
      | None => doc
      end
  end.

(** The document with the node at [p] replaced by its image under [f]. *)
Fixpoint updateAt (f : Node -> Node) (doc : Node) (p : path) : Node :=
  match p with
  | [] => f doc
  | i :: p' =>
      match children doc !! i with
      | Some c => withChildren doc (<[i := updateAt f c p']> (children doc))
      | None => doc
      end
  end.

Definition withDsr (f : list dsrval -> list dsrval) (n : Node) : Node :=
  match n with
  | Element name attrs dp cs =>
      Element name attrs (mkDataParsoid (f (dsr dp)) (stx dp)) cs
  | _ => n
  end.

End Dom.

Import Dom.

(** Truthiness of a string-or-null value. *)
Definition truthy (v : option jsstring) : bool :=
  match v with
  | Some (_ :: _) => true
  | _ => false
  end.

(** *** The cleanup pre-pass: [stripMarkerMetas] *)

(** Modelled from the spec: [DU.deleteNode] of mediawiki.DOMUtils.js, which
    is not among the sources; it removes the node from its parent. *)
Definition deleteNode (doc : Node) (node : path) : Node := removeAt doc node.

(** What a traversal handler returns: [true] to carry on with the tree as
    it is, or the node at which to resume ([None] is [null]). *)
Inductive visit : Type :=
| Continue
| Resume (next : option Node).

(** [/\bmw:(StartTag|EndTag|Extension\/ref\/Marker|TSRMarker)\/?[^\s]*\b/] *)
Definition markerTypeRe : Regex.re :=
  Regex.seq
    [ Regex.WordB; Regex.str "mw:";
      Regex.Group 1 (Regex.alt [ Regex.str "StartTag"; Regex.str "EndTag";
                                 Regex.str "Extension/ref/Marker";
                                 Regex.str "TSRMarker" ]);
      Regex.opt (Regex.Chr (Regex.one "/"));
      Regex.star (Regex.Chr (Regex.neg Regex.space));
      Regex.WordB ].

(** The first disjunct of the condition: a marker [typeof] and no
    [property]. *)
Definition isMarkerWithoutProperty (node : Node) : bool :=
  let metaType := getAttribute node (lit "typeof") in
  truthy metaType
  && (Regex.test markerTypeRe (default [] metaType)
      && negb (truthy (getAttribute node (lit "property")))).

(** The second disjunct without its [editMode] guard. *)
Definition isStrippedTagPlaceholder (node : Node) : bool :=
  match getAttribute node (lit "typeof") with
  | Some t => Js.eqb t (lit "mw:Placeholder/StrippedTag")
  | None => false
  end.

(** The condition of the [if]: [&&] binds tighter than [||], so [editMode]
    guards the second disjunct only. *)
Definition stripCondition (editMode : bool) (node : Node) : bool :=
  isMarkerWithoutProperty node
  || (editMode && isStrippedTagPlaceholder node).

(** The function reads [node.getAttribute] without a test of the node
    type: it is written for elements (the [meta] nodes of the traversal),
    and on anything else the call is a [TypeError]. *)
Definition stripMarkerMetas (editMode : bool) (doc : Node) (p : path)
  : Js.outcome (Node * visit) :=
  match nodeAt doc p with
  | Some (Element _ _ _ _ as node) =>
      if stripCondition editMode node then
        let nextNode := nextSibling doc p in
        Js.Ok (deleteNode doc p, Resume nextNode)
      else Js.Ok (doc, Continue)
  | _ => Js.Throw Js.TypeError
  end.

(** *** Separator constraints *)

(** The object a [sepnls] callback returns: [{min?, max?}]. *)
Record NlBounds := mkBounds {
  b_min : option Z;
  b_max : option Z
}.

(** The constraints object [{a, b, min, max}] kept in [state.sep]; an
    absent property is [None]. *)
Record Constraints := mkConstraints {
  c_a : option NlBounds;
  c_b : option NlBounds;
  c_min : option Z;
  c_max : option Z
}.

(** Lines written to the console (and the error handed to [env.errCB]). *)
Inductive LogEntry : Type :=
| IncompatibleConstraintsMerge (res old new : Constraints)
| IncompatibleConstraints1 (nodeA nodeB : jsstring) (nlConstraints : Constraints)
| IncompatibleConstraints2 (nodeA nodeB : jsstring) (nlConstraints : Constraints)
| ErrorStack (e : JsError)
| NodeAndHandler (nodeName : jsstring)
| NoDomHandler (node : path)
| SerializeDOMError (e : JsError)
| ErrCB (e : JsError).

(** [x || 0] on an optional number. *)
Definition orZero (x : option Z) : Z := default 0%Z x.

(** [x !== undefined ? x : 2]. *)
Definition orTwo (x : option Z) : Z := default 2%Z x.

(** [WSP.mergeConstraints]; the second component is what it writes with
    [console.error]. *)
Definition mergeConstraints (oldConstraints newConstraints : Constraints)
  : Constraints * list LogEntry :=
  let res_a := c_a oldConstraints in
  let res_b := c_b newConstraints in
  let res_min := Z.max (orZero (c_min oldConstraints)) (orZero (c_min newConstraints)) in
  let res_max := Z.min (orTwo (c_max oldConstraints)) (orTwo (c_max newConstraints)) in
  if (res_max <? res_min)%Z then
    (* let newConstraints win, but complain *)
    let maxWins :=
      match c_max newConstraints with
      | Some nmax => (res_min <? nmax)%Z
      | None => false
      end in
    let minWins :=
      match c_min newConstraints with
      | Some nmin => negb (nmin =? 0)%Z && (nmin <? res_min)%Z
      | None => false
      end in
    let res_max := if maxWins then orZero (c_max newConstraints) else res_max in
    let res_min :=
      if maxWins then res_min
      else if minWins then orZero (c_min newConstraints) else res_min in
    let res_max := res_min in
    let res := mkConstraints res_a res_b (Some res_min) (Some res_max) in
    (res, [IncompatibleConstraintsMerge res oldConstraints newConstraints])
  else
    (mkConstraints res_a res_b (Some res_min) (Some res_max), []).

(** *** Template reconstruction: [_buildTemplateWT] *)

(** A template of [data-mw]: [target.wt] and the [params] object, listed
    in the order in which [Object.keys] enumerates it, each key with the
    [wt] of its value. *)
Record Template := mkTemplate {
  target_wt : jsstring;
  params : list (jsstring * jsstring)
}.

(** An entry of [parts]: an object with a [template] property, or plain
    wikitext. *)
Inductive Part : Type :=
| TemplatePart (template : Template)
| WtPart (wt : jsstring).

(** [WSP.escapeTplArgWT]. *)
Definition escapeTplArgWT (arg : jsstring) : jsstring := arg.

Definition keysOf (o : list (jsstring * jsstring)) : list jsstring := map fst o.

(** Property read [o[k]] on an object whose keys are distinct. *)
Definition getProp (o : list (jsstring * jsstring)) (k : jsstring)
  : option jsstring := lookupAttr k o.

(** The [for] loop over [i] of [_buildTemplateWT], from [i] up to [n]. *)
Fixpoint argLoop (tpl : Template) (keys : list jsstring) (count i : nat)
    (argBuf : list jsstring) : list jsstring :=
  match count with
  | O => argBuf
  | S count' =>
      match keys !! i with
      | Some k =>
          let v := escapeTplArgWT (default [] (getProp (params tpl) k)) in
          let argBuf :=
            if Js.eqb k (Js.toString (i + 1)) then argBuf ++ [v]
            else argBuf ++ [k ++ lit "=" ++ v] in
          argLoop tpl keys count' (S i) argBuf
      | None => argBuf
      end
  end.

(** The callback passed to [srcParts.map]: what one part pushes on [buf]. *)
Definition pushPart (buf : list jsstring) (part : Part) : list jsstring :=
  match part with
  | TemplatePart tpl =>
      let buf := buf ++ [lit "{{"] in
      let buf := buf ++ [target_wt tpl] in
      let keys := keysOf (params tpl) in
      let n := length keys in
      let buf :=
        if 0 <? n then
          let argBuf := argLoop tpl keys n 0 [] in
          let buf := buf ++ [lit "|"] in
          buf ++ [Js.join (lit "|") argBuf]
        else buf in
      buf ++ [lit "}}"]
  | WtPart s => buf ++ [s]
  end.

Definition _buildTemplateWT (srcParts : list Part) : jsstring :=
  let buf := fold_left pushPart srcParts [] in
  Js.join [] buf.

(** The reconstruction format in the words of the specification: an
    argument is [value] when its name is its 1-based position and
    [name=value] otherwise; a template is [{{target|arg|...}}]. *)
Definition specArg (position : nat) (kv : jsstring * jsstring) : jsstring :=
  if Js.eqb (fst kv) (Js.toString position) then snd kv
  else fst kv ++ lit "=" ++ snd kv.

Definition specTemplate (tpl : Template) : jsstring :=
  match params tpl with
  | [] => lit "{{" ++ target_wt tpl ++ lit "}}"
  | ps =>
      lit "{{" ++ target_wt tpl ++ lit "|"
        ++ Js.join (lit "|") (imap (fun i kv => specArg (i + 1) kv) ps)
        ++ lit "}}"
  end.

Definition specPart (part : Part) : jsstring :=
  match part with
  | TemplatePart tpl => specTemplate tpl
  | WtPart s => s
  end.

Definition specTemplateWT (srcParts : list Part) : jsstring :=
  concat (map specPart srcParts).


(** ** Annotation rendering: [ve.es.Content.renderAnnotation] *)

Module Content.

(** The [data] object of an annotation; a property that is absent reads
    as [undefined]. *)
Record AnnotationData := mkData {
  html : option jsstring;
  href : option jsstring;
  title : option jsstring
}.

Record Annotation := mkAnnotation {
  type : jsstring;
  data : option AnnotationData
}.

(** Annotations are objects: the stack holds references, compared with
    [===], and the heap gives the object behind a reference. *)
Definition ref := nat.
Definition Heap := ref -> Annotation.

(** String concatenation with a value that may be [undefined]. *)
Definition show (v : option jsstring) : jsstring :=
  default (lit "undefined") v.

(** One side of a renderer: a string or a function of [data]. *)
Inductive side : Type :=
| Str (s : jsstring)
| Fun (f : AnnotationData -> jsstring).

Record Renderer := mkRenderer {
  open : side;
  close : side
}.

(** The double quote, which a string literal cannot hold. *)
Definition dq : jsstring := [34%N].

Definition spanOpen (class : string) : jsstring :=
  lit "<span class=" ++ dq ++ lit class ++ dq.

Definition objectOpen : side :=
  Fun (fun data =>
    spanOpen "es-contentView-format-object" ++ lit ">" ++ show (html data)).

Definition textStyle (name : string) : Renderer :=
  mkRenderer
    (Str (lit "<span class=" ++ dq
          ++ lit "es-contentView-format-textStyle-" ++ lit name ++ dq
          ++ lit ">"))
    (Str (lit "</span>")).

(** [ve.es.Content.annotationRenderers]. *)
Definition annotationRenderers : list (jsstring * Renderer) :=
  [ (lit "object/template", mkRenderer objectOpen (Str (lit "</span>")));
    (lit "object/hook", mkRenderer objectOpen (Str (lit "</span>")));
    (lit "textStyle/bold", textStyle "bold");
    (lit "textStyle/italic", textStyle "italic");
    (lit "textStyle/strong", textStyle "strong");
    (lit "textStyle/emphasize", textStyle "emphasize");
    (lit "textStyle/big", textStyle "big");
    (lit "textStyle/small", textStyle "small");
    (lit "textStyle/superScript", textStyle "superScript");
    (lit "textStyle/subScript", textStyle "subScript");
    (lit "link/external",
      mkRenderer
        (Fun (fun data =>
           spanOpen "es-contentView-format-link" ++ lit " data-href=" ++ dq
             ++ show (href data) ++ dq ++ lit ">"))
        (Str (lit "</span>")));
    (lit "link/internal",
      mkRenderer
        (Fun (fun data =>
           spanOpen "es-contentView-format-link" ++ lit " data-title=" ++ dq
             ++ lit "wiki/" ++ show (title data) ++ dq ++ lit ">"))
        (Str (lit "</span>"))) ].

(** Names that every object inherits from [Object.prototype]: the [in]
    operator finds them too, and none of them has an [open] or a [close]
    property. *)
Definition inherited : list jsstring :=
  map lit [ "constructor"; "toString"; "toLocaleString"; "valueOf";
            "hasOwnProperty"; "isPrototypeOf"; "propertyIsEnumerable";
            "__defineGetter__"; "__defineSetter__"; "__lookupGetter__";
            "__lookupSetter__"; "__proto__" ]%string.

Fixpoint ownRenderer (t : jsstring) (table : list (jsstring * Renderer))
  : option Renderer :=
  match table with
  | [] => None
  | (k, r) :: table' => if Js.eqb k t then Some r else ownRenderer t table'
  end.

(** [type in renderers]. *)
Definition inRenderers (t : jsstring) : bool :=
  match ownRenderer t annotationRenderers with
  | Some _ => true
  | None => existsb (Js.eqb t) inherited
  end.

(** [typeof r.x === 'function' ? r.x(data) : r.x], appended to a string.
    [renderers[type]] is [undefined] for a type that is not in the table,
    and reading a property of [undefined], or of a [data] that is
    [undefined], raises a [TypeError]. *)
Definition renderSide (pick : Renderer -> side) (a : Annotation)
  : outcome jsstring :=
  match ownRenderer (type a) annotationRenderers with
  | Some r =>
      match pick r with
      | Str s => Ok s
      | Fun f =>
          match data a with
          | Some d => Ok (f d)
          | None => Throw TypeError
          end
      end
  | None =>
      if existsb (Js.eqb (type a)) inherited then Ok (lit "undefined")
      else Throw TypeError
  end.

(** Modelled from the spec: [ve.inArray], which is not among the sources;
    the position of the first element strictly equal to the value, or
    [None] for -1. *)
Fixpoint inArray (x : ref) (l : list ref) : option nat :=
  match l with
  | [] => None
  | y :: l' => if Nat.eqb y x then Some 0 else option_map S (inArray x l')
  end.

(** The two [for] loops of the buried case, over the references they
    visit; each appends to [out] and stops at the first exception. *)
Fixpoint renderAll (pick : Renderer -> side) (heap : Heap) (rs : list ref)
    (out : jsstring) : outcome jsstring :=
  match rs with
  | [] => Ok out
  | r :: rs' =>
      match renderSide pick (heap r) with
      | Ok s => renderAll pick heap rs' (out ++ s)
      | Throw e => Throw e
      end
  end.

Inductive bias : Type :=
| BiasOpen
| BiasClose.

(** [ve.es.Content.renderAnnotation]: the rendered text or the exception,
    and the stack as the call leaves it. *)
Definition renderAnnotation (heap : Heap) (b : bias) (annotation : ref)
    (stack : list ref) : outcome jsstring * list ref :=
  let type := type (heap annotation) in
  let out := [] in
  if inRenderers type then
    match b with
    | BiasOpen =>
        (* Add annotation to the top of the stack *)
        let stack := stack ++ [annotation] in
        match renderSide open (heap annotation) with
        | Ok s => (Ok (out ++ s), stack)
        | Throw e => (Throw e, stack)
        end
    | BiasClose =>
        if match last stack with
           | Some top => Nat.eqb top annotation
           | None => false
           end
        then
          (* Remove annotation from top of the stack *)
          let stack := removelast stack in
          match renderSide close (heap annotation) with
          | Ok s => (Ok (out ++ s), stack)
          | Throw e => (Throw e, stack)
          end
        else
          match inArray annotation stack with
          | None =>
              (Throw (Thrown
                 (lit "Invalid stack error. An element is missing from the stack.")),
               stack)
          | Some depth =>
              (* Close each already opened annotation *)
              match renderAll close heap (rev (drop (depth + 1) stack)) out with
              | Throw e => (Throw e, stack)
              | Ok out =>
                  (* Close the buried annotation *)
                  match renderSide close (heap annotation) with
                  | Throw e => (Throw e, stack)
                  | Ok s =>
                      let out := out ++ s in
                      (* Re-open each previously opened annotation *)
                      match renderAll open heap (drop (depth + 1) stack) out with
                      | Throw e => (Throw e, stack)
                      | Ok out =>
                          (* Remove the annotation from the middle of the stack *)
                          (Ok out, delete depth stack)
                      end
                  end
              end
          end
    end
  else (Ok out, stack).

(** An annotation that both sides of its renderer can render: its type
    is in the table (or inherited) and it carries [data] when a side is a
    function.  [open] pushes only annotations with this property, unless
    it ends in an exception. *)
Definition renderable (a : Annotation) : bool :=
  match renderSide open a, renderSide close a with
  | Ok _, Ok _ => true
  | _, _ => false
  end.

(** The text a side renders for a renderable annotation. *)
Definition rendered (pick : Renderer -> side) (a : Annotation) : jsstring :=
  match renderSide pick a with
  | Ok s => s
  | Throw _ => []
  end.

End Content.

(** ** The content view: [scanBoundaries] and [getHtml] *)

Module View.

Import Content.

(** An element of the content data: a character, or an array that holds
    a character followed by the annotations on it. *)
Inductive Item : Type :=
| Plain (chr : jsstring)
| Formatted (chr : jsstring) (annotations : list ref).

Definition chrOf (item : Item) : jsstring :=
  match item with
  | Plain chr => chr
  | Formatted chr _ => chr
  end.

(** [/([ \-\t\r\n\f])/g], the [boundaryTest] of a content view. *)
Definition isBoundaryChar (c : char) : bool :=
  existsb (N.eqb c) [32; 45; 9; 13; 10; 12]%N.

Global Arguments isBoundaryChar : simpl never.

Definition boundaryTest : Regex.re := Regex.Group 1 (Regex.Chr isBoundaryChar).

(** [RegExp.prototype.exec] of a pattern with the [g] flag: the search
    starts at [lastIndex]; the result comes with the new [lastIndex], the
    end of the match, or 0 when there is none. *)
Definition execGlobal (r : Regex.re) (s : jsstring) (lastIndex : nat)
  : option Regex.result * nat :=
  if length s <? lastIndex then (None, 0)
  else
    match Regex.scan r (rev (take lastIndex s)) (drop lastIndex s) with
    | Some res => (Some res, Regex.index res + length (Regex.matched res))
    | None => (None, 0)
    end.

(** The [while] loop of [scanBoundaries]: [end_] is [None] while [end] is
    [undefined]. *)
Fixpoint boundaryLoop (fuel : nat) (text : jsstring) (lastIndex : nat)
    (boundaries : list nat) (end_ : option nat)
  : option (list nat * option nat) :=
  match execGlobal boundaryTest text lastIndex with
  | (Some mt, lastIndex') =>
      match fuel with
      | O => None
      | S fuel' =>
          (* Include the boundary character in the range *)
          let end_ := Regex.index mt + 1 in
          (* Store the boundary offset *)
          boundaryLoop fuel' text lastIndex' (boundaries ++ [end_]) (Some end_)
      end
  | (None, _) => Some (boundaries, end_)
  end.

(** [ve.es.Content.prototype.scanBoundaries]: the array left in
    [this.boundaries]; [None] stands for a loop that was given too few
    iterations. *)
Definition scanBoundaries (data : list Item) : option (list nat) :=
  let text := concat (map chrOf data) in
  match boundaryLoop (S (length text)) text 0 [0] None with
  | Some (boundaries, end_) =>
      if match end_ with
         | Some e => e <? length text     (* [undefined < n] is false *)
         | None => false
         end
         || (length boundaries =? 1)
      then Some (boundaries ++ [length text])
      else Some boundaries
  | None => None
  end.

(** The offsets that follow a boundary character of [s], where [s]
    starts at offset [i] of the text. *)
Fixpoint breaksFrom (i : nat) (s : jsstring) : list nat :=
  match s with
  | [] => []
  | c :: s' =>
      if isBoundaryChar c then S i :: breaksFrom (S i) s' else breaksFrom (S i) s'
  end.

Definition whitespace (entity : string) : jsstring :=
  spanOpen "es-contentView-whitespace" ++ lit ">" ++ lit entity ++ lit "</span>".

(** [ve.es.Content.htmlCharacters] *)
Definition htmlCharacters : list (jsstring * jsstring) :=
  [ (lit "&", lit "&amp;");
    (lit "<", lit "&lt;");
    (lit ">", lit "&gt;");
    (lit "'", lit "&#039;");
    (dq, lit "&quot;");
    ([10%N], whitespace "&#182;");
    ([9%N], whitespace "&#8702;") ].

(** [chr in htmlChars ? htmlChars[chr] : chr].  The [in] operator also
    finds the names that the table inherits from [Object.prototype]; what
    string conversion makes of such a member is given by [memberText]. *)
Definition renderChr (memberText : jsstring -> jsstring) (chr : jsstring)
  : jsstring :=
  match lookupAttr chr htmlCharacters with
  | Some rendering => rendering
  | None => if existsb (Js.eqb chr) inherited then memberText chr else chr
  end.

Definition annotationsOf (item : Item) : list ref :=
  match item with
  | Plain _ => []
  | Formatted _ annotations => annotations
  end.

(** A [for] loop over the annotations of an element that calls [render]
    for those that [wanted] lets through; [acc] is [out] and [stack]. *)
Fixpoint renderEach (heap : Heap) (b : bias) (wanted : ref -> bool)
    (annotations : list ref) (acc : jsstring * list ref)
  : outcome (jsstring * list ref) :=
  match annotations with
  | [] => Ok acc
  | a :: rest =>
      if wanted a then
        match renderAnnotation heap b a (snd acc) with
        | (Ok s, stack) => renderEach heap b wanted rest (fst acc ++ s, stack)
        | (Throw e, _) => Throw e
        end
      else renderEach heap b wanted rest acc
  end.

Definition notIn (other : list ref) (a : ref) : bool :=
  match inArray a other with
  | None => true       (* [ve.inArray(...) === -1] *)
  | Some _ => false
  end.

(** The body of the [for] loop of [getHtml] for the element [right]. *)
Definition renderItem (memberText : jsstring -> jsstring) (heap : Heap)
    (left right : Item) (acc : jsstring * list ref)
  : outcome (jsstring * list ref) :=
  let tags :=
    match left, right with
    | Formatted _ la, Plain _ =>
        (* [formatted][plain] pair, close any annotations for left *)
        renderEach heap BiasClose (fun _ => true) la acc
    | Plain _, Formatted _ ra =>
        (* [plain][formatted] pair, open any annotations for right *)
        renderEach heap BiasOpen (fun _ => true) ra acc
    | Formatted _ la, Formatted _ ra =>
        (* [formatted][formatted] pair, open/close any differences *)
        match renderEach heap BiasClose (notIn ra) la acc with
        | Ok acc => renderEach heap BiasOpen (notIn la) ra acc
        | Throw e => Throw e
        end
    | Plain _, Plain _ => Ok acc
    end in
  match tags with
  | Ok (out, stack) => Ok (out ++ renderChr memberText (chrOf right), stack)
  | Throw e => Throw e
  end.

Fixpoint renderLoop (memberText : jsstring -> jsstring) (heap : Heap)
    (left : Item) (data : list Item) (acc : jsstring * list ref)
  : outcome (jsstring * list ref * Item) :=
  match data with
  | [] => Ok (acc, left)
  | item :: data' =>
      let right := item in
      match renderItem memberText heap left right acc with
      | Ok acc =>
          let left := right in
          renderLoop memberText heap left data' acc
      | Throw e => Throw e
      end
  end.

(** [Array.prototype.slice] on integral arguments; [None] is an [end]
    that is [undefined]. *)
Definition slice {A} (l : list A) (start : Z) (finish : option Z) : list A :=
  let len := Z.of_nat (length l) in
  let rel := fun i => if (i <? 0)%Z then Z.max (len + i) 0 else Z.min i len in
  let k := rel start in
  let final := match finish with Some e => rel e | None => len end in
  take (Z.to_nat (final - k)) (drop (Z.to_nat k) l).

(** [ve.es.Content.prototype.getHtml] on the [contentCache].  A range
    comes as the [start] and [end] that its [normalize] (of [ve.Range],
    which is not among the sources) leaves; [None] is a range that is
    falsy, as the 0 that [render] passes. *)
Definition getHtml (memberText : jsstring -> jsstring) (heap : Heap)
    (contentCache : list Item) (range : option (Z * Z)) : outcome jsstring :=
  let data :=
    match range with
    | Some (start, finish) => slice contentCache start (Some finish)
    | None => slice contentCache 0 None
    end in
  match renderLoop memberText heap (Plain []) data ([], []) with
  | Ok (out, stack, last_) =>
      (* Close all remaining tags at the end of the content *)
      match data, last_ with
      | _ :: _, Formatted _ ra =>
          match renderEach heap BiasClose (fun _ => true) ra (out, stack) with
          | Ok (out, _) => Ok out
          | Throw e => Throw e
          end
      | _, _ => Ok out
      end
  | Throw e => Throw e
  end.

(** An element whose annotations can be rendered: none occurs twice, and
    each one with a type in the renderer table can be rendered on both
    sides. *)
Definition wellFormed (heap : Heap) (item : Item) : Prop :=
  NoDup (annotationsOf item)
  /\ Forall (fun a => inRenderers (type (heap a)) = true ->
                      renderable (heap a) = true) (annotationsOf item).

Definition known (heap : Heap) (a : ref) : bool := inRenderers (type (heap a)).

(** The stack holds, once each, the annotations of [item] that have a
    renderer. *)
Definition tracks (heap : Heap) (item : Item) (stack : list ref) : Prop :=
  NoDup stack
  /\ Forall (fun a => renderable (heap a) = true) stack
  /\ forall a, a ∈ stack <-> a ∈ annotationsOf item /\ known heap a = true.

End View.


(** ** The wikitext serializer

    The serializer is one that its constructor has set up without
    tracing: [env.conf.parsoid.debug] is off and the trace flags do not
    name [wts], so that [this.debugging] is false and [this.trace] is the
    empty function installed in that case.  A block under
    [if (this.debugging)] is then never entered and is not repeated in the
    definitions below. *)

Module Serializer.

(** *** Serializer state *)

(** The wikitext escape handlers of [WikitextEscapeHandlers.prototype];
    [headingHandler] and [liHandler] are pushed bound to their node. *)
Inductive WteHandler : Type :=
| headingHandler (headingNode : path)
| liHandler (liNode : path)
| quoteHandler
| thHandler
| wikilinkHandler
| aHandler
| tdHandler.

(** A chunk sink, the function that finally receives a chunk: a [chunkCB]
    given to [serializeDOM], the [out.push] it uses when none is given, or
    the [appendToBits] of a call of [serializeChildrenToString], which
    pushes on the array [bits] that this call created. *)
Inductive Sink : Type :=
| callerSink (n : nat)
| outSink
| bitsSink (bits : nat).

#[global] Instance Sink_eq_dec : EqDecision Sink.
Proof. solve_decision. Defined.

(** The callbacks that travel as [cb] and [state.chunkCB]: the
    [chunkCBWrapper] of [serializeDOM] bound to its sink, and the [cb] that
    [serializeChildrenToString] builds around [appendToBits]. *)
Inductive CB : Type :=
| chunkCBWrapper (sink : Sink)
| bitsCB (sink : Sink).

(** [state.sep].  [ident] tells the objects apart: [oldSep === this.sep]
    compares identities, and every [{}] is a new object. *)
Record Sep := mkSep {
  ident : nat;
  constraints : option Constraints;
  src : option jsstring;
  lastSourceNode : option path;
  lastSourceSep : option jsstring
}.

(** A value that [JSON.parse] returns; an object is the list of its own
    properties, each name once. *)
Inductive Json : Type :=
| JNull
| JBool (b : bool)
| JNumber (digits : jsstring)
| JString (s : jsstring)
| JArray (items : list Json)
| JObject (members : list (jsstring * Json)).

(** A plain object used as a map: its own properties in the order of
    their creation. *)
Fixpoint ownProperty {V} (k : jsstring) (o : list (jsstring * V)) : option V :=
  match o with
  | [] => None
  | (k', v) :: o' => if Js.eqb k' k then Some v else ownProperty k o'
  end.

Fixpoint assign {V} (k : jsstring) (v : V) (o : list (jsstring * V))
  : list (jsstring * V) :=
  match o with
  | [] => [(k, v)]
  | (k', v') :: o' =>
      if Js.eqb k' k then (k', v) :: o' else (k', v') :: assign k v o'
  end.

(** [o[k] = v]: assigning to [__proto__] goes to the setter of
    [Object.prototype] and creates no property. *)
Definition setProperty {V} (k : jsstring) (v : V) (o : list (jsstring * V))
  : list (jsstring * V) :=
  if Js.eqb k (lit "__proto__") then o else assign k v o.

(** An entry of [state.tplAttrs]: [{kvs, ks, vs}], each from attribute
    names to the [src] found for them ([None] is [undefined]). *)
Record TplAttrs := mkTplAttrs {
  kvs : list (jsstring * option Json);
  ks : list (jsstring * option Json);
  vs : list (jsstring * option Json)
}.

Record CurrLine := mkCurrLine {
  text : jsstring;
  firstNode : option path;
  processed : bool;
  hasOpenHeadingChar : bool;
  hasOpenBrackets : bool
}.

Record State := mkState {
  rtTesting : bool;
  sep : Sep;
  onSOL : bool;
  escapeText : bool;
  atStartOfOutput : bool;
  inIndentPre : bool;
  inPHPBlock : bool;
  inNoWiki : bool;
  inHTMLPre : bool;
  inWideTD : bool;
  wteHandlerStack : list WteHandler;
  currLine : CurrLine;
  chunkCB : option CB;
  selserMode : bool;
  inModifiedContent : bool;
  prevNode : option path;
  prevNodeUnmodified : bool;
  currNodeUnmodified : bool;
  activeTemplateId : option jsstring;
  pageSrc : option jsstring;   (* env.page.src *)
  tplAttrs : list (jsstring * TplAttrs)
}.

Definition set_sep (v : Sep) (s : State) : State :=
  mkState (rtTesting s) v (onSOL s) (escapeText s) (atStartOfOutput s)
    (inIndentPre s) (inPHPBlock s) (inNoWiki s) (inHTMLPre s) (inWideTD s)
    (wteHandlerStack s) (currLine s) (chunkCB s) (selserMode s)
    (inModifiedContent s) (prevNode s) (prevNodeUnmodified s)
    (currNodeUnmodified s) (activeTemplateId s) (pageSrc s) (tplAttrs s).

Definition set_onSOL (v : bool) (s : State) : State :=
  mkState (rtTesting s) (sep s) v (escapeText s) (atStartOfOutput s)
    (inIndentPre s) (inPHPBlock s) (inNoWiki s) (inHTMLPre s) (inWideTD s)
    (wteHandlerStack s) (currLine s) (chunkCB s) (selserMode s)
    (inModifiedContent s) (prevNode s) (prevNodeUnmodified s)
    (currNodeUnmodified s) (activeTemplateId s) (pageSrc s) (tplAttrs s).

Definition set_escapeText (v : bool) (s : State) : State :=
  mkState (rtTesting s) (sep s) (onSOL s) v (atStartOfOutput s)
    (inIndentPre s) (inPHPBlock s) (inNoWiki s) (inHTMLPre s) (inWideTD s)
    (wteHandlerStack s) (currLine s) (chunkCB s) (selserMode s)
    (inModifiedContent s) (prevNode s) (prevNodeUnmodified s)
    (currNodeUnmodified s) (activeTemplateId s) (pageSrc s) (tplAttrs s).

Definition set_atStartOfOutput (v : bool) (s : State) : State :=
  mkState (rtTesting s) (sep s) (onSOL s) (escapeText s) v
    (inIndentPre s) (inPHPBlock s) (inNoWiki s) (inHTMLPre s) (inWideTD s)
    (wteHandlerStack s) (currLine s) (chunkCB s) (selserMode s)
    (inModifiedContent s) (prevNode s) (prevNodeUnmodified s)
    (currNodeUnmodified s) (activeTemplateId s) (pageSrc s) (tplAttrs s).

Definition set_wteHandlerStack (v : list WteHandler) (s : State) : State :=
  mkState (rtTesting s) (sep s) (onSOL s) (escapeText s) (atStartOfOutput s)
    (inIndentPre s) (inPHPBlock s) (inNoWiki s) (inHTMLPre s) (inWideTD s)
    v (currLine s) (chunkCB s) (selserMode s)
    (inModifiedContent s) (prevNode s) (prevNodeUnmodified s)
    (currNodeUnmodified s) (activeTemplateId s) (pageSrc s) (tplAttrs s).

Definition set_currLine (v : CurrLine) (s : State) : State :=
  mkState (rtTesting s) (sep s) (onSOL s) (escapeText s) (atStartOfOutput s)
    (inIndentPre s) (inPHPBlock s) (inNoWiki s) (inHTMLPre s) (inWideTD s)
    (wteHandlerStack s) v (chunkCB s) (selserMode s)
    (inModifiedContent s) (prevNode s) (prevNodeUnmodified s)
    (currNodeUnmodified s) (activeTemplateId s) (pageSrc s) (tplAttrs s).

Definition set_chunkCB (v : option CB) (s : State) : State :=
  mkState (rtTesting s) (sep s) (onSOL s) (escapeText s) (atStartOfOutput s)
    (inIndentPre s) (inPHPBlock s) (inNoWiki s) (inHTMLPre s) (inWideTD s)
    (wteHandlerStack s) (currLine s) v (selserMode s)
    (inModifiedContent s) (prevNode s) (prevNodeUnmodified s)
    (currNodeUnmodified s) (activeTemplateId s) (pageSrc s) (tplAttrs s).

Definition set_selserMode (v : bool) (s : State) : State :=
  mkState (rtTesting s) (sep s) (onSOL s) (escapeText s) (atStartOfOutput s)
    (inIndentPre s) (inPHPBlock s) (inNoWiki s) (inHTMLPre s) (inWideTD s)
    (wteHandlerStack s) (currLine s) (chunkCB s) v
    (inModifiedContent s) (prevNode s) (prevNodeUnmodified s)
    (currNodeUnmodified s) (activeTemplateId s) (pageSrc s) (tplAttrs s).

Definition set_inModifiedContent (v : bool) (s : State) : State :=
  mkState (rtTesting s) (sep s) (onSOL s) (escapeText s) (atStartOfOutput s)
    (inIndentPre s) (inPHPBlock s) (inNoWiki s) (inHTMLPre s) (inWideTD s)
    (wteHandlerStack s) (currLine s) (chunkCB s) (selserMode s)
    v (prevNode s) (prevNodeUnmodified s)
    (currNodeUnmodified s) (activeTemplateId s) (pageSrc s) (tplAttrs s).

Definition set_prevNode (v : option path) (s : State) : State :=
  mkState (rtTesting s) (sep s) (onSOL s) (escapeText s) (atStartOfOutput s)
    (inIndentPre s) (inPHPBlock s) (inNoWiki s) (inHTMLPre s) (inWideTD s)
    (wteHandlerStack s) (currLine s) (chunkCB s) (selserMode s)
    (inModifiedContent s) v (prevNodeUnmodified s)
    (currNodeUnmodified s) (activeTemplateId s) (pageSrc s) (tplAttrs s).

Definition set_prevNodeUnmodified (v : bool) (s : State) : State :=
  mkState (rtTesting s) (sep s) (onSOL s) (escapeText s) (atStartOfOutput s)
    (inIndentPre s) (inPHPBlock s) (inNoWiki s) (inHTMLPre s) (inWideTD s)
    (wteHandlerStack s) (currLine s) (chunkCB s) (selserMode s)
    (inModifiedContent s) (prevNode s) v
    (currNodeUnmodified s) (activeTemplateId s) (pageSrc s) (tplAttrs s).

Definition set_currNodeUnmodified (v : bool) (s : State) : State :=
  mkState (rtTesting s) (sep s) (onSOL s) (escapeText s) (atStartOfOutput s)
    (inIndentPre s) (inPHPBlock s) (inNoWiki s) (inHTMLPre s) (inWideTD s)
    (wteHandlerStack s) (currLine s) (chunkCB s) (selserMode s)
    (inModifiedContent s) (prevNode s) (prevNodeUnmodified s)
    v (activeTemplateId s) (pageSrc s) (tplAttrs s).

Definition set_activeTemplateId (v : option jsstring) (s : State) : State :=
  mkState (rtTesting s) (sep s) (onSOL s) (escapeText s) (atStartOfOutput s)
    (inIndentPre s) (inPHPBlock s) (inNoWiki s) (inHTMLPre s) (inWideTD s)
    (wteHandlerStack s) (currLine s) (chunkCB s) (selserMode s)
    (inModifiedContent s) (prevNode s) (prevNodeUnmodified s)
    (currNodeUnmodified s) v (pageSrc s) (tplAttrs s).

Definition set_inPHPBlock (v : bool) (s : State) : State :=
  mkState (rtTesting s) (sep s) (onSOL s) (escapeText s) (atStartOfOutput s)
    (inIndentPre s) v (inNoWiki s) (inHTMLPre s) (inWideTD s)
    (wteHandlerStack s) (currLine s) (chunkCB s) (selserMode s)
    (inModifiedContent s) (prevNode s) (prevNodeUnmodified s)
    (currNodeUnmodified s) (activeTemplateId s) (pageSrc s) (tplAttrs s).

Definition set_tplAttrs (v : list (jsstring * TplAttrs)) (s : State) : State :=
  mkState (rtTesting s) (sep s) (onSOL s) (escapeText s) (atStartOfOutput s)
    (inIndentPre s) (inPHPBlock s) (inNoWiki s) (inHTMLPre s) (inWideTD s)
    (wteHandlerStack s) (currLine s) (chunkCB s) (selserMode s)
    (inModifiedContent s) (prevNode s) (prevNodeUnmodified s)
    (currNodeUnmodified s) (activeTemplateId s) (pageSrc s) v.

(** Updates of the object held by [state.sep] keep its identity. *)
Definition sep_constraints (v : option Constraints) (x : Sep) : Sep :=
  mkSep (ident x) v (src x) (lastSourceNode x) (lastSourceSep x).

Definition sep_src (v : option jsstring) (x : Sep) : Sep :=
  mkSep (ident x) (constraints x) v (lastSourceNode x) (lastSourceSep x).

Definition sep_lastSourceNode (v : option path) (x : Sep) : Sep :=
  mkSep (ident x) (constraints x) (src x) v (lastSourceSep x).

Definition sep_lastSourceSep (v : option jsstring) (x : Sep) : Sep :=
  mkSep (ident x) (constraints x) (src x) (lastSourceNode x) v.

(** A chunk handed to a sink, with the node it is attributed to. *)
Record Emission := mkEmission {
  e_sink : Sink;
  e_chunk : jsstring;
  e_node : path
}.

(** Everything a serializer run can change: its state, the document (the
    [dsr] of a node is adjusted in selser mode), the console, what the
    sinks received, and the number of objects ([sep] objects and [bits]
    arrays) created so far. *)
Record World := mkWorld {
  state : State;
  doc : Node;
  console : list LogEntry;
  emitted : list Emission;
  allocated : nat
}.

(** *** The monad of serializer code

    A computation maps the world to an outcome and a new world; [None] is
    a model run that was given too little recursion depth. *)
Definition M (A : Type) : Type := World -> option (outcome A * World).

Definition ret {A} (a : A) : M A := fun w => Some (Ok a, w).

Definition throw {A} (e : JsError) : M A := fun w => Some (Throw e, w).

Definition bind {A B} (c : M A) (f : A -> M B) : M B := fun w =>
  match c w with
  | Some (Ok a, w') => f a w'
  | Some (Throw e, w') => Some (Throw e, w')
  | None => None
  end.

(** [try { c } catch (e) { h e }] *)
Definition tryCatch {A} (c : M A) (h : JsError -> M A) : M A := fun w =>
  match c w with
  | Some (Throw e, w') => h e w'
  | r => r
  end.

Definition getState : M State := fun w => Some (Ok (state w), w).

Definition getDoc : M Node := fun w => Some (Ok (doc w), w).

Definition withState (f : State -> State) (w : World) : World :=
  mkWorld (f (state w)) (doc w) (console w) (emitted w) (allocated w).

Definition modifyState (f : State -> State) : M unit := fun w =>
  Some (Ok tt, withState f w).

Definition setDoc (d : Node) : M unit := fun w =>
  Some (Ok tt, mkWorld (state w) d (console w) (emitted w) (allocated w)).

Definition log (entries : list LogEntry) : M unit := fun w =>
  Some (Ok tt, mkWorld (state w) (doc w) (console w ++ entries) (emitted w)
                 (allocated w)).

Definition emit (sink : Sink) (chunk : jsstring) (node : path) : M unit :=
  fun w =>
    Some (Ok tt, mkWorld (state w) (doc w) (console w)
                   (emitted w ++ [mkEmission sink chunk node]) (allocated w)).

(** [{}] assigned to [state.sep]: a new, empty object. *)
Definition freshSep : M Sep := fun w =>
  Some (Ok (mkSep (allocated w) None None None None),
        mkWorld (state w) (doc w) (console w) (emitted w) (S (allocated w))).

(** [bits = []]: a new array, and the sink that pushes on it. *)
Definition freshBits : M Sink := fun w =>
  Some (Ok (bitsSink (allocated w)),
        mkWorld (state w) (doc w) (console w) (emitted w) (S (allocated w))).

(** The number of chunks emitted so far, and the chunks emitted since. *)
Definition emittedCount : M nat := fun w => Some (Ok (length (emitted w)), w).

Definition emittedSince (n : nat) : M (list Emission) := fun w =>
  Some (Ok (drop n (emitted w)), w).

Definition liftOutcome {A} (o : outcome A) : M A :=
  match o with
  | Ok a => ret a
  | Throw e => throw e
  end.

Definition when (b : bool) (c : M unit) : M unit := if b then c else ret tt.

(** [WikitextSerializer.prototype.trace] as the constructor installs it
    when tracing is off: [function () {}]. *)
Definition trace : M unit := ret tt.

Notation "'let*' x ':=' c 'in' k" := (bind c (fun x => k))
  (at level 10, x name, c at level 100, k at level 200).

Notation "c '>>' k" := (bind c (fun _ => k))
  (at level 100, k at level 200, right associativity).

(** *** DOM access *)

Definition nodeName (n : Node) : jsstring :=
  match n with
  | Element name _ _ _ => name
  | Text _ => lit "#text"
  | Comment _ => lit "#comment"
  end.

Definition firstChild (doc : Node) (p : path) : option path :=
  match nodeAt doc p with
  | Some n => match children n with [] => None | _ => Some (p ++ [0]) end
  | None => None
  end.

Definition nextSiblingPath (doc : Node) (p : path) : option path :=
  match nextSibling doc p with
  | Some _ => Some (parentPath p ++ [S (List.last p 0)])
  | None => None
  end.

(** Modelled from the spec: [DU.isText] of mediawiki.DOMUtils.js, which is
    not among the sources; whether the value is a text node. *)
Definition isText (doc : Node) (p : option path) : bool :=
  match p with
  | Some p => match nodeAt doc p with Some (Text _) => true | _ => false end
  | None => false
  end.

(** [node.data.parsoid.dsr[i]].  The [data] of a text or comment node is
    its character data, which has no [parsoid]; reading [dsr] off it
    raises a [TypeError], as does a node that is [undefined]. *)
Definition dsrAt (doc : Node) (p : option path) (i : nat) : outcome dsrval :=
  match p with
  | Some p =>
      match nodeAt doc p with
      | Some (Element _ _ dp _) => Ok (default DUndefined (dsr dp !! i))
      | _ => Throw TypeError
      end
  | None => Throw TypeError
  end.

(** The options [escapeWikiText] receives from [emitSepAndOutput]. *)
Record Opts := mkOpts {
  o_node : path;
  isLastChild : bool
}.

(** A step of a tag handler's [handle] function, as far as the serializer
    state is concerned.  A handler is deterministic: the steps it takes
    are a function of the state and the document in which
    [_getDOMHandler] looks it up, which is how the handler table is
    given below. *)
Inductive HandlerOp : Type :=
| OpEmit (chunk : jsstring)
    (* cb(chunk, node) *)
| OpSerializeChildren (wtEscaper : option WteHandler)
    (* state.serializeChildren(node, cb, wtEscaper) *)
| OpSerializeChildrenToString (target : path) (wtEscaper : option WteHandler)
    (onSOL : option bool)
    (* state.serializeChildrenToString(n, wtEscaper, onSOL), where n is
       the node itself or one below it (the caption of a figure),
       reached from the node by [target] *)
| OpSerializeNode (child : nat)
    (* state.serializer._serializeNode(node.childNodes[child], state, cb) *)
| OpEscapeLinkContent (contentString : jsstring)
    (* escapeWikiLinkContentString(contentString, state) *)
| OpAssign (f : State -> State)
    (* assignments to properties of the state ([inNoWiki], [inIndentPre],
       [inPHPBlock], [sep.src], [activeTemplateId], ...); no handler
       assigns to [wteHandlerStack], which they leave as it is *)
| OpThrow (e : JsError).
    (* an exception raised by the handler's own code *)

(** The [sepnls] callbacks of a handler, applied to (node, otherNode). *)
Record SepNls := mkSepNls {
  before : option (Node -> path -> path -> NlBounds);
  after : option (Node -> path -> path -> NlBounds);
  firstChildNls : option (Node -> path -> path -> NlBounds);
  lastChildNls : option (Node -> path -> path -> NlBounds)
}.

(** What [_getDOMHandler] returns. *)
Record DomHandler := mkDomHandler {
  handle : option (list HandlerOp);
  sepnls : option SepNls
}.

(** The collaborators that are not among the sources (the tokenizer, the
    DOM utilities, [Util], the [JSON.parse] of the engine) and the parts
    of the serializer that are taken
    as given here: the handler table behind [_getDOMHandler] and the
    separator that [emitSeparator] cuts out of the page source by the DSR
    of the two nodes ([separatorFromDSR], the block under
    [if (src && node && prevNode)]; [None] is [undefined]). *)
Class Externals := {
  hasWikitextTokens : State -> bool -> jsstring -> bool -> bool;
  firstNonSepChildNode : Node -> option path -> outcome (option path);
  previousNonSepSibling : Node -> path -> option path;
  nextNonSepSibling : Node -> path -> option path;
  isBlockNode : Node -> option path -> bool;
  isMarkerMeta : Node -> path -> jsstring -> bool;
  hasCurrentDiffMark : Node -> option path -> bool;
  hasInsertedOrModifiedDiffMark : Node -> path -> bool;
  isIndentPre : Node -> path -> bool;
  escapeEntities : jsstring -> jsstring;
  separatorFromDSR : State -> Node -> path -> outcome (option jsstring);
  JSON_parse : jsstring -> outcome Json;
  _getDOMHandler : State -> Node -> option path -> DomHandler
}.

(** *** The patterns of the serializer *)

Module Re.

Import Regex.

Definition code (n : N) : cset := fun c => N.eqb c n.
Definition codes (ns : list N) : cset := fun c => existsb (N.eqb c) ns.

Definition nl : re := Chr (code 10).
Definition cr : re := Chr (code 13).
Definition crlf : cset := codes [13; 10]%N.

(** [<!--([^\-]|-(?!->))*-->] with the inner group numbered [n]. *)
Definition comment (inner : re -> re) : re :=
  seq [ str "<!--";
        star (inner (Alt (Chr (neg (one "-")))
                        (Seq (Chr (one "-")) (Look false (str "->")))));
        str "-->" ].

(** [/^(\s|<!--([^\-]|-(?!->))*-->)*$/] *)
Definition validSep : re :=
  seq [ Bol; star (Group 1 (Alt (Chr space) (comment (Group 2)))); Eol ].

(** [/^(\s|<!--(?:[^\-]|-(?!->))*-->)*$/] *)
Definition sepOnly : re :=
  seq [ Bol; star (Group 1 (Alt (Chr space) (comment id))); Eol ].

(** [/\n/] *)
Definition newline : re := nl.

(** The pattern of [escapedText]:
    [/^((?:.*?|[\r\n]+[^\r\n]|[~]{3,5})*?)((?:\r?\n)* )$/] (the source has
    no blank before the last parenthesis). *)
Definition escaped : re :=
  seq [ Bol;
        Group 1 (starLazy (alt [ starLazy (Chr dot);
                                 Seq (plus (Chr crlf)) (Chr (neg crlf));
                                 range 3 5 (Chr (one "~")) ]));
        Group 2 (star (Seq (opt cr) nl));
        Eol ].

(** [/\b(RFC|ISBN|PMID)\b/] *)
Definition urlTriggers : re :=
  seq [ WordB; Group 1 (alt [str "RFC"; str "ISBN"; str "PMID"]); WordB ].

(** [/^[ \t][^\s]+|[<>\[\]\-\+\|'!=#\*:;~{}]/] *)
Definition special : re :=
  Alt (seq [Bol; Chr (codes [32; 9]%N); plus (Chr (neg space))])
      (Chr (oneOf "<>[]-+|'!=#*:;~{}")).

(** [/\{\{\{|\{\{|\}\}\}|\}\}/] *)
Definition braces : re := alt [str "{{{"; str "{{"; str "}}}"; str "}}"].

(** [/\n./] *)
Definition innerNewline : re := Seq nl (Chr dot).

(** [/~{3,5}/] *)
Definition tildes : re := range 3 5 (Chr (one "~")).

(** [/''|[<>]|\[.*\]|\]|(=(\n|$))/] *)
Definition anywhere : re :=
  alt [ str "''"; Chr (oneOf "<>");
        seq [Chr (one "["); star (Chr dot); Chr (one "]")];
        Chr (one "]");
        Group 1 (Seq (Chr (one "=")) (Group 2 (Alt nl Eol))) ].

(** [/^[ \t#*:;=]|[<\[\]>\|'!]|\-\-\-\-/] *)
Definition atSOL : re :=
  alt [ Seq Bol (Chr (fun c => codes [32; 9]%N c || oneOf "#*:;=" c));
        Chr (oneOf "<[]>|'!");
        str "----" ].

(** [/(^ |\n )[^\s]+/] *)
Definition leadingSpace : re :=
  Seq (Group 1 (Alt (Seq Bol (Chr (code 32))) (Seq nl (Chr (code 32)))))
      (plus (Chr (neg space))).

(** [/<(\/?nowiki)>/g] *)
Definition nowikiTag : re :=
  seq [ Chr (one "<"); Group 1 (Seq (opt (Chr (one "/"))) (str "nowiki"));
        Chr (one ">") ].

(** [/^=+[^=]+=+$/] *)
Definition headingLine : re :=
  seq [ Bol; plus (Chr (one "=")); plus (Chr (neg (one "=")));
        plus (Chr (one "=")); Eol ].

(** [/^=/], [/\[[^\]]*$/], [/=$/], [/^[^\[]*\]/], [/^H/] *)
Definition startsWithEq : re := Seq Bol (Chr (one "=")).
Definition openBracket : re :=
  seq [Chr (one "["); star (Chr (neg (one "]"))); Eol].
Definition endsWithEq : re := Seq (Chr (one "=")) Eol.
Definition closesBracket : re :=
  seq [Bol; star (Chr (neg (one "["))); Chr (one "]")].
Definition startsWithH : re := Seq Bol (Chr (one "H")).

(** The patterns of the escape handlers: [/^[#\*:;]/], [/^'|'$/],
    [/!!|\|\|/], [/(^\|)|(^\[\[)|(^\]\])|(\]$)/], [/\]$/], [/\|/],
    [/^[\-+]/]. *)
Definition bullet : re := Seq Bol (Chr (oneOf "#*:;")).
Definition quote : re :=
  Alt (Seq Bol (Chr (one "'"))) (Seq (Chr (one "'")) Eol).
Definition cellSep : re := Alt (str "!!") (str "||").
Definition wikilink : re :=
  alt [ Group 1 (Seq Bol (Chr (one "|")));
        Group 2 (Seq Bol (str "[["));
        Group 3 (Seq Bol (str "]]"));
        Group 4 (Seq (Chr (one "]")) Eol) ].
Definition endsWithBracket : re := Seq (Chr (one "]")) Eol.
Definition pipe : re := Chr (one "|").
Definition dashOrPlus : re := Seq Bol (Chr (oneOf "-+")).

(** The selser patterns: leading and trailing separator runs,
    [/^((?:\s|<!--([^\-]|-(?!->))*-->)+)/] and the same anchored at the
    end, and [/\bmw:Object(\/[^\s]+|\b)/]. *)
Definition leadingSep : re :=
  Seq Bol (Group 1 (plus (Alt (Chr space) (comment (Group 2))))).
Definition trailingSep : re :=
  Seq (Group 1 (plus (Alt (Chr space) (comment (Group 2))))) Eol.
Definition mwObject : re :=
  seq [ WordB; str "mw:Object";
        Group 1 (Alt (Seq (Chr (one "/")) (plus (Chr (neg space)))) WordB) ].

(** The text node patterns: [/^\s*$/], [/^\n+/], [/\n([ \t]*\n)+/g],
    [/\n\s*$/], [/^\n/]. *)
Definition blank : re := seq [Bol; star (Chr space); Eol].
Definition leadingNewlines : re := Seq Bol (plus nl).
Definition doubleNewline : re :=
  Seq nl (plus (Group 1 (Seq (star (Chr (codes [32; 9]%N))) nl))).
Definition trailingNewline : re := seq [nl; star (Chr space); Eol].
Definition leadingNewline : re := Seq Bol nl.

End Re.

Definition isValidSep (sep : jsstring) : bool := Regex.test Re.validSep sep.

(** The code units of [{] and [}]. *)
Definition isBrace (c : char) : bool := N.eqb c 123 || N.eqb c 125.

(** *** The escape handlers *)

Definition startsWith (c : ascii) (s : jsstring) : bool :=
  match s with
  | x :: _ => N.eqb x (N_of_ascii c)
  | [] => false
  end.

Definition endsWith (c : ascii) (s : jsstring) : bool :=
  match last s with
  | Some x => N.eqb x (N_of_ascii c)
  | None => false
  end.

Definition isEmpty (s : jsstring) : bool :=
  match s with [] => true | _ => false end.

(** [wteHandler(state, text, opts)], as a truth value.  [opts] is
    [undefined] when [escapeWikiText] is called without it; reading a
    property of it then raises a [TypeError]. *)
Definition runWte (h : WteHandler) (d : Node) (st : State) (text : jsstring)
    (opts : option Opts) : outcome bool :=
  match h with
  | headingHandler headingNode =>
      (* Only "=" at the extremities trigger escaping *)
      match opts with
      | None => Throw TypeError
      | Some o =>
          if isLastChild o && isText d (firstChild d headingNode) then
            let line := Serializer.text (currLine st) in
            let line := if isEmpty line then text else line in
            Ok (startsWith "=" line && negb (isEmpty text) && endsWith "=" text)
          else Ok false
      end
  | liHandler liNode =>
      (* Only bullets at the beginning of the list trigger escaping *)
      if isEmpty (Serializer.text (currLine st)) then
        match opts with
        | None => Throw TypeError
        | Some o =>
            if bool_decide (Some (o_node o) = firstChild d liNode)
            then Ok (Regex.test Re.bullet text)
            else Ok false
        end
      else Ok false
  | quoteHandler => Ok (Regex.test Re.quote text)
  | thHandler => Ok (Regex.test Re.cellSep text)
  | wikilinkHandler => Ok (Regex.test Re.wikilink text)
  | aHandler => Ok (Regex.test Re.endsWithBracket text)
  | tdHandler =>
      Ok (Regex.test Re.pipe text
          || (isEmpty (Serializer.text (currLine st))
              && Regex.test Re.dashOrPlus text && negb (inWideTD st)))
  end.

(** *** Separators under constraints: [makeSeparator] *)

Module Separator.

Import Regex.

(** [String.prototype.split] with a pattern and no limit: the pieces
    between the matches, each match followed by its [ncaps] captures
    ([None] is [undefined]).  [p] is the start of the piece being
    collected and [q] the position tried next. *)
Fixpoint splitFrom (fuel : nat) (r : re) (ncaps : nat) (s : jsstring)
    (p q : nat) : list (option jsstring) :=
  match fuel with
  | O => [Some (drop p s)]
  | S fuel' =>
      if q <? length s then
        match matchAt r (rev (take q s)) (drop q s) with
        | None => splitFrom fuel' r ncaps s p (q + 1)
        | Some z =>
            let e := q + length (matched z) in
            if e =? p then splitFrom fuel' r ncaps s p (q + 1)
            else
              Some (take (q - p) (drop p s))
                :: map (fun i => getCapture i (groups z)) (List.seq 1 ncaps)
                ++ splitFrom fuel' r ncaps s e e
        end
      else [Some (drop p s)]
  end.

Definition split (r : re) (ncaps : nat) (s : jsstring) : list (option jsstring) :=
  match s with
  | [] =>
      match matchAt r [] [] with
      | Some _ => []
      | None => [Some s]
      end
  | _ => splitFrom (2 * length s + 2) r ncaps s 0 0
  end.

(** [Array.prototype.join('')]: an element that is [undefined] counts as
    the empty string. *)
Definition joinBits (bits : list (option jsstring)) : jsstring :=
  concat (map (default []) bits).

(** ['<!--(?:[^-]|-(?!->))*-->'] *)
Definition commentRe : re := Re.comment id.

(** ['(?:\n[ \t]*?' + commentRe + '[ \t]*?(?=\n))+|' + commentRe] *)
Definition splitRe : re :=
  Alt (plus (seq [ Re.nl; starLazy (Chr (Re.codes [32; 9]%N)); commentRe;
                   starLazy (Chr (Re.codes [32; 9]%N)); Look true Re.nl ]))
      commentRe.

(** [/\n([^\n]* )/] and [/[^\n>]+(<!--(?:[^\-]|-(?!->))*-->[^\n]* )?$/g]
    (the source has no blank before the parentheses that close). *)
Definition firstNewline : re :=
  Seq Re.nl (Group 1 (star (Chr (neg (Re.code 10))))).
Definition lastLine : re :=
  seq [ plus (Chr (neg (Re.codes [10; 62]%N)));
        opt (Group 1 (Seq commentRe (star (Chr (neg (Re.code 10))))));
        Eol ].

Definition preSafeTags : list jsstring :=
  map lit ["BR"; "TABLE"; "TBODY"; "CAPTION"; "TR"; "TD"; "TH"]%string.

(** [sep.split(splitRe).join('').match(/\n/g)], counted. *)
Definition sepNlCount (sep : jsstring) : nat :=
  countAll Re.newline (joinBits (split splitRe 0 sep)).

(** [minNls], after the correction at the start of the output.  Reading
    [nlConstraints.a.min] raises a [TypeError] when [a] is [undefined]. *)
Definition minNlsOf (nlConstraints : Constraints) (atStartOfOutput : bool)
  : outcome Z :=
  let minNls := orZero (c_min nlConstraints) in
  if atStartOfOutput then
    match c_a nlConstraints with
    | None => Throw TypeError
    | Some a =>
        if (match b_min a with Some 0%Z | None => true | _ => false end)
           && (0 <? minNls)%Z
        then (* Skip first newline as we are in start-of-line context *)
          Ok (minNls - 1)%Z
        else Ok minNls
    end
  else Ok minNls.

(** [while (bit && bit.match(splitRe)) { newBits.push(bit); bit = allBits.pop(); }]
    on [allBits] with its last element first. *)
Fixpoint skipComments (bit : option jsstring) (rest : list (option jsstring))
    (newBits : list (option jsstring))
  : option jsstring * list (option jsstring) * list (option jsstring) :=
  if truthy bit && test splitRe (default [] bit) then
    match rest with
    | [] => (None, [], newBits ++ [bit])
    | b :: rest' => skipComments b rest' (newBits ++ [bit])
    end
  else (bit, rest, newBits).

(** [while (n > max && bit.match(/\n/)) { bit = bit.replace(...); n--; }];
    the text of the bit is [None] when [bit] is [undefined], and testing
    it then raises a [TypeError]. *)
Fixpoint stripNewlines (fuel : nat) (n max : Z) (bit : option jsstring)
  : outcome (option jsstring * Z) :=
  if (max <? n)%Z then
    match bit with
    | None => Throw TypeError
    | Some text =>
        if test Re.newline text then
          match fuel with
          | O => Ok (bit, n)
          | S fuel' =>
              stripNewlines fuel' (n - 1) max
                (Some (replace firstNewline [RGroup 1] text))
          end
        else Ok (bit, n)
    end
  else Ok (bit, n).

(** [while (n > nlConstraints.max) { ... }]; [allBits] has its last element
    first. *)
Fixpoint stripLoop (fuel : nat) (n max : Z) (allBits newBits : list (option jsstring))
  : outcome (list (option jsstring) * list (option jsstring)) :=
  if (max <? n)%Z then
    match fuel with
    | O => Ok (allBits, newBits)
    | S fuel' =>
        let '(bit, allBits) :=
          match allBits with
          | [] => (None, [])
          | b :: rest => (b, rest)
          end in
        (* skip comments *)
        let '(bit, allBits, newBits) := skipComments bit allBits newBits in
        match stripNewlines (length (default [] bit)) n max bit with
        | Throw e => Throw e
        | Ok (bit, n) => stripLoop fuel' n max allBits (newBits ++ [bit])
        end
    end
  else Ok (allBits, newBits).

(** [WSP.makeSeparator]: of [node] it reads the name, of [state] whether
    the output has started. *)
Definition makeSeparator (sep : jsstring) (nodeName : jsstring)
    (nlConstraints : Constraints) (atStartOfOutput : bool) : outcome jsstring :=
  let count := sepNlCount sep in
  match minNlsOf nlConstraints atStartOfOutput with
  | Throw e => Throw e
  | Ok minNls =>
      let stripped :=
        if (0 <? minNls)%Z && (Z.of_nat count <? minNls)%Z then
          (* Append newlines *)
          Ok (sep ++ replicate (Z.to_nat (minNls - Z.of_nat count)) 10%N)
        else
          match c_max nlConstraints with
          | Some max =>
              if (max <? Z.of_nat count)%Z then
                (* Strip some newlines outside of comments *)
                let allBits := split (Group 1 splitRe) 1 sep in
                match stripLoop (S (length allBits)) (Z.of_nat count) max
                        (rev allBits) [] with
                | Throw e => Throw e
                | Ok (allBits, newBits) =>
                    Ok (joinBits (rev allBits ++ rev newBits))
                end
              else Ok sep
          | None => Ok sep
          end in
      match stripped with
      | Throw e => Throw e
      | Ok sep =>
          (* Strip non-nl ws from last line, but preserve comments *)
          if (0 <? orZero (c_min nlConstraints))%Z
             && negb (existsb (Js.eqb nodeName) preSafeTags
                      || existsb (Js.eqb nodeName) Content.inherited)
          then Ok (replaceAll lastLine [RGroup 1] sep)
          else Ok sep
      end
  end.

(** The line feeds of a text. *)
Definition newlinesIn (s : jsstring) : nat := length (List.filter (Re.code 10) s).

End Separator.

(** *** The escape oracle *)

(** [escapedText]: [match] is [null] when the pattern fails, and reading
    [match[1]] then raises a [TypeError]. *)
Definition escapedText (text : jsstring) : outcome jsstring :=
  match Regex.exec Re.escaped text with
  | Some mt =>
      Ok (lit "<nowiki>" ++ default [] (Regex.group 1 mt) ++ lit "</nowiki>"
            ++ default [] (Regex.group 2 mt))
  | None => Throw TypeError
  end.

Section Oracle.

Context {ext : Externals}.

Definition set_cl (f : CurrLine -> CurrLine) : M unit :=
  modifyState (fun st => set_currLine (f (currLine st)) st).

(** The lazy analysis of [state.currLine] at the end of [escapeWikiText]. *)
Definition processCurrLine : M unit :=
  let* st := getState in
  let* d := getDoc in
  let cl := currLine st in
  if processed cl then ret tt
  else
    set_cl (fun cl => mkCurrLine (text cl) (firstNode cl) true false false) >>
    (if Regex.test Re.startsWithEq (text cl) then
       match firstNode cl with
       | None => throw TypeError
       | Some fn =>
           let* fc := liftOutcome
                        (firstNonSepChildNode d
                           (match fn with [] => None | _ => Some (parentPath fn) end)) in
           let fromText := isText d fc in
           let fromHeading :=
             match nodeAt d fn with
             | Some n =>
                 Regex.test Re.startsWithH (nodeName n)
                 && match firstChild d fn with
                    | Some c => isText d (Some c)
                    | None => false
                    end
             | None => false
             end in
           when (fromText || fromHeading)
             (set_cl (fun cl => mkCurrLine (text cl) (firstNode cl) (processed cl)
                                  true (hasOpenBrackets cl)))
       end
     else ret tt) >>
    (* Does cl.text have an open '['? *)
    when (Regex.test Re.openBracket (text cl))
      (set_cl (fun cl => mkCurrLine (text cl) (firstNode cl) (processed cl)
                           (hasOpenHeadingChar cl) true)).

(** [WSP.escapeWikiText] *)
Definition escapeWikiText (text : jsstring) (opts : option Opts) : M jsstring :=
  let fullCheckNeeded := Regex.test Re.urlTriggers text in
  (* Quick check for the common case *)
  if negb fullCheckNeeded && negb (Regex.test Re.special text) then ret text
  else
    let* st := getState in
    let* d := getDoc in
    (* Context-specific escape handler *)
    let* handlerSaysEscape :=
      match last (wteHandlerStack st) with
      | Some wteHandler => liftOutcome (runWte wteHandler d st text opts)
      | None => ret false
      end in
    if handlerSaysEscape then liftOutcome (escapedText text)
    else
      (* Template and template-arg markers are escaped unconditionally! *)
      if Regex.test Re.braces text then liftOutcome (escapedText text)
      else
        let sol := onSOL st && negb (inIndentPre st) && negb (inPHPBlock st) in
        let hasNewlines := Regex.test Re.innerNewline text in
        let hasTildes := Regex.test Re.tildes text in
        trace >>
        if negb fullCheckNeeded && negb hasNewlines && negb hasTildes
           && ((negb sol && negb (Regex.test Re.anywhere text))
               || (sol && negb (Regex.test Re.atSOL text)))
        then ret text
        else
          if sol && Regex.test Re.leadingSpace text
          then liftOutcome (escapedText text)
          else
            (* escape nowiki tags *)
            let text :=
              Regex.replaceAll Re.nowikiTag
                [Regex.RLit (lit "&lt;"); Regex.RGroup 1; Regex.RLit (lit "&gt;")]
                text in
            if hasWikitextTokens st sol text false || hasTildes
            then liftOutcome (escapedText text)
            else if onSOL st then
              if Regex.test Re.headingLine text
              then liftOutcome (escapedText text)
              else ret text
            else
              processCurrLine >>
              let* st := getState in
              let cl := currLine st in
              (* [opts.isLastChild] is read behind an open heading char
                 only; [opts] is [undefined] when the caller passed none *)
              let* isLast :=
                if hasOpenHeadingChar cl then
                  match opts with
                  | Some o => ret (isLastChild o)
                  | None => throw TypeError
                  end
                else ret false in
              if (hasOpenHeadingChar cl && isLast && Regex.test Re.endsWithEq text)
                 || (hasOpenBrackets cl && Regex.test Re.closesBracket text
                     && hasWikitextTokens st sol (Serializer.text cl ++ text) true)
              then liftOutcome (escapedText text)
              else ret text.

(** *** Emission *)

(** [ToInteger] of a [substring] argument. *)
Definition substringStart (v : dsrval) : Z :=
  match v with DNum z => z | _ => 0%Z end.

Definition substringEnd (len : nat) (v : dsrval) : Z :=
  match v with
  | DNum z => z
  | DNull => 0%Z
  | DUndefined => Z.of_nat len
  end.

(** [state.getOrigSrc] *)
Definition getOrigSrc (start finish : dsrval) : M jsstring :=
  let* st := getState in
  match pageSrc st with
  | Some page =>
      ret (Js.substring page (substringStart start)
             (substringEnd (length page) finish))
  | None => throw TypeError
  end.

(** [state.resetCurrLine] *)
Definition resetCurrLine (node : path) : M unit :=
  modifyState (set_currLine (mkCurrLine [] (Some node) false false false)).

(** [state.emitSep]; [cb] is a sink here. *)
Definition emitSep (sep : jsstring) (node : path) (cb : Sink) : M unit :=
  emit cb sep node >>
  (* Reset separator state *)
  let* fresh := freshSep in
  modifyState (set_sep fresh) >>
  when (negb (isEmpty sep) && Regex.test Re.newline sep)
    (modifyState (set_onSOL true)).

(** The call [this.makeSeparator(sep, origNode, nlConstraints, state)]. *)
Definition makeSeparatorAt (sep : jsstring) (node : path)
    (nlConstraints : Constraints) : M jsstring :=
  let* st := getState in
  let* d := getDoc in
  match nodeAt d node with
  | Some n =>
      let* res := liftOutcome (Separator.makeSeparator sep (nodeName n)
                                 nlConstraints (atStartOfOutput st)) in
      trace >>
      ret res
  | None => throw TypeError
  end.

(** [WSP.emitSeparator]: the separator found in the page source, when
    there is a page source and a last source node; if there is none, or it
    is not a separator, or it differs from the separator source collected
    so far, the separator is made from that source under the pending
    constraints.  [None] is [undefined], and then nothing is emitted. *)
Definition emitSeparator (cb : Sink) (node : path) : M unit :=
  let* st := getState in
  let* d := getDoc in
  let sepSrc := src (sep st) in
  let* found :=
    if truthy (pageSrc st) && bool_decide (is_Some (lastSourceNode (sep st)))
    then liftOutcome (separatorFromDSR st d node)
    else ret None in
  (* Verify that the separator is really one. *)
  let* found :=
    if match found with
       | None => true
       | Some s =>
           negb (isValidSep s)
           || (truthy sepSrc && negb (Js.eqb (default [] sepSrc) s))
       end
    then
      match constraints (sep st) with
      | Some c =>
          let* s := makeSeparatorAt (default [] sepSrc) node c in
          ret (Some s)
      | None =>
          if truthy sepSrc then
            (* Strip whitespace from the last line *)
            let* s := makeSeparatorAt (default [] sepSrc) node
                        (mkConstraints (Some (mkBounds None None))
                           (Some (mkBounds None None)) None (Some 0%Z)) in
            ret (Some s)
          else ret None
      end
    else ret found in
  match found with
  | Some s => emitSep s node cb
  | None => ret tt
  end.

Definition set_sepField (f : Sep -> Sep) : M unit :=
  modifyState (fun st => set_sep (f (sep st)) st).

(** [state.emitSepAndOutput], in two parts: the separator, then the
    output of [res]. *)
Definition emitSepFirst (node : path) (cb : Sink) : M unit :=
  let* st := getState in
  let* d := getDoc in
  (* Emit separator first *)
  if prevNodeUnmodified st && currNodeUnmodified st then
    let* prevEnd := liftOutcome (dsrAt d (prevNode st) 1) in
    let* nodeStart := liftOutcome (dsrAt d (Some node) 0) in
    let* origSep := getOrigSrc prevEnd nodeStart in
    if isValidSep origSep then emitSep origSep node cb
    else emitSeparator cb node
  else emitSeparator cb node.

Definition outputAfterSep (res : jsstring) (node : path) (cb : Sink) : M unit :=
  let* st := getState in
  modifyState (set_prevNodeUnmodified (currNodeUnmodified st)) >>
  modifyState (set_prevNode (Some node)) >>
  modifyState (set_currNodeUnmodified false) >>
  let* st := getState in
  when (onSOL st) (resetCurrLine node) >>
  (* Escape 'res' if necessary *)
  let origRes := res in
  let* st := getState in
  let* d := getDoc in
  let* res :=
    if escapeText st then
      let* res := escapeWikiText res
                    (Some (mkOpts node
                             (match nextSibling d node with
                              | Some _ => false
                              | None => true
                              end))) in
      modifyState (set_escapeText false) >>
      ret res
    else ret res in
  (* Emitting text that has not been escaped *)
  when (isText d (Some node) && Js.eqb res origRes)
    (set_cl (fun cl => mkCurrLine (text cl ++ res) (firstNode cl) false
                         (hasOpenHeadingChar cl) (hasOpenBrackets cl))) >>
  (* Output res *)
  emit cb res node >>
  (* Update state *)
  set_sepField (sep_lastSourceNode (Some node)) >>
  set_sepField (fun x => sep_lastSourceSep (src x) x) >>
  when (negb (Regex.test Re.sepOnly res)) (modifyState (set_onSOL false)).

Definition emitSepAndOutput (res : jsstring) (node : path) (cb : Sink) : M unit :=
  emitSepFirst node cb >> outputAfterSep res node cb.

(** Calling a [cb]: the [chunkCBWrapper] of [serializeDOM], or the [cb] of
    [serializeChildrenToString]; calling [undefined] raises a
    [TypeError]. *)
Definition callCB (cb : option CB) (chunk : jsstring) (node : path) : M unit :=
  match cb with
  | Some (chunkCBWrapper sink) =>
      emitSepAndOutput chunk node sink >>
      modifyState (set_atStartOfOutput false)
  | Some (bitsCB sink) => emitSepAndOutput chunk node sink
  | None => throw TypeError
  end.

End Oracle.

(** *** Separator constraints between two nodes *)

Section Traversal.

Context {ext : Externals}.

(** [WSP.getSepNlConstraints] *)
Definition getSepNlConstraints (d : Node) (nodeA : path)
    (sepNlsHandlerA : option (Node -> path -> path -> NlBounds))
    (nodeB : path)
    (sepNlsHandlerB : option (Node -> path -> path -> NlBounds))
  : Constraints * list LogEntry :=
  let nameOf := fun p => default [] (nodeName <$> nodeAt d p) in
  let nlConstraints :=
    match sepNlsHandlerA with
    | Some hA =>
        let a := hA d nodeA nodeB in
        mkConstraints (Some a) (Some (mkBounds None None)) (b_min a) (b_max a)
    | None =>
        mkConstraints (Some (mkBounds None None)) (Some (mkBounds None None))
          None (Some 2%Z)
    end in
  match sepNlsHandlerB with
  | Some hB =>
      let cb := hB d nodeB nodeA in
      let nlConstraints :=
        mkConstraints (c_a nlConstraints) (Some cb) (c_min nlConstraints)
          (c_max nlConstraints) in
      (* now figure out if this conflicts with the nlConstraints so far *)
      let '(nlConstraints, log1) :=
        match b_min cb with
        | Some cbmin =>
            match c_max nlConstraints with
            | Some mx =>
                if (mx <? cbmin)%Z then
                  (mkConstraints (c_a nlConstraints) (c_b nlConstraints)
                     (Some cbmin) (Some cbmin),
                   [IncompatibleConstraints1 (nameOf nodeA) (nameOf nodeB)
                      nlConstraints])
                else
                  (mkConstraints (c_a nlConstraints) (c_b nlConstraints)
                     (Some (Z.max (orZero (c_min nlConstraints)) cbmin))
                     (c_max nlConstraints), [])
            | None =>
                (mkConstraints (c_a nlConstraints) (c_b nlConstraints)
                   (Some (Z.max (orZero (c_min nlConstraints)) cbmin))
                   (c_max nlConstraints), [])
            end
        | None => (nlConstraints, [])
        end in
      let '(nlConstraints, log2) :=
        match b_max cb with
        | Some cbmax =>
            match c_min nlConstraints with
            | Some mn =>
                if (cbmax <? mn)%Z then
                  (mkConstraints (c_a nlConstraints) (c_b nlConstraints)
                     (Some cbmax) (Some cbmax),
                   [IncompatibleConstraints2 (nameOf nodeA) (nameOf nodeB)
                      nlConstraints])
                else
                  (mkConstraints (c_a nlConstraints) (c_b nlConstraints)
                     (c_min nlConstraints)
                     (Some (match c_max nlConstraints with
                            | Some mx => Z.min mx cbmax
                            | None => cbmax
                            end)), [])
            | None =>
                (mkConstraints (c_a nlConstraints) (c_b nlConstraints)
                   (c_min nlConstraints)
                   (Some (match c_max nlConstraints with
                          | Some mx => Z.min mx cbmax
                          | None => cbmax
                          end)), [])
            end
        | None => (nlConstraints, [])
        end in
      (nlConstraints, log1 ++ log2)
  | None => (nlConstraints, [])
  end.

Definition handlerSepnls (h : DomHandler) : SepNls :=
  default (mkSepNls None None None None) (sepnls h).

(** [WSP.updateSeparatorConstraints]; no call passes [dir]. *)
Definition updateSeparatorConstraints (nodeA : path) (handlerA : DomHandler)
    (nodeB : path) (handlerB : DomHandler) : M unit :=
  let* d := getDoc in
  let sepHandlerA := handlerSepnls handlerA in
  let sepHandlerB := handlerSepnls handlerB in
  let '(nlConstraints, logged) :=
    if bool_decide (nextSiblingPath d nodeA = Some nodeB) then
      (* sibling separator *)
      getSepNlConstraints d nodeA (after sepHandlerA) nodeB (before sepHandlerB)
    else if bool_decide (nodeB <> [] /\ parentPath nodeB = nodeA) then
      (* parent-child separator, nodeA parent of nodeB *)
      getSepNlConstraints d nodeA (firstChildNls sepHandlerA) nodeB
        (before sepHandlerB)
    else if bool_decide (nodeA <> [] /\ parentPath nodeA = nodeB) then
      (* parent-child separator, nodeB parent of nodeA *)
      getSepNlConstraints d nodeA (after sepHandlerA) nodeB
        (lastChildNls sepHandlerB)
    else
      (* sibling separator *)
      getSepNlConstraints d nodeA (after sepHandlerA) nodeB (before sepHandlerB) in
  log logged >>
  let* st := getState in
  match constraints (sep st) with
  | Some pending =>
      (* Merge the constraints *)
      let '(merged, logged) := mergeConstraints pending nlConstraints in
      log logged >>
      set_sepField (sep_constraints (Some merged))
  | None => set_sepField (sep_constraints (Some nlConstraints))
  end.

(** [_getPrevSeparatorElement] and [_getNextSeparatorElement] *)
Definition orParent (sibling : option path) (node : path) : option path :=
  match sibling with
  | Some s => Some s
  | None => match node with [] => None | _ => Some (parentPath node) end
  end.

Definition _getPrevSeparatorElement (d : Node) (node : path) : option path :=
  orParent (previousNonSepSibling d node) node.

Definition _getNextSeparatorElement (d : Node) (node : path) : option path :=
  orParent (nextNonSepSibling d node) node.

Definition appendSepSrc (s : jsstring) : M unit :=
  set_sepField (fun x => sep_src (Some (default [] (src x) ++ s)) x).

(** [WSP.handleSeparatorText] *)
Definition handleSeparatorText (node : path) : M bool :=
  let* d := getDoc in
  match nodeAt d node with
  | Some (Text nodeValue) =>
      if Regex.test Re.blank nodeValue then
        appendSepSrc nodeValue >> ret true
      else
        match Regex.exec Re.leadingNewlines nodeValue with
        | Some mt => appendSepSrc (Regex.matched mt) >> ret false
        | None => ret false
        end
  | Some (Comment nodeValue) =>
      appendSepSrc (commentWT nodeValue) >> ret true
  | _ => ret false
  end.

(** [WSP._serializeTextNode] *)
Definition _serializeTextNode (node : path) (nodeValue : jsstring)
    (cb : option CB) : M unit :=
  let* d := getDoc in
  let res := nodeValue in
  let doubleNewlineCount := Regex.countAll Re.doubleNewline res in
  (* Deal with trailing separator-like text *)
  let newSepMatch := Regex.exec Re.trailingNewline res in
  let res := Regex.replace Re.trailingNewline [] res in
  (* reading [node.parentNode.childNodes] raises a [TypeError] when the
     node has no parent *)
  let* siblings :=
    match parentNode d node with
    | Some parent => ret (children parent)
    | None => throw TypeError
    end in
  let parent := Some (parentPath node) in
  let res :=
    if negb (length siblings =? 1) || negb (isBlockNode d parent)
       || negb (doubleNewlineCount =? 1)
    then (* Strip more than one consecutive newline *)
      Regex.replaceAll Re.doubleNewline [Regex.RLit [10%N]] res
    else res in
  (* Strip leading newlines *)
  let res := Regex.replace Re.leadingNewline [] res in
  (* Always escape entities *)
  let res := escapeEntities res in
  (* If not in nowiki and pre context, escape wikitext *)
  modifyState (fun st => set_escapeText (negb (inNoWiki st) && negb (inHTMLPre st)) st) >>
  callCB cb res node >>
  (* Move trailing newlines into the next separator *)
  let* st := getState in
  match newSepMatch with
  | Some mt =>
      when (negb (truthy (src (sep st))))
        (set_sepField (sep_src (Some (Regex.matched mt))) >>
         set_sepField (fun x => sep_lastSourceSep (src x) x))
  | None => ret tt
  end.

(** [escapeWikiLinkContentString] *)
Definition escapeWikiLinkContentString (contentString : jsstring) : M jsstring :=
  modifyState (set_onSOL false) >>
  modifyState (fun st => set_wteHandlerStack (wteHandlerStack st ++ [wikilinkHandler]) st) >>
  let* res := escapeWikiText contentString None in
  modifyState (fun st => set_wteHandlerStack (removelast (wteHandlerStack st)) st) >>
  ret res.

(** [isValidDSR] *)
Definition isValidDSR (dsr : list dsrval) : bool :=
  match dsr !! 0, dsr !! 1 with
  | Some (DNum a), Some (DNum b) => (0 <=? a)%Z && (0 <=? b)%Z
  | _, _ => false
  end.

Definition addDsr (i : nat) (delta : Z) (dsr : list dsrval) : list dsrval :=
  match dsr !! i with
  | Some (DNum z) => <[i := DNum (z + delta)]> dsr
  | _ => dsr
  end.

(** *** The traversal

    [_serializeNode], the handlers and [serializeChildren] call one
    another; the functions below take the recursive call as [self], and
    [_serializeNode] ties the knot over the recursion depth. *)

Definition outOfFuel {A} : M A := fun _ => None.

Section Knot.

Variable self : path -> option CB -> M path.

(** The [while (child)] loop of [serializeChildren]; a walk visits every
    child once, so the number of children bounds the iterations. *)
Fixpoint childLoop (n : nat) (node : path) (child : option path) : M unit :=
  match child with
  | None => ret tt
  | Some c =>
      match n with
      | O => outOfFuel
      | S n' =>
          let* nextChild := self c None in
          if bool_decide (nextChild = node) then
            (* serialized all children *)
            ret tt
          else if bool_decide (nextChild = c) then
            (* advance the child *)
            let* d := getDoc in
            childLoop n' node (nextSiblingPath d c)
          else childLoop n' node (Some nextChild)
      end
  end.

(** [state.serializeChildren] *)
Definition serializeChildren (node : path) (chunkCB : option CB)
    (wtEscaper : option WteHandler) : M unit :=
  let* st := getState in
  let* d := getDoc in
  let oldCB := Serializer.chunkCB st in
  let oldSep := sep st in
  let children := default [] (children <$> nodeAt d node) in
  let child := firstChild d node in
  modifyState (set_chunkCB chunkCB) >>
  match wtEscaper with
  | Some h =>
      modifyState (fun st => set_wteHandlerStack (wteHandlerStack st ++ [h]) st)
  | None => ret tt
  end >>
  childLoop (length children) node child >>
  (* Force out accumulated separator *)
  let* st := getState in
  when (ident oldSep =? ident (sep st))
    (if length children =? 0 then callCB chunkCB [] node
     else callCB chunkCB [] (node ++ [pred (length children)])) >>
  modifyState (set_chunkCB oldCB) >>
  match wtEscaper with
  | Some _ =>
      modifyState (fun st => set_wteHandlerStack (removelast (wteHandlerStack st)) st)
  | None => ret tt
  end.

(** [state.serializeChildrenToString]; the result joins what the sink of
    [bits] received. *)
Definition serializeChildrenToString (node : path)
    (wtEscaper : option WteHandler) (onSOL : option bool) : M jsstring :=
  let* bits := freshBits in
  let* st := getState in
  let oldSep := sep st in
  let* before := emittedCount in
  let* fresh := freshSep in
  modifyState (set_sep fresh) >>
  match onSOL with
  | Some v => modifyState (set_onSOL v)
  | None => ret tt
  end >>
  serializeChildren node (Some (bitsCB bits)) wtEscaper >>
  emitSeparator bits node >>
  (* restore the separator state *)
  modifyState (set_sep oldSep) >>
  let* out := emittedSince before in
  ret (concat (map e_chunk (filter (fun e => e_sink e = bits) out))).

(** One step of a handler. *)
Definition runOp (node : path) (cb : option CB) (op : HandlerOp) : M unit :=
  match op with
  | OpEmit chunk => callCB cb chunk node
  | OpSerializeChildren wtEscaper => serializeChildren node cb wtEscaper
  | OpSerializeChildrenToString target wtEscaper onSOL =>
      serializeChildrenToString (node ++ target) wtEscaper onSOL >> ret tt
  | OpSerializeNode child => self (node ++ [child]) cb >> ret tt
  | OpEscapeLinkContent contentString =>
      escapeWikiLinkContentString contentString >> ret tt
  | OpAssign f =>
      modifyState (fun st => set_wteHandlerStack (wteHandlerStack st) (f st))
  | OpThrow e => throw e
  end.

(** [domHandler.handle(node, state, cb)] *)
Fixpoint runHandler (node : path) (cb : option CB) (ops : list HandlerOp)
  : M unit :=
  match ops with
  | [] => ret tt
  | op :: ops' => runOp node cb op >> runHandler node cb ops'
  end.

(** The selser branch of [_serializeNode]: emit the original source of an
    unmodified node; the result tells whether the node was handled. *)
Definition serializeFromSource (node : path) (cb : option CB) : M bool :=
  let* st := getState in
  let* d := getDoc in
  match nodeAt d node with
  | Some (Element _ _ dp _ as elt) =>
      if isValidDSR (dsr dp) && negb (hasCurrentDiffMark d (Some node)) then
        let* src := getOrigSrc (default DUndefined (dsr dp !! 0))
                      (default DUndefined (dsr dp !! 1)) in
        let previousSibling :=
          match node with
          | [] => None
          | _ => match List.last node 0 with
                 | O => None
                 | S i => Some (parentPath node ++ [i])
                 end
          end in
        let stripLeading :=
          negb (isIndentPre d node) && hasCurrentDiffMark d previousSibling in
        let stripTrailing := hasCurrentDiffMark d (nextSiblingPath d node) in
        let leadingSepMatch :=
          if stripLeading then Regex.exec Re.leadingSep src else None in
        let trailingSepMatch :=
          if stripTrailing then Regex.exec Re.trailingSep src else None in
        let out := src in
        let* offset :=
          match leadingSepMatch with
          | Some mt =>
              appendSepSrc (Regex.matched mt) >>
              setDoc (updateAt (withDsr (addDsr 0 (Z.of_nat (length (Regex.matched mt)))))
                        d node) >>
              ret (length (Regex.matched mt))
          | None => ret 0
          end in
        let out := drop offset out in
        let* newSepOut :=
          match trailingSepMatch with
          | Some mt =>
              let* d := getDoc in
              setDoc (updateAt (withDsr (addDsr 1 (- Z.of_nat (Regex.index mt)))) d node) >>
              ret (Regex.matched mt,
                   Js.substring out 0 (Z.of_nat (Regex.index mt) - Z.of_nat offset))
          | None => ret ([], out)
          end in
        let '(newSep, out) := newSepOut in
        modifyState (set_currNodeUnmodified true) >>
        trace >>
        callCB cb out node >>
        appendSepSrc newSep >>
        (* Update active template id *)
        let nodeTypeOf := default [] (getAttribute elt (lit "typeof")) in
        when (negb (isEmpty nodeTypeOf) && Regex.test Re.mwObject nodeTypeOf)
          (modifyState (set_activeTemplateId
             (match getAttribute elt (lit "about") with
              | Some (c :: about) => Some (c :: about)
              | _ => None
              end))) >>
        ret true
      else ret false
  | _ => ret false
  end.

(** The element case of [_serializeNode] up to the call of the handler:
    the trace in selser mode, the separator constraints against the
    previous element, then the selser branch; when that has not handled
    the node, the bookkeeping that precedes the handler.  The result is
    [handled]. *)
Definition beforeHandle (node : path) (cb : option CB) (domHandler : DomHandler)
  : M bool :=
  let* st := getState in
  let* d := getDoc in
  when (selserMode st) trace >>
  (* Update separator constraints *)
  match _getPrevSeparatorElement d node with
  | Some prev =>
      updateSeparatorConstraints prev (_getDOMHandler st d (Some prev))
        node domHandler
  | None => ret tt
  end >>
  let* st := getState in
  let* handled :=
    if selserMode st && negb (inModifiedContent st)
    then serializeFromSource node cb
    else ret false in
  if handled then ret true
  else
    let* st := getState in
    modifyState (set_prevNodeUnmodified (currNodeUnmodified st)) >>
    modifyState (set_currNodeUnmodified false) >>
    when (selserMode st && hasInsertedOrModifiedDiffMark d node)
      (modifyState (set_inModifiedContent true)) >>
    ret false.

(** The call of the handler inside its [try]: an exception is written to
    the console, followed by the node name and the handler, and the
    [catch] block ends there. *)
Definition invokeHandler (node : path) (cb : option CB) (name : jsstring)
    (domHandler : DomHandler) : M unit :=
  match handle domHandler with
  | Some ops =>
      (* DOM-based serialization *)
      tryCatch (runHandler node cb ops)
        (fun e => log [ErrorStack e; NodeAndHandler name])
  | None => log [NoDomHandler node]
  end.

(** Update end separator constraints *)
Definition afterHandle (node : path) (domHandler : DomHandler) : M unit :=
  let* st := getState in
  let* d := getDoc in
  match _getNextSeparatorElement d node with
  | Some next =>
      updateSeparatorConstraints node domHandler next
        (_getDOMHandler st d (Some next))
  | None => ret tt
  end.

(** [WSP._serializeNode]; [cb] defaults to [state.chunkCB]. *)
Definition _serializeNodeBody (node : path) (cb : option CB) : M path :=
  let* st := getState in
  let* d := getDoc in
  let cb := match cb with Some cb => Some cb | None => Serializer.chunkCB st end in
  match nodeAt d node with
  | Some (Element name _ _ _) =>
      (* Ignore DiffMarker metas, but clear unmodified node state *)
      if isMarkerMeta d node (lit "mw:DiffMarker") then
        modifyState (set_prevNodeUnmodified (currNodeUnmodified st)) >>
        modifyState (set_currNodeUnmodified false) >>
        ret node
      else
        let domHandler := _getDOMHandler st d (Some node) in
        let* handled := beforeHandle node cb domHandler in
        (if handled then ret tt
         else
           invokeHandler node cb name domHandler >>
           modifyState (set_inModifiedContent false)) >>
        afterHandle node domHandler >>
        ret node
  | Some (Text nodeValue) =>
      let* isSep := handleSeparatorText node in
      if isSep then ret node
      else
        (* Text is not just whitespace *)
        let* st := getState in
        match _getPrevSeparatorElement d node with
        | Some prev =>
            updateSeparatorConstraints prev (_getDOMHandler st d (Some prev))
              node (mkDomHandler None None)
        | None => ret tt
        end >>
        (* regular serialization *)
        _serializeTextNode node nodeValue cb >>
        let* st := getState in
        let* d := getDoc in
        match _getNextSeparatorElement d node with
        | Some next =>
            updateSeparatorConstraints node (mkDomHandler None None) next
              (_getDOMHandler st d (Some next))
        | None => ret tt
        end >>
        ret node
  | Some (Comment nodeValue) =>
      (* delay the newline creation until after the comment *)
      let* isSep := handleSeparatorText node in
      if isSep then ret node
      else callCB cb (commentWT nodeValue) node >> ret node
  | None => throw TypeError
  end.

End Knot.

Fixpoint _serializeNode (fuel : nat) (node : path) (cb : option CB) : M path :=
  match fuel with
  | O => outOfFuel
  | S fuel' => _serializeNodeBody (_serializeNode fuel') node cb
  end.

(** *** [serializeDOM] *)

(** [WSP.initialState], with the [rtTesting] option and the page source of
    the environment; properties that the literal does not list start out
    [undefined]. *)
Definition initialState (rtTesting : bool) (pageSrc : option jsstring)
    (sep0 : Sep) : State :=
  {| rtTesting := rtTesting; sep := sep0; onSOL := true; escapeText := false;
     atStartOfOutput := true; inIndentPre := false; inPHPBlock := false;
     inNoWiki := false; inHTMLPre := false; inWideTD := false;
     wteHandlerStack := [];
     currLine := mkCurrLine [] None false false false;
     chunkCB := None; selserMode := false; inModifiedContent := false;
     prevNode := None; prevNodeUnmodified := false;
     currNodeUnmodified := false; activeTemplateId := None;
     pageSrc := pageSrc; tplAttrs := [] |}.

(** [String.prototype.split] with a separator of one code unit. *)
Fixpoint splitOn (c : char) (s : jsstring) : list jsstring :=
  match s with
  | [] => [[]]
  | x :: s' =>
      if N.eqb x c then [] :: splitOn c s'
      else
        match splitOn c s' with
        | piece :: pieces => (x :: piece) :: pieces
        | [] => [[x]]
        end
  end.

(** [nodeName.toLowerCase() === "meta"]: the letters A to Z are lowered;
    no other character lowers to a letter of [meta]. *)
Definition lowerLetter (c : char) : char :=
  if (65 <=? c)%N && (c <=? 90)%N then (c + 32)%N else c.

Definition isMetaName (name : jsstring) : bool :=
  Js.eqb (map lowerLetter name) (lit "meta").

(** [WSP._getDOMRTInfo] *)
Definition _getDOMRTInfo (node : Node) : outcome Json :=
  match getAttribute node (lit "data-parsoid") with
  | Some v => JSON_parse (if isEmpty v then lit "{}" else v)
  | None => Ok (JObject [])
  end.

(** [value.src]: reading a property of [null] raises a [TypeError]; a
    string, number, boolean or array has no [src]. *)
Definition srcOf (value : Json) : outcome (option Json) :=
  match value with
  | JNull => Throw TypeError
  | JObject members => Ok (ownProperty (lit "src") members)
  | _ => Ok None
  end.

(** The meta case of [extractTemplatedAttributes].  A [templateId] that
    names a property inherited from [Object.prototype] finds a value
    without [kvs], [ks] or [vs], and assigning to a property of
    [undefined] raises a [TypeError]. *)
Definition recordTemplatedAttribute (node : Node) (prop : jsstring) : M unit :=
  let templateId := default [] (getAttribute node (lit "about")) in
  let* value := liftOutcome (_getDOMRTInfo node) in
  let* src := liftOutcome (srcOf value) in
  let* st := getState in
  let* entry :=
    match ownProperty templateId (tplAttrs st) with
    | Some entry => ret entry
    | None =>
        if existsb (Js.eqb templateId) Content.inherited then throw TypeError
        else
          modifyState (fun st =>
            set_tplAttrs (assign templateId (mkTplAttrs [] [] [])
                            (tplAttrs st)) st) >>
          ret (mkTplAttrs [] [] [])
    end in
  let pieces := splitOn 35%N prop in
  let attr := default (lit "undefined") (pieces !! 1) in
  let head := default [] (pieces !! 0) in
  let entry :=
    if Js.eqb head (lit "mw:objectAttr") then
      mkTplAttrs (setProperty attr src (kvs entry)) (ks entry) (vs entry)
    else if Js.eqb head (lit "mw:objectAttrKey") then
      mkTplAttrs (kvs entry) (setProperty attr src (ks entry)) (vs entry)
    else
      mkTplAttrs (kvs entry) (ks entry) (setProperty attr src (vs entry)) in
  modifyState (fun st =>
    set_tplAttrs (assign templateId entry (tplAttrs st)) st).

(** [WSP.extractTemplatedAttributes]: the sweep over the tree that fills
    [state.tplAttrs]; a text or a comment has no children. *)
Fixpoint extractTemplatedAttributes (node : Node) : M unit :=
  match node with
  | Element name _ _ cs =>
      if isMetaName name then
        match getAttribute node (lit "property") with
        | Some prop =>
            if negb (isEmpty prop) && Regex.test (Regex.str "mw:objectAttr") prop
            then recordTemplatedAttribute node prop
            else ret tt
        | None => ret tt
        end
      else
        (fix loop (cs : list Node) : M unit :=
           match cs with
           | [] => ret tt
           | child :: cs' =>
               (* Descend and recurse *)
               extractTemplatedAttributes child >> loop cs'
           end) cs
  | _ => ret tt
  end.

(** The [try] block of [serializeDOM]; [before] is the number of chunks
    emitted when [out] was created.  [chunkCB] names the sink of the
    caller when there is one, and [finalCB] is what the caller's function
    does when it is called. *)
Definition serializeDOMBody (fuel : nat) (chunkCB : option nat)
    (finalCB : option (M unit)) (selserMode : bool) (before : nat)
  : M jsstring :=
  let body : path := [] in
  modifyState (set_selserMode selserMode) >>
  (* collect tpl attr tags *)
  let* d := getDoc in
  extractTemplatedAttributes d >>
  modifyState (set_chunkCB (Some (chunkCBWrapper
    (match chunkCB with Some n => callerSink n | None => outSink end)))) >>
  set_sepField (sep_lastSourceNode (Some body)) >>
  let* d := getDoc in
  set_cl (fun cl => mkCurrLine (text cl) (firstChild d body) (processed cl)
                      (hasOpenHeadingChar cl) (hasOpenBrackets cl)) >>
  (if negb (Js.eqb (default [] (nodeName <$> nodeAt d body)) (lit "BODY"))
   then _serializeNode fuel body None >> ret tt
   else
     let* st := getState in
     serializeChildren (_serializeNode fuel) body (Serializer.chunkCB st) None) >>
  (* Handle EOF *)
  let* st := getState in
  callCB (Serializer.chunkCB st) [] body >>
  match finalCB with
  | Some f => f
  | None => ret tt
  end >>
  let* out := emittedSince before in
  ret (match chunkCB with
       | Some _ => []
       | None =>
           concat (map e_chunk (filter (fun e => e_sink e = outSink) out))
       end).

(** What the [catch] of [serializeDOM] does with an exception: two lines
    on the console, the call of [env.errCB], and the exception is thrown
    again. *)
Definition rethrow {A} (e : JsError) : M A :=
  log [SerializeDOMError e; ErrCB e] >> throw e.

(** [WSP.serializeDOM] on the document of the world, whose root is
    [body]: a new state, then the [try] block under the [catch]. *)
Definition serializeDOM (fuel : nat) (rtTesting : bool)
    (pageSrc : option jsstring) (chunkCB : option nat)
    (finalCB : option (M unit)) (selserMode : bool) : M jsstring :=
  let* sep0 := freshSep in
  modifyState (fun _ => initialState rtTesting pageSrc sep0) >>
  let* before := emittedCount in
  tryCatch (serializeDOMBody fuel chunkCB finalCB selserMode before) rethrow.

(** *** The [br] handler *)

(** [tagHandlers.br.handle] *)
Definition br_handle (node : path) (cb : option CB) : M unit :=
  let* st := getState in
  let* d := getDoc in
  match nodeAt d node with
  | Some (Element _ _ dp _) =>
      if match stx dp with Some v => Js.eqb v (lit "html") | None => false end
      then callCB cb (lit "<br>") node
      else
        (* [node.parentNode] is read when the syntax is not html *)
        match parentNode d node with
        | Some parent =>
            if negb (Js.eqb (nodeName parent) (lit "P"))
            then callCB cb (lit "<br>") node
            else
              (* Trigger separator *)
              match constraints (sep st) with
              | Some c =>
                  if match c_min c with Some mn => (mn =? 2)%Z | None => false end
                     && (length (children parent) =? 1)
                  then
                    (* p/br pair *)
                    set_sepField (sep_constraints
                      (Some (mkConstraints (c_a c) (c_b c) (Some 2%Z) (Some 2%Z)))) >>
                    callCB cb [] node
                  else callCB cb [] node
              | None => callCB cb [] node
              end
        | None => throw TypeError
        end
  | _ => throw TypeError
  end.

End Traversal.

(** *** Worlds and guards named by the statements *)

(** What [emitSep] does to the world: the separator goes to the sink,
    [state.sep] becomes a new object, and a separator with a newline puts
    the serializer at the start of a line. *)
Definition afterEmitSep (sep : jsstring) (node : path) (cb : Sink) (w : World)
  : World :=
  let w1 := mkWorld (state w) (doc w) (console w)
              (emitted w ++ [mkEmission cb sep node]) (S (allocated w)) in
  let w2 := withState (set_sep (mkSep (allocated w) None None None None)) w1 in
  if negb (isEmpty sep) && Regex.test Re.newline sep
  then withState (set_onSOL true) w2 else w2.

(** The world with [entries] written to the console. *)
Definition logged (entries : list LogEntry) (w : World) : World :=
  mkWorld (state w) (doc w) (console w ++ entries) (emitted w) (allocated w).

(** The world in which [serializeDOM] enters its [try] block: the state
    is the initial state around a new [sep] object. *)
Definition atTry (rtTesting : bool) (pageSrc : option jsstring) (w : World)
  : World :=
  mkWorld (initialState rtTesting pageSrc (mkSep (allocated w) None None None None))
    (doc w) (console w) (emitted w) (S (allocated w)).

(** The world with [s] appended to the separator source collected so
    far, [state.sep.src = (state.sep.src || '') + s]. *)
Definition withSepSrc (s : jsstring) (w : World) : World :=
  withState
    (fun st => set_sep (sep_src (Some (default [] (src (sep st)) ++ s)) (sep st)) st)
    w.

(** The line feeds a text starts with. *)
Fixpoint leadingLineFeeds (s : jsstring) : jsstring :=
  match s with
  | c :: s' => if N.eqb c 10 then c :: leadingLineFeeds s' else []
  | [] => []
  end.

(** [node.data.parsoid.stx === 'html'] *)
Definition isHtmlSyntax (dp : DataParsoid) : bool :=
  match stx dp with Some v => Js.eqb v (lit "html") | None => false end.

(** The guard of the [p/br pair] branch of the [br] handler. *)
Definition isParagraphBreakPair (st : State) (parent : Node) : bool :=
  match constraints (sep st) with
  | Some c =>
      match c_min c with Some mn => (mn =? 2)%Z | None => false end
      && (length (children parent) =? 1)
  | None => false
  end.

(** [state.sep.constraints.min = 2; state.sep.constraints.max = 2] *)
Definition forceTwoNewlines (st : State) : State :=
  set_sep (sep_constraints
    (match constraints (sep st) with
     | Some c => Some (mkConstraints (c_a c) (c_b c) (Some 2%Z) (Some 2%Z))
     | None => None
     end) (sep st)) st.

(** The world a computation leaves behind. *)
Definition worldAfter {A} (c : M A) (w : World) : World :=
  match c w with
  | Some (_, w') => w'
  | None => w
  end.

(** The number of exceptions that [_serializeNode] has caught and written
    to the console. *)
Fixpoint caughtErrors (l : list LogEntry) : nat :=
  match l with
  | [] => 0
  | ErrorStack _ :: l' => S (caughtErrors l')
  | _ :: l' => caughtErrors l'
  end.

Definition stackOf (w : World) : list WteHandler := wteHandlerStack (state w).

Definition caught (w : World) : nat := caughtErrors (console w).

(** The effect of a computation on the escape handler stack: it never
    lowers the count of caught exceptions, and when it returns without
    having caught one, the stack it leaves is [f] of the stack it found. *)
Definition Eff {A} (f : list WteHandler -> list WteHandler) (c : M A) : Prop :=
  forall w r w', c w = Some (r, w') ->
    caught w <= caught w'
    /\ (forall a, r = Ok a -> caught w' = caught w -> stackOf w' = f (stackOf w)).

(** A step that always returns, and only adds to the console. *)
Definition Returns {A} (c : M A) : Prop :=
  forall w, exists a w' more,
    c w = Some (Ok a, w') /\ console w' = console w ++ more.

End Serializer.

(** An object has distinct keys; this says so for the [params] of a
    template part. *)
Definition distinctKeys (part : Part) : bool :=
  match part with
  | TemplatePart tpl => bool_decide (NoDup (keysOf (params tpl)))
  | WtPart _ => true
  end.

(** ** Link content: [splitLinkContentString] *)

Module Links.

(** [String.prototype.substr]: a negative [start] counts from the end;
    [None] is a [length] that is [undefined]. *)
Definition substr (s : jsstring) (start : Z) (len : option Z) : jsstring :=
  let size := Z.of_nat (length s) in
  let from := if (start <? 0)%Z then Z.max (size + start) 0 else start in
  let count :=
    match len with
    | Some n => Z.min (Z.max n 0) (size - from)
    | None => (size - from)%Z
    end in
  if (count <=? 0)%Z then []
  else take (Z.to_nat count) (drop (Z.to_nat from) s).

(** The fields of [data-parsoid] that the link code reads. *)
Record LinkData := mkLinkData {
  tail : option jsstring;
  prefix : option jsstring;
  pipetrick : bool
}.

Record ContentParts := mkContentParts {
  p_contentString : jsstring;
  p_tail : jsstring;
  p_prefix : jsstring
}.

(** [splitLinkContentString]; [Util.stripSuffix] is taken as given. *)
Definition splitLinkContentString (stripSuffix : jsstring -> jsstring -> jsstring)
    (contentString : jsstring) (dp : LinkData) : ContentParts :=
  let tail := tail dp in
  let prefix := prefix dp in
  if pipetrick dp then
    (* Drop the content completely.. *)
    mkContentParts [] (default [] tail) (default [] prefix)
  else
    let '(contentString, tail) :=
      if truthy tail
         && Js.eqb (substr contentString
                      (Z.of_nat (length contentString)
                       - Z.of_nat (length (default [] tail))) None)
              (default [] tail)
      then (* strip the tail off the content *)
        (stripSuffix contentString (default [] tail), tail)
      else if truthy tail then (contentString, Some [])
      else (contentString, tail) in
    let '(contentString, prefix) :=
      if truthy prefix
         && Js.eqb (substr contentString 0
                      (Some (Z.of_nat (length (default [] prefix)))))
              (default [] prefix)
      then (substr contentString (Z.of_nat (length (default [] prefix))) None, prefix)
      else if truthy prefix then (contentString, Some [])
      else (contentString, prefix) in
    mkContentParts contentString (default [] tail) (default [] prefix).

End Links.

(** ** What a computation leaves alone

    [Keeps R c]: every run of [c] relates the world before to the world
    after by [R]. *)

Module Frame.

Import Serializer.

Definition Keeps {A} (R : World -> World -> Prop) (c : M A) : Prop :=
  forall w r w', c w = Some (r, w') -> R w w'.

(** Nothing but [currLine] differs. *)
Definition onlyCurrLine (w w' : World) : Prop :=
  w' = withState (set_currLine (currLine (state w'))) w.

(** The field [f] of the state is the same. *)
Definition sameField {X} (f : State -> X) (w w' : World) : Prop :=
  f (state w') = f (state w).

End Frame.

(** ** The shape of a separator

    [noClose body tail]: in [body] followed by [tail], no comment
    terminator starts inside [body]. *)
Definition noClose (body tail : jsstring) : Prop :=
  forall b1 b2, body ++ tail = b1 ++ lit "-->" ++ b2 -> length body <= length b1.

(** A white space character, or a comment that ends at its first
    terminator. *)
Definition sepPiece (p : jsstring) : Prop :=
  (exists c, p = [c] /\ Regex.space c = true)
  \/ (exists body, p = lit "<!--" ++ body ++ lit "-->"
        /\ forall b1 b2, body ++ lit "-->" = b1 ++ lit "-->" ++ b2 -> b2 = []).

(** ** Sample inputs

    Documents, collaborators and worlds on which the statements below are
    exercised. *)

(** A heap of annotations, and the parts of a transclusion. *)
Definition sampleHeap : Content.Heap := fun r =>
  match r with
  | 0 => Content.mkAnnotation (lit "textStyle/bold") None
  | 1 => Content.mkAnnotation (lit "link/internal")
           (Some (Content.mkData None None (Some (lit "Foo"))))
  | 2 => Content.mkAnnotation (lit "textStyle/italic") None
  | _ => Content.mkAnnotation (lit "comment") None
  end.

Definition sampleParts : list Part :=
  [ TemplatePart (mkTemplate (lit "tpl")
      [ (lit "1", lit "x"); (lit "3", lit "z"); (lit "a", lit "1") ]);
    WtPart (lit " and ");
    TemplatePart (mkTemplate (lit "t") []) ].

Definition markerDoc : Node :=
  Element (lit "BODY") [] (mkDataParsoid [] None)
    [ Element (lit "META") [(lit "typeof", lit "mw:StartTag")]
        (mkDataParsoid [] None) [];
      Text (lit "x") ].

Module Sample.

Import Serializer.

Definition elt (name : string) (cs : list Node) : Node :=
  Element (lit name) [] (mkDataParsoid [] None) cs.

Definition eltAt (name : string) (dsr : list Z) (cs : list Node) : Node :=
  Element (lit name) [] (mkDataParsoid (map DNum dsr) None) cs.

(** A template root whose [data-mw] is not JSON. *)
Definition brokenTemplate : Node :=
  Element (lit "SPAN")
    [(lit "typeof", lit "mw:Object/Template"); (lit "data-mw", lit "{")]
    (mkDataParsoid [] None) [].

(** The handlers of the table that the samples use, as the steps they
    perform outside round-trip testing: [body] and [p] serialize their
    children, [i] wraps them in quotes under the quote escape handler,
    and the template handler of a node whose [data-mw] is not JSON sets
    [activeTemplateId] and ends in the exception of [JSON.parse]. *)
Definition handlerOf (st : State) (d : Node) (p : option path) : DomHandler :=
  match p with
  | Some p =>
      match nodeAt d p with
      | Some (Element name _ _ _ as node) =>
          if Js.eqb name (lit "I") then
            mkDomHandler
              (Some [ OpEmit (lit "''");
                      OpSerializeChildren (Some quoteHandler);
                      OpEmit (lit "''") ]) None
          else if Regex.test Re.mwObject
                    (default [] (getAttribute node (lit "typeof")))
                  && bool_decide (getAttribute node (lit "data-mw") = Some (lit "{"))
          then
            mkDomHandler
              (Some [ OpAssign (set_activeTemplateId
                                  (match getAttribute node (lit "about") with
                                   | Some (c :: about) => Some (c :: about)
                                   | _ => None
                                   end));
                      OpThrow SyntaxError ]) None
          else mkDomHandler (Some [OpSerializeChildren None]) None
      | _ => mkDomHandler None None
      end
  | None => mkDomHandler None None
  end.

(** [JSON.parse] on the texts of the samples: the empty object, and
    texts that are not JSON. *)
Definition parseSample (text : jsstring) : outcome Json :=
  if Js.eqb text (lit "{}") then Ok (JObject []) else Throw SyntaxError.

(** Collaborators for the samples: a tokenizer that finds no tokens, no
    diff marks, and no separator from DSR (the sample runs that reach
    [emitSeparator] have no page source). *)
#[export] Instance externals : Externals := {
  hasWikitextTokens := fun _ _ _ _ => false;
  firstNonSepChildNode := fun d p =>
    Ok (match p with Some p => firstChild d p | None => None end);
  previousNonSepSibling := fun _ _ => None;
  nextNonSepSibling := fun d p => nextSiblingPath d p;
  isBlockNode := fun _ _ => false;
  isMarkerMeta := fun _ _ _ => false;
  hasCurrentDiffMark := fun _ _ => false;
  hasInsertedOrModifiedDiffMark := fun _ _ => false;
  isIndentPre := fun _ _ => false;
  escapeEntities := fun s => s;
  separatorFromDSR := fun _ _ _ => Ok None;
  JSON_parse := parseSample;
  _getDOMHandler := handlerOf
}.

(** A world in the initial state around a document. *)
Definition world (d : Node) : World :=
  mkWorld (initialState false None (mkSep 0 None None None None)) d [] [] 1.

(** [<body><p>a<i>b{{x}}</i>c</p></body>] *)
Definition quoted : Node :=
  elt "BODY" [elt "P" [Text (lit "a"); elt "I" [Text (lit "b{{x}}")];
                       Text (lit "c")]].

(** The same with a carriage return at the end of the text in [i]. *)
Definition quotedCR : Node :=
  elt "BODY" [elt "P" [Text (lit "a"); elt "I" [Text (lit "{{x}}" ++ [13%N])];
                       Text (lit "c")]].

(** [<body><p>a<span typeof="mw:Object/Template" data-mw="{"></span>c</p></body>] *)
Definition badTemplate : Node :=
  elt "BODY" [elt "P" [Text (lit "a"); brokenTemplate; Text (lit "c")]].

(** [<body><p>a<br>b</p></body>] *)
Definition lineBreak : Node :=
  elt "BODY" [elt "P" [Text (lit "a"); elt "BR" []; Text (lit "b")]].

(** Two unmodified siblings of the source [*a\n*b], with the position
    reached after the first was emitted from source. *)
Definition listSrc : jsstring := lit "*a" ++ [10%N] ++ lit "*b".

Definition listDoc : Node :=
  elt "BODY" [eltAt "UL" [0; 2]%Z []; eltAt "UL" [3; 5]%Z []].

Definition withFlags (st : State) : State :=
  set_prevNode (Some [0])
    (set_prevNodeUnmodified true (set_currNodeUnmodified true
       (set_selserMode true st))).

Definition listWorld : World :=
  mkWorld (withFlags (initialState false (Some listSrc) (mkSep 0 None None None None)))
    listDoc [] [] 1.

(** A text that contains braces and ends in a carriage return. *)
Definition crText : jsstring := lit "{{x}}" ++ [13%N].

(** [<body>{{x}}\r</body>]: the text is a child of the body itself. *)
Definition bareText : Node := elt "BODY" [Text crText].

(** [<body><meta property="mw:objectAttrKey#href" about="#mwt1"
    data-parsoid="{}">x</body>], and the same with a [data-parsoid] that
    is not JSON. *)
Definition attrMeta (dataParsoid : string) : Node :=
  elt "BODY"
    [ Element (lit "META")
        [ (lit "property", lit "mw:objectAttrKey#href");
          (lit "about", lit "#mwt1");
          (lit "data-parsoid", lit dataParsoid) ]
        (mkDataParsoid [] None) [];
      Text (lit "x") ].

(** A line that the text [=x] has opened, in the paragraph of
    [quoted]: the [=] at its start comes from the first text of the
    paragraph. *)
Definition headingLine : World :=
  withState (set_currLine (mkCurrLine (lit "=x") (Some [0; 0]) false false false))
    (world quoted).

(** The world in which [_serializeNode] reaches the template of
    [badTemplate]. *)
Definition templateWorld : World :=
  withState (set_chunkCB (Some (chunkCBWrapper outSink))) (world badTemplate).

(** The world in which the handler of that template is called. *)
Definition templateReady : World :=
  worldAfter
    (beforeHandle [0; 1] (Some (chunkCBWrapper outSink))
       (_getDOMHandler (state templateWorld) (doc templateWorld) (Some [0; 1])))
    templateWorld.

(** The world in which the [br] of [lineBreak] is handled: the constraints
    that [updateSeparatorConstraints] has left pending between the text
    and the [br], [{a: {}, b: {}, max: 2}]. *)
Definition brWorld : World :=
  withState
    (fun st =>
       set_chunkCB (Some (chunkCBWrapper outSink))
         (set_sep (mkSep 0
            (Some (mkConstraints (Some (mkBounds None None))
                     (Some (mkBounds None None)) None (Some 2%Z)))
            None (Some [0; 0]) None) st))
    (world lineBreak).

End Sample.

(** The characters [ab<c d], with bold on [b<], italic on [<c], a comment
    on [c] and a link on [d]. *)
Definition sampleContent : list View.Item :=
  [ View.Plain (lit "a");
    View.Formatted (lit "b") [0];
    View.Formatted (lit "<") [0; 2];
    View.Formatted (lit "c") [2; 3];
    View.Plain (lit " ");
    View.Formatted (lit "d") [1] ].

(** [<body><p>\n\na</p></body>] *)
Definition newlinesDoc : Node :=
  Sample.elt "BODY" [Sample.elt "P" [Text ([10; 10]%N ++ lit "a")]].

(** A [Util.stripSuffix] for the samples: it cuts off as many code units
    as the suffix has. *)
Definition sampleStripSuffix (text suffix : jsstring) : jsstring :=
  take (length text - length suffix) text.

(** * Theorems *)

(** ** JavaScript strings *)

Lemma eqb_spec (s t : jsstring) : Js.eqb s t = true <-> s = t.
Proof.
  revert t; induction s as [|c s IH]; intros [|d t]; simpl; try easy.
  rewrite andb_true_iff, N.eqb_eq, IH. split.
  - intros [-> ->]; reflexivity.
  - intros [= -> ->]; auto.
Qed.

Lemma eqb_refl (s : jsstring) : Js.eqb s s = true.
Proof. apply eqb_spec; reflexivity. Qed.

Lemma eqb_neq (s t : jsstring) : Js.eqb s t = false <-> s <> t.
Proof.
  rewrite <- eqb_spec. destruct (Js.eqb s t); split; congruence.
Qed.

Lemma join_empty_sep (parts : list jsstring) : Js.join [] parts = concat parts.
Proof.
  induction parts as [|p [|q parts] IH]; simpl in *.
  - reflexivity.
  - now rewrite app_nil_r.
  - now rewrite IH.
Qed.

(** ** Comments *)

(** C8 (the code departs from the claim): [commentWT] escapes only the
    first [-->] of a comment body, because its pattern has no [g] flag.
    For the body [a-->b-->c] the emitted comment is
    [<!--a--&gt;b-->c-->]: the second [-->] of the body is left as it is
    and ends the comment early. *)
Theorem commentWT_escapes_first_terminator_only :
  commentWT (lit "a-->b-->c") = lit "<!--a--&gt;b-->c-->".
Proof. vm_compute. reflexivity. Qed.

(** What [commentWT] computes in general: the body is cut at the first
    match of [-->], if there is one, and only that match is rewritten. *)
Lemma commentWT_unfold (comment : jsstring) :
  commentWT comment =
    lit "<!--"
      ++ match Regex.exec (Regex.str "-->") comment with
         | Some mt =>
             take (Regex.index mt) comment ++ lit "--&gt;"
               ++ drop (Regex.index mt + length (Regex.matched mt)) comment
         | None => comment
         end
      ++ lit "-->".
Proof.
  unfold commentWT, Regex.replace.
  destruct (Regex.exec _ comment); [|reflexivity].
  unfold Regex.expand. simpl concat. rewrite ?app_nil_r. reflexivity.
Qed.

Lemma lit_terminator : lit "-->" = [45; 45; 62]%N.
Proof. reflexivity. Qed.

Lemma str_terminator :
  Regex.str "-->"
  = Regex.Seq (Regex.Chr (fun c => N.eqb c 45))
      (Regex.Seq (Regex.Chr (fun c => N.eqb c 45))
         (Regex.Seq (Regex.Chr (fun c => N.eqb c 62)) Regex.Empty)).
Proof. reflexivity. Qed.

(** The scan for [-->] stops at its first occurrence: behind a prefix
    without [>] (code unit 62) that is the end of the prefix. *)
Lemma scan_first_terminator (before pre post : jsstring) :
  Forall (fun c => c <> 62%N) pre ->
  Regex.scan (Regex.str "-->") before (pre ++ lit "-->" ++ post)
  = Some (Regex.Result (length before + length pre) (lit "-->") []).
Proof.
  rewrite lit_terminator, str_terminator.
  revert before. induction pre as [|c pre IH]; intros before Hpre.
  - simpl. rewrite Nat.add_0_r. unfold Regex.matchAt. simpl.
    replace (S (S (S (length post))) - length post) with 3 by lia.
    reflexivity.
  - apply Forall_cons in Hpre as [Hc Hpre].
    cbn [app Regex.scan]. rewrite IH by exact Hpre.
    replace (Regex.matchAt _ before (c :: pre ++ [45; 45; 62]%N ++ post))
      with (@None Regex.result).
    { simpl. do 3 f_equal. lia. }
    unfold Regex.matchAt. simpl.
    destruct (N.eqb c 45); [|reflexivity].
    destruct pre as [|x [|y pre]]; simpl.
    + reflexivity.
    + destruct (N.eqb x 45); reflexivity.
    + destruct (N.eqb x 45); [|reflexivity].
      apply Forall_cons in Hpre as [_ Hpre].
      apply Forall_cons in Hpre as [Hy _].
      apply N.eqb_neq in Hy. rewrite Hy. reflexivity.
Qed.

(** Whatever follows the first [-->] of a comment body is emitted as it
    is, further occurrences of [-->] included. *)
Lemma commentWT_first_terminator (pre post : jsstring) :
  Forall (fun c => c <> 62%N) pre ->
  commentWT (pre ++ lit "-->" ++ post)
  = lit "<!--" ++ pre ++ lit "--&gt;" ++ post ++ lit "-->".
Proof.
  intros Hpre. rewrite commentWT_unfold. unfold Regex.exec.
  rewrite scan_first_terminator by exact Hpre.
  cbn [Regex.index Regex.matched length Nat.add].
  rewrite take_app_length, drop_app_add' by reflexivity.
  rewrite lit_terminator at 1. cbn [length drop app].
  now rewrite <- !app_assoc.
Qed.

(** ** Marker metas *)

(** C7, as stated, fails: with [editMode] false the marker meta
    [<meta typeof="mw:StartTag">], which has no [property], is deleted and
    [stripMarkerMetas] returns its next sibling instead of [true]. *)
Lemma stripMarkerMetas_deletes_marker_without_editMode :
  stripMarkerMetas false markerDoc [0]
  = Js.Ok (Element (lit "BODY") [] (mkDataParsoid [] None) [Text (lit "x")],
           Resume (Some (Text (lit "x")))).
Proof. vm_compute. reflexivity. Qed.

(** C7 (amended): stripping a marker meta does not depend on [editMode].
    In either mode an element whose [typeof] matches the marker pattern
    and that has no [property] is deleted, and its next sibling is
    returned; [editMode] only gates the removal of a
    [mw:Placeholder/StrippedTag] element, so that with [editMode] false
    every element that is not such a marker stays in the DOM and [true] is
    returned. *)
Theorem stripMarkerMetas_spec (editMode : bool) (doc : Node) (p : path)
    (name : jsstring) (attrs : list (jsstring * jsstring)) (dp : DataParsoid)
    (cs : list Node) :
  let node := Element name attrs dp cs in
  nodeAt doc p = Some node ->
  (isMarkerWithoutProperty node = true ->
   stripMarkerMetas editMode doc p
   = Js.Ok (deleteNode doc p, Resume (nextSibling doc p)))
  /\ (isMarkerWithoutProperty node = false -> editMode = false ->
      stripMarkerMetas editMode doc p = Js.Ok (doc, Continue))
  /\ (isMarkerWithoutProperty node = false -> editMode = true ->
      stripMarkerMetas editMode doc p =
        if isStrippedTagPlaceholder node
        then Js.Ok (deleteNode doc p, Resume (nextSibling doc p))
        else Js.Ok (doc, Continue)).
Proof.
  intros node Hnode. unfold stripMarkerMetas, stripCondition. rewrite Hnode.
  fold node. repeat split.
  - intros ->. reflexivity.
  - intros -> ->. reflexivity.
  - intros -> ->. simpl. destruct (isStrippedTagPlaceholder node); reflexivity.
Qed.

Lemma stripMarkerMetas_spec_witness :
  nodeAt markerDoc [0]
  = Some (Element (lit "META") [(lit "typeof", lit "mw:StartTag")]
            (mkDataParsoid [] None) [])
  /\ stripMarkerMetas false markerDoc [0]
     = Js.Ok (deleteNode markerDoc [0], Resume (nextSibling markerDoc [0])).
Proof.
  split; [reflexivity|].
  apply (stripMarkerMetas_spec false markerDoc [0] _ _ _ _ eq_refl).
  vm_compute. reflexivity.
Defined.

(** ** Merging separator constraints *)

(** Without a conflict the merge is the intersection of the two ranges. *)
Lemma mergeConstraints_compatible (old new : Constraints) :
  (Z.max (orZero (c_min old)) (orZero (c_min new))
   <= Z.min (orTwo (c_max old)) (orTwo (c_max new)))%Z ->
  mergeConstraints old new
  = (mkConstraints (c_a old) (c_b new)
       (Some (Z.max (orZero (c_min old)) (orZero (c_min new))))
       (Some (Z.min (orTwo (c_max old)) (orTwo (c_max new)))), []).
Proof.
  intros H. unfold mergeConstraints.
  destruct (Z.ltb_spec (Z.min (orTwo (c_max old)) (orTwo (c_max new)))
              (Z.max (orZero (c_min old)) (orZero (c_min new)))); [lia|reflexivity].
Qed.

(** On a conflict the result is a single value, [max = min], and it is
    logged: the assignment [res.max = newConstraints.max] is always
    overwritten by the [res.max = res.min] that follows it. *)
Lemma mergeConstraints_conflict (old new : Constraints) :
  (Z.min (orTwo (c_max old)) (orTwo (c_max new))
   < Z.max (orZero (c_min old)) (orZero (c_min new)))%Z ->
  exists v,
    mergeConstraints old new
    = (mkConstraints (c_a old) (c_b new) (Some v) (Some v),
       [IncompatibleConstraintsMerge
          (mkConstraints (c_a old) (c_b new) (Some v) (Some v)) old new]).
Proof.
  intros H. unfold mergeConstraints.
  destruct (Z.ltb_spec (Z.min (orTwo (c_max old)) (orTwo (c_max new)))
              (Z.max (orZero (c_min old)) (orZero (c_min new)))); [|lia].
  eexists; reflexivity.
Qed.

(** C4 (the code departs from the claim): merging the pending constraints
    [{min: 2, max: 2}] with the newer [{max: 0}] is a conflict, and the
    result is [{min: 2, max: 2}]: the older constraint wins and the
    newer [max] is dropped, against the claim and against the comment
    above the function. *)
Theorem mergeConstraints_newer_max_is_dropped :
  let old := mkConstraints None None (Some 2%Z) (Some 2%Z) in
  let new := mkConstraints None None None (Some 0%Z) in
  mergeConstraints old new
  = (mkConstraints None None (Some 2%Z) (Some 2%Z),
     [IncompatibleConstraintsMerge
        (mkConstraints None None (Some 2%Z) (Some 2%Z)) old new]).
Proof. vm_compute. reflexivity. Qed.

(** Where the override branch is taken, its effect is lost as well:
    against the pending [{min: 0, max: 0}] the newer [{min: 1, max: 2}]
    has its [max] assigned to the result and overwritten at once, and the
    result is [{min: 1, max: 1}]. *)
Example mergeConstraints_override_is_overwritten :
  fst (mergeConstraints (mkConstraints None None (Some 0%Z) (Some 0%Z))
         (mkConstraints None None (Some 1%Z) (Some 2%Z)))
  = mkConstraints None None (Some 1%Z) (Some 1%Z).
Proof. vm_compute. reflexivity. Qed.

(** ** Template reconstruction *)

Lemma lookupAttr_distinct (pre suf : list (jsstring * jsstring)) k v :
  NoDup (map fst (pre ++ (k, v) :: suf)) ->
  lookupAttr k (pre ++ (k, v) :: suf) = Some v.
Proof.
  induction pre as [|[k' v'] pre IH]; simpl; intros Hnd.
  - now rewrite eqb_refl.
  - apply NoDup_cons in Hnd as [Hnotin Hnd].
    destruct (Js.eqb k' k) eqn:E.
    + apply eqb_spec in E. subst k'. exfalso. apply Hnotin.
      rewrite map_app. simpl. apply elem_of_app. right. apply elem_of_cons. now left.
    + auto.
Qed.

Lemma argLoop_spec (tpl : Template) (suf pre : list (jsstring * jsstring))
    (acc : list jsstring) :
  params tpl = pre ++ suf ->
  NoDup (keysOf (params tpl)) ->
  argLoop tpl (keysOf (params tpl)) (length suf) (length pre) acc
  = acc ++ imap (fun j kv => specArg (length pre + j + 1) kv) suf.
Proof.
  revert pre acc. induction suf as [|[k v] suf IH]; intros pre acc Hp Hnd.
  - simpl. now rewrite app_nil_r.
  - simpl argLoop.
    assert (Hk : keysOf (params tpl) !! length pre = Some k).
    { rewrite Hp. unfold keysOf. rewrite map_app. simpl.
      replace (length pre) with (length (map fst pre)) by apply length_map.
      apply list_lookup_middle. reflexivity. }
    rewrite Hk.
    assert (Hv : getProp (params tpl) k = Some v).
    { unfold getProp. rewrite Hp. apply lookupAttr_distinct. rewrite <- Hp. exact Hnd. }
    rewrite Hv. simpl default. unfold escapeTplArgWT.
    specialize (IH (pre ++ [(k, v)])).
    rewrite length_app in IH. simpl in IH.
    replace (length pre + 1) with (S (length pre)) in * by lia.
    rewrite IH; [| rewrite <- app_assoc; exact Hp | exact Hnd].
    rewrite imap_cons. unfold specArg at 2. simpl fst. simpl snd.
    replace (length pre + 0 + 1) with (S (length pre)) by lia.
    destruct (Js.eqb k (Js.toString (S (length pre)))); rewrite <- app_assoc; simpl;
      f_equal; f_equal; apply imap_ext; intros; simpl; f_equal; lia.
Qed.

Lemma length_keysOf (o : list (jsstring * jsstring)) :
  length (keysOf o) = length o.
Proof. apply length_map. Qed.

Lemma pushPart_spec (buf : list jsstring) (part : Part) :
  distinctKeys part = true ->
  concat (pushPart buf part) = concat buf ++ specPart part.
Proof.
  destruct part as [tpl|s]; cbn [pushPart specPart distinctKeys]; intros Hd.
  - apply bool_decide_eq_true in Hd.
    pose proof (argLoop_spec tpl (params tpl) [] [] eq_refl Hd) as Hloop.
    cbn [length app] in Hloop.
    cbv zeta. rewrite length_keysOf, Hloop. unfold specTemplate.
    destruct (params tpl) as [|kv ps].
    + cbn. rewrite !concat_app. cbn. rewrite !app_nil_r, <- !app_assoc. reflexivity.
    + change (0 <? length (kv :: ps)) with true. cbv iota.
      rewrite !concat_app. cbn [concat]. rewrite !app_nil_r, <- !app_assoc.
      repeat f_equal.
  - rewrite concat_app. cbn. now rewrite app_nil_r.
Qed.

Lemma fold_pushPart_spec (srcParts : list Part) (buf : list jsstring) :
  forallb distinctKeys srcParts = true ->
  concat (fold_left pushPart srcParts buf)
  = concat buf ++ concat (map specPart srcParts).
Proof.
  revert buf. induction srcParts as [|part parts IH]; simpl; intros buf Hd.
  - now rewrite app_nil_r.
  - apply andb_true_iff in Hd as [Hp Hps].
    rewrite IH by exact Hps. rewrite pushPart_spec by exact Hp.
    now rewrite <- app_assoc.
Qed.

(** C9: [_buildTemplateWT] emits, for each template part,
    [{{target}}] when it has no parameters and otherwise
    [{{target|arg|...|arg}}], where the argument of a parameter is its
    value when its key is the decimal form of its 1-based position in the
    key sequence and [key=value] otherwise; a part that is not a template
    is emitted as it is. *)
Theorem buildTemplateWT_spec (srcParts : list Part) :
  forallb distinctKeys srcParts = true ->
  _buildTemplateWT srcParts = specTemplateWT srcParts.
Proof.
  intros Hd. unfold _buildTemplateWT, specTemplateWT.
  rewrite join_empty_sep, fold_pushPart_spec by exact Hd. reflexivity.
Qed.

Lemma buildTemplateWT_spec_witness :
  forallb distinctKeys sampleParts = true
  /\ _buildTemplateWT sampleParts = lit "{{tpl|x|3=z|a=1}} and {{t}}".
Proof.
  split; [vm_compute; reflexivity|].
  rewrite (buildTemplateWT_spec sampleParts); vm_compute; reflexivity.
Defined.

(** ** Annotation rendering *)

Section Annotations.

Import Content.

Lemma inArray_None (x : ref) (l : list ref) : inArray x l = None <-> x ∉ l.
Proof.
  induction l as [|y l IH]; simpl.
  - split; [intros _ H; inversion H | reflexivity].
  - destruct (Nat.eqb_spec y x) as [->|Hne].
    + split; [discriminate|]. intros H. exfalso. apply H. left.
    + rewrite not_elem_of_cons. destruct (inArray x l); simpl.
      * split; [discriminate|]. intros [_ H]. apply IH in H. discriminate.
      * split; [|reflexivity]. intros _. split; [congruence|]. now apply IH.
Qed.

Lemma inArray_Some (x : ref) (l : list ref) (d : nat) :
  inArray x l = Some d -> l = take d l ++ x :: drop (S d) l.
Proof.
  revert d; induction l as [|y l IH]; simpl; intros d; [discriminate|].
  destruct (Nat.eqb_spec y x) as [->|Hne].
  - intros [= <-]. simpl. now rewrite drop_0.
  - destruct (inArray x l) as [d'|]; simpl; [|discriminate].
    intros [= <-]. simpl. f_equal. now apply IH.
Qed.

Lemma ownRenderer_elem (t : jsstring) (table : list (jsstring * Renderer))
    (r : Renderer) :
  ownRenderer t table = Some r -> exists k, (k, r) ∈ table.
Proof.
  induction table as [|[k r'] table IH]; simpl; [discriminate|].
  destruct (Js.eqb k t).
  - intros [= ->]. exists k. left.
  - intros H. destruct (IH H) as [k' Hk']. exists k'. now right.
Qed.

Lemma close_is_a_string :
  Forall (fun kr => close (snd kr) = Str (lit "</span>")) annotationRenderers.
Proof. repeat constructor. Qed.

Lemma close_always_renders (a : Annotation) :
  inRenderers (type a) = true -> exists s, renderSide close a = Ok s.
Proof.
  unfold inRenderers, renderSide.
  destruct (ownRenderer (type a) annotationRenderers) as [r|] eqn:Hr.
  - intros _. apply ownRenderer_elem in Hr as [k Hk].
    pose proof (proj1 (Forall_forall _ _) close_is_a_string _ Hk) as Hclose.
    simpl in Hclose. rewrite Hclose. eauto.
  - intros ->. eauto.
Qed.

Lemma renderAll_ok (pick : Renderer -> side) (heap : Heap) (rs : list ref)
    (out : jsstring) :
  Forall (fun r => exists s, renderSide pick (heap r) = Ok s) rs ->
  renderAll pick heap rs out
  = Ok (out ++ concat (map (fun r => rendered pick (heap r)) rs)).
Proof.
  revert out; induction rs as [|r rs IH]; intros out Hall; simpl.
  - now rewrite app_nil_r.
  - apply Forall_cons in Hall as [[s Hs] Hall].
    unfold rendered at 1. rewrite Hs. rewrite IH by exact Hall.
    now rewrite <- app_assoc.
Qed.

Lemma renderable_sides (a : Annotation) :
  renderable a = true ->
  (exists s, renderSide open a = Ok s) /\ (exists s, renderSide close a = Ok s).
Proof.
  unfold renderable.
  destruct (renderSide open a), (renderSide close a); try discriminate; eauto.
Qed.

Lemma inArray_first (x : ref) (l : list ref) (d : nat) :
  inArray x l = Some d -> x ∉ take d l.
Proof.
  revert d; induction l as [|y l IH]; simpl; intros d; [discriminate|].
  destruct (Nat.eqb_spec y x) as [->|Hne].
  - intros [= <-]. simpl. intros H; inversion H.
  - destruct (inArray x l) as [d'|]; simpl; [|discriminate].
    intros [= <-]. simpl. rewrite not_elem_of_cons. split; [congruence|].
    now apply IH.
Qed.

(** C10, as stated, fails: the annotation of reference 0 has the type
    [textStyle/bold], which is in the table, and the stack [0; 3]
    contains it; but the annotation above it has a type that is not in
    the table, so closing it raises a [TypeError] and the stack stays as
    it was. *)
Lemma renderAnnotation_close_unknown_type_above :
  inRenderers (type (sampleHeap 0)) = true
  /\ 0 ∈ [0; 3]
  /\ renderAnnotation sampleHeap BiasClose 0 [0; 3] = (Throw TypeError, [0; 3]).
Proof.
  split; [reflexivity|]. split; [left|]. vm_compute. reflexivity.
Qed.

(** C10 (amended): for an annotation whose type is in
    [annotationRenderers] and a stack of open annotations, each of which
    can be rendered, closing the annotation removes one occurrence of it
    (the top of the stack when it is there, the lowest occurrence
    otherwise) and keeps the other entries in their order; the returned
    HTML closes the annotations above it from the top down, closes it, and
    re-opens those annotations.  If the stack does not contain the
    annotation the call throws the invalid stack error. *)
Theorem renderAnnotation_close (heap : Heap) (annotation : ref)
    (stack : list ref) :
  inRenderers (type (heap annotation)) = true ->
  Forall (fun r => renderable (heap r) = true) stack ->
  (annotation ∈ stack ->
   exists below above,
     stack = below ++ annotation :: above
     /\ (above = [] \/ annotation ∉ below)
     /\ renderAnnotation heap BiasClose annotation stack
        = (Ok (concat (map (fun r => rendered close (heap r)) (rev above))
               ++ rendered close (heap annotation)
               ++ concat (map (fun r => rendered open (heap r)) above)),
           below ++ above))
  /\ (annotation ∉ stack ->
      renderAnnotation heap BiasClose annotation stack
      = (Throw (Thrown
           (lit "Invalid stack error. An element is missing from the stack.")),
         stack)).
Proof.
  intros Hin Hall. unfold renderAnnotation. rewrite Hin.
  destruct (close_always_renders _ Hin) as [s Hs].
  split.
  - intros Hmem.
    destruct (last stack) as [top|] eqn:Hlast.
    + destruct (Nat.eqb_spec top annotation) as [->|Hne].
      * apply last_Some in Hlast as [below ->].
        exists below, []. split; [reflexivity|]. split; [now left|].
        rewrite removelast_last, Hs. unfold rendered. rewrite Hs.
        simpl. now rewrite !app_nil_r.
      * destruct (inArray annotation stack) as [depth|] eqn:Hd.
        2:{ apply inArray_None in Hd. contradiction. }
        pose proof (inArray_Some _ _ _ Hd) as Hsplit.
        exists (take depth stack), (drop (S depth) stack).
        split; [exact Hsplit|].
        split; [right; now apply inArray_first|].
        assert (Habove : Forall (fun r => renderable (heap r) = true)
                           (drop (S depth) stack)).
        { rewrite Hsplit in Hall. apply Forall_app in Hall as [_ Hall].
          now apply Forall_cons in Hall as [_ Hall]. }
        replace (depth + 1) with (S depth) by lia.
        rewrite (renderAll_ok close).
        2:{ apply Forall_rev. eapply Forall_impl; [exact Habove|].
            intros r Hr. now apply renderable_sides in Hr as [_ ?]. }
        rewrite Hs.
        rewrite (renderAll_ok open).
        2:{ eapply Forall_impl; [exact Habove|].
            intros r Hr. now apply renderable_sides in Hr as [? _]. }
        rewrite delete_take_drop. unfold rendered at 4. rewrite Hs.
        simpl. now rewrite <- !app_assoc.
    + apply last_None in Hlast. subst stack. inversion Hmem.
  - intros Hnot.
    destruct (last stack) as [top|] eqn:Hlast.
    + destruct (Nat.eqb_spec top annotation) as [->|Hne].
      * exfalso. apply Hnot. apply last_Some in Hlast as [below ->].
        apply elem_of_app. right. left.
      * apply inArray_None in Hnot. now rewrite Hnot.
    + apply inArray_None in Hnot. now rewrite Hnot.
Qed.

Lemma renderAnnotation_close_witness :
  inRenderers (type (sampleHeap 0)) = true
  /\ Forall (fun r => renderable (sampleHeap r) = true) [0; 1; 2]
  /\ exists below above,
       [0; 1; 2] = below ++ 0 :: above
       /\ (above = [] \/ 0 ∉ below)
       /\ renderAnnotation sampleHeap BiasClose 0 [0; 1; 2]
          = (Ok (concat (map (fun r => rendered close (sampleHeap r)) (rev above))
                 ++ rendered close (sampleHeap 0)
                 ++ concat (map (fun r => rendered open (sampleHeap r)) above)),
             below ++ above).
Proof.
  assert (H : Forall (fun r => renderable (sampleHeap r) = true) [0; 1; 2])
    by (repeat constructor).
  split; [reflexivity|]. split; [exact H|].
  apply (proj1 (renderAnnotation_close sampleHeap 0 [0; 1; 2] eq_refl H)).
  left.
Defined.

(** The hypothesis on the stack is the invariant of stacks built by
    [renderAnnotation] itself: an [open] that returns pushes a renderable
    annotation, and a [close] only removes entries. *)
Lemma renderAnnotation_open_keeps_renderable (heap : Heap) (annotation : ref)
    (stack stack' : list ref) (out : jsstring) :
  Forall (fun r => renderable (heap r) = true) stack ->
  renderAnnotation heap BiasOpen annotation stack = (Ok out, stack') ->
  Forall (fun r => renderable (heap r) = true) stack'.
Proof.
  intros Hall. unfold renderAnnotation.
  destruct (inRenderers (type (heap annotation))) eqn:Hin.
  - destruct (renderSide open (heap annotation)) as [s|e] eqn:Hopen;
      intros [= _ <-].
    apply Forall_app. split; [exact Hall|]. constructor; [|constructor].
    unfold renderable. rewrite Hopen.
    destruct (close_always_renders _ Hin) as [c ->]. reflexivity.
  - intros [= _ <-]. exact Hall.
Qed.

End Annotations.

(** ** The escape oracle *)

Section Escape.

Import Serializer.

Context {ext : Externals}.

Lemma runWte_throws (h : WteHandler) (d : Node) (st : State) (text : jsstring)
    (opts : option Opts) (e : JsError) :
  runWte h d st text opts = Throw e -> e = TypeError.
Proof.
  destruct h, opts as [o|]; simpl; repeat case_match; congruence.
Qed.

Lemma braces_unfold :
  Re.braces
  = Regex.Alt (Regex.Seq (Regex.Chr (fun c => N.eqb c 123))
                (Regex.Seq (Regex.Chr (fun c => N.eqb c 123))
                   (Regex.Seq (Regex.Chr (fun c => N.eqb c 123)) Regex.Empty)))
     (Regex.Alt (Regex.Seq (Regex.Chr (fun c => N.eqb c 123))
                   (Regex.Seq (Regex.Chr (fun c => N.eqb c 123)) Regex.Empty))
     (Regex.Alt (Regex.Seq (Regex.Chr (fun c => N.eqb c 125))
                   (Regex.Seq (Regex.Chr (fun c => N.eqb c 125))
                      (Regex.Seq (Regex.Chr (fun c => N.eqb c 125)) Regex.Empty)))
                (Regex.Seq (Regex.Chr (fun c => N.eqb c 125))
                   (Regex.Seq (Regex.Chr (fun c => N.eqb c 125)) Regex.Empty)))).
Proof. reflexivity. Qed.

(** A text in which the brace pattern matches holds a brace, and a text
    that holds a brace does not pass the quick check at the head of
    [escapeWikiText]. *)
Lemma scan_braces_has_brace (before after : jsstring) :
  Regex.scan Re.braces before after <> None ->
  existsb isBrace after = true.
Proof.
  rewrite braces_unfold.
  revert before. induction after as [|a after IH]; intros before.
  - simpl. unfold Regex.matchAt. simpl. congruence.
  - cbn [Regex.scan existsb]. unfold isBrace at 1.
    destruct (N.eqb a 123) eqn:E1; [reflexivity|].
    destruct (N.eqb a 125) eqn:E2; [reflexivity|].
    unfold Regex.matchAt. simpl. rewrite E1, E2. simpl.
    apply IH.
Qed.

Lemma scan_special_of_brace (before after : jsstring) :
  existsb isBrace after = true ->
  Regex.scan Re.special before after <> None.
Proof.
  revert before. induction after as [|a after IH]; intros before; [discriminate|].
  cbn [existsb Regex.scan].
  destruct (Regex.matchAt Re.special before (a :: after)) eqn:Hm; [congruence|].
  destruct (isBrace a) eqn:Ha.
  - exfalso. revert Hm. unfold Regex.matchAt, Re.special.
    cbn [Regex.m Regex.ahead].
    assert (Regex.oneOf "<>[]-+|'!=#*:;~{}" a = true) as ->.
    { unfold isBrace in Ha. apply orb_true_iff in Ha as [Ha|Ha];
        apply N.eqb_eq in Ha; subst a; reflexivity. }
    destruct (Regex.m _ _ _); discriminate.
  - simpl. apply IH.
Qed.

Lemma test_special_of_braces (text : jsstring) :
  Regex.test Re.braces text = true -> Regex.test Re.special text = true.
Proof.
  unfold Regex.test, Regex.exec. intros H.
  pose proof (scan_special_of_brace [] text) as Hs.
  pose proof (scan_braces_has_brace [] text) as Hb.
  destruct (Regex.scan Re.braces [] text); [|discriminate].
  destruct (Regex.scan Re.special [] text); [reflexivity|].
  exfalso. apply Hs; [apply Hb; congruence|reflexivity].
Qed.

(** A text with template braces always reaches [escapedText], in every
    state: the quick check lets it through, and whether or not the escape
    handler on top of the stack asks for escaping, the text is handed to
    [escapedText]; the state is not touched. *)
Lemma escapeWikiText_braces (text : jsstring) (opts : option Opts) (w : World) :
  Regex.test Re.braces text = true ->
  escapeWikiText text opts w
  = match last (wteHandlerStack (state w)) with
    | Some wteHandler =>
        match runWte wteHandler (doc w) (state w) text opts with
        | Ok _ => liftOutcome (escapedText text) w
        | Throw e => Some (Throw e, w)
        end
    | None => liftOutcome (escapedText text) w
    end.
Proof.
  intros Hb. unfold escapeWikiText.
  rewrite (test_special_of_braces text Hb), Hb.
  rewrite andb_false_r.
  unfold bind, getState, getDoc.
  destruct (last (wteHandlerStack (state w))) as [h|]; [|reflexivity].
  unfold liftOutcome at 1.
  destruct (runWte h (doc w) (state w) text opts) as [[|]|e]; reflexivity.
Qed.

Lemma crText_tests :
  Regex.test Re.braces Sample.crText = true
  /\ escapedText Sample.crText = Throw TypeError.
Proof. vm_compute. auto. Qed.

(** C5 (the code departs from the claim): the text [{{x}}] followed by a
    carriage return contains braces, but [escapeWikiText] does not return
    its wrapped form.  The pattern of [escapedText] does not match a text
    that ends in a carriage return ([.] does not match it, the second
    alternative needs a character after it, and the newline suffix needs
    a line feed), so reading [match[1]] raises a [TypeError], whatever
    the state and the options. *)
Theorem escapeWikiText_throws_on_trailing_CR (opts : option Opts) (w : World) :
  escapeWikiText Sample.crText opts w = Some (Throw TypeError, w).
Proof.
  destruct crText_tests as (Hbraces & Hnull).
  rewrite escapeWikiText_braces by exact Hbraces. rewrite Hnull.
  destruct (last (wteHandlerStack (state w))) as [h|]; [|reflexivity].
  destruct (runWte h (doc w) (state w) Sample.crText opts) as [b|e] eqn:Hh;
    [reflexivity|].
  apply runWte_throws in Hh. now subst e.
Qed.

(** The wrapped form where the pattern does match: the head, then the
    trailing newlines after the closing tag. *)
Example escapedText_splits_trailing_newlines :
  escapedText (lit "{{x}}" ++ [10; 10]%N)
  = Ok (lit "<nowiki>{{x}}</nowiki>" ++ [10; 10]%N).
Proof. vm_compute. reflexivity. Qed.

(** The pattern fails in the same way on a line separator (U+2028) that
    does not follow a newline. *)
Example escapedText_fails_on_line_separator :
  escapedText (lit "{{x}}" ++ [8232%N] ++ lit "y") = Throw TypeError.
Proof. vm_compute. reflexivity. Qed.

End Escape.

(** ** Selective serialization: the separator between unmodified nodes *)

Section Selser.

Import Serializer.

Context {ext : Externals}.

Lemma emitSep_run (sep : jsstring) (node : path) (cb : Sink) (w : World) :
  emitSep sep node cb w = Some (Ok tt, afterEmitSep sep node cb w).
Proof.
  unfold emitSep, afterEmitSep, bind, emit, freshSep, modifyState, when, ret.
  simpl. destruct (negb (isEmpty sep) && Regex.test Re.newline sep); reflexivity.
Qed.

(** The separator grammar on samples: white space and complete comments
    pass, anything else does not. *)
Example isValidSep_samples :
  isValidSep (lit " " ++ [10%N] ++ lit "<!-- a - b -->" ++ [9; 10]%N) = true
  /\ isValidSep [] = true
  /\ isValidSep (lit " x ") = false
  /\ isValidSep (lit "<!-- a") = false
  /\ isValidSep ([10%N] ++ lit "* ") = false.
Proof. vm_compute. repeat split. Qed.

(** C1: when the previously emitted node and the current node are both
    marked unmodified, [emitSepAndOutput] emits as separator exactly the
    substring of the page source between [dsr[1]] of the previous node and
    [dsr[0]] of the current one whenever [isValidSep] accepts it, and the
    separator computed by [emitSeparator] only when it does not. *)
Theorem emitSepAndOutput_prefers_original_separator
    (res : jsstring) (node : path) (cb : Sink) (w : World)
    (page : jsstring) (prevEnd nodeStart : dsrval) :
  prevNodeUnmodified (state w) = true ->
  currNodeUnmodified (state w) = true ->
  pageSrc (state w) = Some page ->
  dsrAt (doc w) (prevNode (state w)) 1 = Ok prevEnd ->
  dsrAt (doc w) (Some node) 0 = Ok nodeStart ->
  let origSep :=
    Js.substring page (substringStart prevEnd)
      (substringEnd (length page) nodeStart) in
  (isValidSep origSep = true ->
   emitSepFirst node cb w = Some (Ok tt, afterEmitSep origSep node cb w)
   /\ emitted (afterEmitSep origSep node cb w)
      = emitted w ++ [mkEmission cb origSep node]
   /\ emitSepAndOutput res node cb w
      = outputAfterSep res node cb (afterEmitSep origSep node cb w))
  /\ (isValidSep origSep = false ->
      emitSepFirst node cb w = emitSeparator cb node w
      /\ emitSepAndOutput res node cb w
         = (emitSeparator cb node >> outputAfterSep res node cb) w).
Proof.
  intros Hprev Hcurr Hpage HdA HdB origSep.
  assert (Hfirst : emitSepFirst node cb w
                   = (if isValidSep origSep then emitSep origSep node cb
                      else emitSeparator cb node) w).
  { unfold emitSepFirst, bind at 1 2, getState, getDoc.
    rewrite Hprev, Hcurr. cbn [andb].
    unfold bind at 1, liftOutcome. rewrite HdA. unfold ret at 1.
    unfold bind at 1. rewrite HdB. unfold ret at 1.
    unfold bind at 1, getOrigSrc, bind at 1, getState. rewrite Hpage.
    unfold ret at 1. reflexivity. }
  split; intros Hvalid; rewrite Hvalid in Hfirst.
  - rewrite emitSep_run in Hfirst. split; [exact Hfirst|]. split.
    + unfold afterEmitSep.
      destruct (negb (isEmpty origSep) && Regex.test Re.newline origSep); reflexivity.
    + unfold emitSepAndOutput, bind at 1. now rewrite Hfirst.
  - split; [exact Hfirst|].
    unfold emitSepAndOutput. unfold bind at 1. rewrite Hfirst. reflexivity.
Qed.

End Selser.

(** ** The [br] handler *)

Section Br.

Import Serializer.

Context {ext : Externals}.

(** C6 (amended): for a [br] that is not of HTML syntax and whose parent
    is a [p], the handler emits the empty string, never [<br>]; it sets
    the pending constraints to min 2 and max 2 only when constraints are
    pending whose min is 2 already and the [br] is the only child of the
    [p], and otherwise leaves them as they are. *)
Theorem br_handle_spec (node : path) (cb : option CB) (w : World)
    (name : jsstring) (attrs : list (jsstring * jsstring)) (dp : DataParsoid)
    (cs : list Node) (parent : Node) :
  nodeAt (doc w) node = Some (Element name attrs dp cs) ->
  parentNode (doc w) node = Some parent ->
  isHtmlSyntax dp = false ->
  nodeName parent = lit "P" ->
  br_handle node cb w
  = callCB cb [] node
      (if isParagraphBreakPair (state w) parent
       then withState forceTwoNewlines w else w).
Proof.
  intros Hnode Hparent Hstx Hname.
  unfold br_handle, bind at 1 2, getState, getDoc.
  rewrite Hnode, Hparent. unfold isHtmlSyntax in Hstx. rewrite Hstx, Hname.
  rewrite eqb_refl. cbn [negb orb].
  unfold isParagraphBreakPair.
  destruct (constraints (sep (state w))) as [c|] eqn:Hc; [|reflexivity].
  destruct (match c_min c with Some mn => (mn =? 2)%Z | None => false end
            && (length (children parent) =? 1)); [|reflexivity].
  unfold bind, set_sepField, modifyState, withState, forceTwoNewlines.
  cbn [state]. rewrite Hc. reflexivity.
Qed.

Lemma br_handle_html (node : path) (cb : option CB) (w : World)
    (name : jsstring) (attrs : list (jsstring * jsstring)) (dp : DataParsoid)
    (cs : list Node) :
  nodeAt (doc w) node = Some (Element name attrs dp cs) ->
  isHtmlSyntax dp = true
  \/ (exists parent, parentNode (doc w) node = Some parent
                     /\ nodeName parent <> lit "P") ->
  br_handle node cb w = callCB cb (lit "<br>") node w.
Proof.
  intros Hnode Hor.
  unfold br_handle, bind at 1 2, getState, getDoc.
  rewrite Hnode. fold (isHtmlSyntax dp).
  destruct (isHtmlSyntax dp) eqn:Hs; [reflexivity|].
  destruct Hor as [Hh | (parent & Hparent & Hne)]; [discriminate|].
  rewrite Hparent. apply eqb_neq in Hne. now rewrite Hne.
Qed.

(** A [br] that is not of HTML syntax and has no parent: reading
    [node.parentNode.nodeName] raises a [TypeError]. *)
Lemma br_handle_orphan (node : path) (cb : option CB) (w : World)
    (name : jsstring) (attrs : list (jsstring * jsstring)) (dp : DataParsoid)
    (cs : list Node) :
  nodeAt (doc w) node = Some (Element name attrs dp cs) ->
  isHtmlSyntax dp = false ->
  parentNode (doc w) node = None ->
  br_handle node cb w = Some (Throw TypeError, w).
Proof.
  intros Hnode Hs Hparent.
  unfold br_handle, bind at 1 2, getState, getDoc.
  rewrite Hnode. fold (isHtmlSyntax dp). now rewrite Hs, Hparent.
Qed.

End Br.

(** ** The traversal: the escape handler stack and handler exceptions *)

Section Effects.

Import Serializer.

Lemma caughtErrors_app (l1 l2 : list LogEntry) :
  caughtErrors (l1 ++ l2) = caughtErrors l1 + caughtErrors l2.
Proof.
  induction l1 as [|e l1 IH]; simpl; [reflexivity|].
  destruct e; simpl; rewrite IH; reflexivity.
Qed.

Section EffLemmas.

Context {A B : Type}.

Lemma Eff_ret (a : A) : Eff id (ret a).
Proof. intros w r w' [= <- <-]. split; [lia|]. reflexivity. Qed.

Lemma Eff_throw f (e : JsError) : Eff f (@throw A e).
Proof. intros w r w' [= <- <-]. split; [lia|]. intros a; discriminate. Qed.

Lemma Eff_outOfFuel f : Eff f (@outOfFuel A).
Proof. intros w r w'; discriminate. Qed.

Lemma Eff_ext f g (c : M A) :
  (forall s, f s = g s) -> Eff f c -> Eff g c.
Proof.
  intros Hfg Hc w r w' Hrun. destruct (Hc w r w' Hrun) as [Hle Hst].
  split; [exact Hle|]. intros a Hr Hcaught. rewrite <- Hfg. eauto.
Qed.

Lemma Eff_bind f g (c : M A) (k : A -> M B) :
  Eff f c -> (forall a, Eff g (k a)) -> Eff (g ∘ f) (bind c k).
Proof.
  intros Hc Hk w r w' Hrun. unfold bind in Hrun.
  destruct (c w) as [[[a|e] w1]|] eqn:Hcw; [| |discriminate].
  - destruct (Hc w _ w1 Hcw) as [Hle1 Hst1].
    destruct (Hk a w1 r w' Hrun) as [Hle2 Hst2].
    split; [lia|]. intros b Hr Hcaught.
    unfold compose. rewrite (Hst2 b Hr) by lia. f_equal. apply (Hst1 a eq_refl). lia.
  - injection Hrun as <- <-. destruct (Hc w _ w1 Hcw) as [Hle1 _].
    split; [exact Hle1|]. intros b; discriminate.
Qed.

Lemma Eff_bind_id (c : M A) (k : A -> M B) :
  Eff id c -> (forall a, Eff id (k a)) -> Eff id (bind c k).
Proof. intros Hc Hk. apply (Eff_bind id id); assumption. Qed.

Lemma Eff_liftOutcome (o : outcome A) : Eff id (liftOutcome o).
Proof. destruct o; [apply Eff_ret | apply Eff_throw]. Qed.

End EffLemmas.

Lemma Eff_getState : Eff id getState.
Proof. intros w r w' [= <- <-]. split; [lia|]; reflexivity. Qed.

Lemma Eff_getDoc : Eff id getDoc.
Proof. intros w r w' [= <- <-]. split; [lia|]; reflexivity. Qed.

Lemma Eff_setDoc d : Eff id (setDoc d).
Proof. intros w r w' [= <- <-]. split; [simpl; unfold caught; simpl; lia|]; reflexivity. Qed.

Lemma Eff_emit sink chunk node : Eff id (emit sink chunk node).
Proof. intros w r w' [= <- <-]. split; [unfold caught; simpl; lia|]; reflexivity. Qed.

Lemma Eff_freshSep : Eff id freshSep.
Proof. intros w r w' [= <- <-]. split; [unfold caught; simpl; lia|]; reflexivity. Qed.

Lemma Eff_freshBits : Eff id freshBits.
Proof. intros w r w' [= <- <-]. split; [unfold caught; simpl; lia|]; reflexivity. Qed.

Lemma Eff_emittedCount : Eff id emittedCount.
Proof. intros w r w' [= <- <-]. split; [lia|]; reflexivity. Qed.

Lemma Eff_emittedSince n : Eff id (emittedSince n).
Proof. intros w r w' [= <- <-]. split; [lia|]; reflexivity. Qed.

Lemma Eff_log entries : Eff id (log entries).
Proof.
  intros w r w' [= <- <-]. split.
  - unfold caught; simpl. rewrite caughtErrors_app. lia.
  - reflexivity.
Qed.

Lemma Eff_modifyState f (g : State -> State) :
  (forall st, wteHandlerStack (g st) = f (wteHandlerStack st)) ->
  Eff f (modifyState g).
Proof.
  intros Hg w r w' [= <- <-]. split; [unfold caught; simpl; lia|].
  intros _ _ _. unfold stackOf. simpl. apply Hg.
Qed.

Lemma Eff_when b (c : M unit) : Eff id c -> Eff id (when b c).
Proof. intros Hc. destruct b; [exact Hc | apply Eff_ret]. Qed.

Lemma Eff_tryCatch_logged {A} f (c : M A) (h : JsError -> M A) :
  Eff f c ->
  (forall e w, exists a l, h e w = Some (Ok a, mkWorld (state w) (doc w) (console w ++ ErrorStack e :: l) (emitted w) (allocated w))) ->
  Eff f (tryCatch c h).
Proof.
  intros Hc Hh w r w' Hrun. unfold tryCatch in Hrun.
  destruct (c w) as [[[a|e] w1]|] eqn:Hcw; [| |discriminate].
  - injection Hrun as <- <-. exact (Hc w _ w1 Hcw).
  - destruct (Hc w _ w1 Hcw) as [Hle1 _].
    destruct (Hh e w1) as (a & l & Hhe). rewrite Hhe in Hrun.
    injection Hrun as <- <-.
    assert (Hmore : caught w1 < caught (mkWorld (state w1) (doc w1)
                       (console w1 ++ ErrorStack e :: l) (emitted w1) (allocated w1))).
    { unfold caught. simpl. rewrite caughtErrors_app. simpl. lia. }
    split; [lia|]. intros b _ Heq. lia.
Qed.

Create HintDb eff.

Hint Resolve Eff_getState Eff_getDoc Eff_setDoc Eff_emit Eff_freshSep Eff_freshBits
  Eff_emittedCount Eff_emittedSince Eff_log Eff_liftOutcome : eff.

Ltac eff_step :=
  first
    [ solve [auto with eff]
    | apply Eff_ret
    | apply Eff_throw
    | apply Eff_outOfFuel
    | apply Eff_bind_id; [| intros ?; cbv beta zeta]
    | apply Eff_when
    | apply Eff_modifyState; intros ?; reflexivity
    | match goal with
      | |- Eff _ (match ?x with _ => _ end) => destruct x
      | |- Eff _ (if ?b then _ else _) => destruct b
      | |- Eff _ (let '(_, _) := ?x in _) => destruct x
      end ].

Ltac eff := cbv zeta; repeat eff_step.

Section Frames.

Context {ext : Externals}.

Lemma Eff_set_cl f : Eff id (set_cl f).
Proof. unfold set_cl. eff. Qed.

Lemma Eff_set_sepField f : Eff id (set_sepField f).
Proof. unfold set_sepField. eff. Qed.

Hint Resolve Eff_set_cl Eff_set_sepField : eff.

Lemma Eff_processCurrLine : Eff id processCurrLine.
Proof. unfold processCurrLine. eff. Qed.

Hint Resolve Eff_processCurrLine : eff.

Lemma Eff_escapeWikiText text opts : Eff id (escapeWikiText text opts).
Proof. unfold escapeWikiText. eff. Qed.

Lemma Eff_getOrigSrc a b : Eff id (getOrigSrc a b).
Proof. unfold getOrigSrc. eff. Qed.

Lemma Eff_resetCurrLine node : Eff id (resetCurrLine node).
Proof. unfold resetCurrLine. eff. Qed.

Lemma Eff_emitSep sep node cb : Eff id (emitSep sep node cb).
Proof. unfold emitSep. eff. Qed.

Hint Resolve Eff_escapeWikiText Eff_getOrigSrc Eff_resetCurrLine Eff_emitSep : eff.

Lemma Eff_emitSeparator cb node : Eff id (emitSeparator cb node).
Proof. unfold emitSeparator. eff. Qed.

Hint Resolve Eff_emitSeparator : eff.

Lemma Eff_emitSepFirst node cb : Eff id (emitSepFirst node cb).
Proof. unfold emitSepFirst. eff. Qed.

Lemma Eff_outputAfterSep res node cb : Eff id (outputAfterSep res node cb).
Proof. unfold outputAfterSep. eff. Qed.

Hint Resolve Eff_emitSepFirst Eff_outputAfterSep : eff.

Lemma Eff_emitSepAndOutput res node cb : Eff id (emitSepAndOutput res node cb).
Proof. unfold emitSepAndOutput. eff. Qed.

Hint Resolve Eff_emitSepAndOutput : eff.

Lemma Eff_callCB cb chunk node : Eff id (callCB cb chunk node).
Proof. unfold callCB. eff. Qed.

Hint Resolve Eff_callCB : eff.

Lemma Eff_updateSeparatorConstraints nodeA hA nodeB hB :
  Eff id (updateSeparatorConstraints nodeA hA nodeB hB).
Proof. unfold updateSeparatorConstraints. eff. Qed.

Lemma Eff_appendSepSrc s : Eff id (appendSepSrc s).
Proof. unfold appendSepSrc. eff. Qed.

Hint Resolve Eff_updateSeparatorConstraints Eff_appendSepSrc : eff.

Lemma Eff_handleSeparatorText node : Eff id (handleSeparatorText node).
Proof. unfold handleSeparatorText. eff. Qed.

Lemma Eff_serializeTextNode node v cb : Eff id (_serializeTextNode node v cb).
Proof. unfold _serializeTextNode. eff. Qed.

Lemma Eff_serializeFromSource node cb : Eff id (serializeFromSource node cb).
Proof. unfold serializeFromSource. eff. Qed.

Hint Resolve Eff_handleSeparatorText Eff_serializeTextNode Eff_serializeFromSource : eff.

Lemma Eff_beforeHandle node cb h : Eff id (beforeHandle node cb h).
Proof. unfold beforeHandle. eff. Qed.

Lemma Eff_afterHandle node h : Eff id (afterHandle node h).
Proof. unfold afterHandle. eff. Qed.

Hint Resolve Eff_beforeHandle Eff_afterHandle : eff.

Lemma Eff_escapeWikiLinkContentString s :
  Eff id (escapeWikiLinkContentString s).
Proof.
  unfold escapeWikiLinkContentString.
  eapply Eff_ext; cycle 1.
  - eapply Eff_bind; [apply (Eff_modifyState id); intros ?; reflexivity|intros _].
    eapply Eff_bind.
    { apply (Eff_modifyState (fun s => s ++ [wikilinkHandler])). intros ?; reflexivity. }
    intros _. eapply Eff_bind; [apply Eff_escapeWikiText|intros res].
    eapply Eff_bind.
    { apply (Eff_modifyState (fun s => removelast s)). intros ?; reflexivity. }
    intros _. apply Eff_ret.
  - intros stack. unfold compose, id. apply removelast_last.
Qed.

Hint Resolve Eff_escapeWikiLinkContentString : eff.

Section Knot.

Variable self : path -> option CB -> M path.
Hypothesis Eff_self : forall node cb, Eff id (self node cb).

Hint Resolve Eff_self : eff.

Lemma Eff_childLoop n node child : Eff id (childLoop self n node child).
Proof.
  revert child. induction n as [|n IH]; intros [c|]; simpl; eff.
Qed.

Hint Resolve Eff_childLoop : eff.

Lemma Eff_serializeChildren node chunkCB wtEscaper :
  Eff id (serializeChildren self node chunkCB wtEscaper).
Proof.
  unfold serializeChildren. destruct wtEscaper as [h|].
  - apply Eff_bind_id; [apply Eff_getState|intros st].
    apply Eff_bind_id; [apply Eff_getDoc|intros d]. cbv zeta.
    apply Eff_bind_id; [apply Eff_modifyState; intros ?; reflexivity|intros _].
    eapply Eff_ext; cycle 1.
    + eapply Eff_bind.
      { apply (Eff_modifyState (fun s => s ++ [h])). intros ?; reflexivity. }
      intros _. eapply Eff_bind; [apply Eff_childLoop|intros _].
      eapply Eff_bind; [apply Eff_getState|intros st'].
      eapply Eff_bind; [apply Eff_when; eff|intros _].
      eapply Eff_bind; [apply (Eff_modifyState id); intros ?; reflexivity|intros _].
      apply (Eff_modifyState (fun s => removelast s)). intros ?; reflexivity.
    + intros stack. unfold compose, id. apply removelast_last.
  - eff.
Qed.

Hint Resolve Eff_serializeChildren : eff.

Lemma Eff_serializeChildrenToString node wtEscaper onSOL :
  Eff id (serializeChildrenToString self node wtEscaper onSOL).
Proof. unfold serializeChildrenToString. eff. Qed.

Hint Resolve Eff_serializeChildrenToString : eff.

Lemma Eff_runOp node cb op : Eff id (runOp self node cb op).
Proof. destruct op; simpl; eff. Qed.

Hint Resolve Eff_runOp : eff.

Lemma Eff_runHandler node cb ops : Eff id (runHandler self node cb ops).
Proof. induction ops as [|op ops IH]; simpl; eff. Qed.

Hint Resolve Eff_runHandler : eff.

Lemma Eff_invokeHandler node cb name h : Eff id (invokeHandler self node cb name h).
Proof.
  unfold invokeHandler. destruct (handle h) as [ops|]; [|eff].
  apply Eff_tryCatch_logged; [eff|].
  intros e w. exists tt, [NodeAndHandler name]. reflexivity.
Qed.

Hint Resolve Eff_invokeHandler : eff.

Lemma Eff_serializeNodeBody node cb : Eff id (_serializeNodeBody self node cb).
Proof. unfold _serializeNodeBody. eff. Qed.

End Knot.

Lemma Eff_serializeNode fuel : forall node cb, Eff id (_serializeNode fuel node cb).
Proof.
  induction fuel as [|fuel IH]; intros node cb; simpl.
  - apply Eff_outOfFuel.
  - apply Eff_serializeNodeBody. exact IH.
Qed.

(** C2 (amended): for every call of [serializeChildren] that returns
    normally and during which [_serializeNode] has caught no exception of
    a handler (none was written to the console), the escape handler stack
    after the call is the stack before it, with or without an escape
    handler of its own; in particular the depths agree. *)
Theorem serializeChildren_balanced (fuel : nat) (node : path)
    (chunkCB : option CB) (wtEscaper : option WteHandler) (w w' : World) :
  serializeChildren (_serializeNode fuel) node chunkCB wtEscaper w = Some (Ok tt, w') ->
  caughtErrors (console w') = caughtErrors (console w) ->
  wteHandlerStack (state w') = wteHandlerStack (state w).
Proof.
  intros Hrun Hcaught.
  pose proof (Eff_serializeChildren (_serializeNode fuel) (Eff_serializeNode fuel)
                node chunkCB wtEscaper w _ w' Hrun) as [_ Hst].
  exact (Hst tt eq_refl Hcaught).
Qed.

Lemma Returns_ret {A} (a : A) : Returns (ret a).
Proof. intros w. exists a, w, []. now rewrite app_nil_r. Qed.

Lemma Returns_bind {A B} (c : M A) (k : A -> M B) :
  Returns c -> (forall a, Returns (k a)) -> Returns (bind c k).
Proof.
  intros Hc Hk w. destruct (Hc w) as (a & w1 & m1 & Hrun1 & Hcon1).
  destruct (Hk a w1) as (b & w2 & m2 & Hrun2 & Hcon2).
  exists b, w2, (m1 ++ m2). unfold bind. rewrite Hrun1, Hrun2.
  split; [reflexivity|]. now rewrite Hcon2, Hcon1, app_assoc.
Qed.

Lemma Returns_getState : Returns getState.
Proof. intros w. exists (state w), w, []. now rewrite app_nil_r. Qed.

Lemma Returns_getDoc : Returns getDoc.
Proof. intros w. exists (doc w), w, []. now rewrite app_nil_r. Qed.

Lemma Returns_log entries : Returns (log entries).
Proof. intros w. eexists tt, _, entries. split; reflexivity. Qed.

Lemma Returns_modifyState f : Returns (modifyState f).
Proof. intros w. eexists tt, _, []. split; [reflexivity|]. simpl. now rewrite app_nil_r. Qed.

Lemma Returns_updateSeparatorConstraints nodeA hA nodeB hB :
  Returns (updateSeparatorConstraints nodeA hA nodeB hB).
Proof.
  unfold updateSeparatorConstraints, set_sepField. cbv zeta.
  repeat first
    [ apply Returns_ret | apply Returns_getState | apply Returns_getDoc
    | apply Returns_log | apply Returns_modifyState
    | apply Returns_bind; [|intros ?; cbv beta zeta]
    | match goal with
      | |- Returns (match ?x with _ => _ end) => destruct x
      | |- Returns (if ?b then _ else _) => destruct b
      | |- Returns (let '(_, _) := ?x in _) => destruct x
      end ].
Qed.

Lemma Returns_afterHandle node h : Returns (afterHandle node h).
Proof.
  unfold afterHandle.
  apply Returns_bind; [apply Returns_getState|intros st].
  apply Returns_bind; [apply Returns_getDoc|intros d].
  destruct (_getNextSeparatorElement d node);
    [apply Returns_updateSeparatorConstraints | apply Returns_ret].
Qed.

(** C3 (amended): an exception thrown by a tag handler's [handle] during
    [_serializeNode] is caught there; it is written to the console,
    followed by the name of the node (and the handler), and it is not
    thrown again: [_serializeNode] goes on with the separator constraints
    after the node and returns normally.  No call of a handler ends in an
    exception, whatever the handler does, so none of its exceptions
    reaches the [catch] of [serializeDOM].  What the [try] block of
    [serializeDOM] throws, that [catch] writes to the console, hands to
    [env.errCB] and throws again; what the block returns, [serializeDOM]
    returns. *)
Theorem handler_exception_is_logged_and_swallowed :
  (forall (fuel : nat) (node : path) (cb : option CB) (w w0 w1 : World)
          (name : jsstring) (attrs : list (jsstring * jsstring))
          (dp : DataParsoid) (cs : list Node) (ops : list HandlerOp)
          (e : JsError),
     let cb' := match cb with Some cb => Some cb | None => chunkCB (state w) end in
     let domHandler := _getDOMHandler (state w) (doc w) (Some node) in
     nodeAt (doc w) node = Some (Element name attrs dp cs) ->
     isMarkerMeta (doc w) node (lit "mw:DiffMarker") = false ->
     handle domHandler = Some ops ->
     beforeHandle node cb' domHandler w = Some (Ok false, w0) ->
     runHandler (_serializeNode fuel) node cb' ops w0 = Some (Throw e, w1) ->
     exists w' more,
       _serializeNode (S fuel) node cb w = Some (Ok node, w')
       /\ console w' = console w1 ++ [ErrorStack e; NodeAndHandler name] ++ more)
  /\ (forall (self : path -> option CB -> M path) (node : path)
             (cb : option CB) (name : jsstring) (domHandler : DomHandler)
             (w w' : World) (r : outcome unit),
        invokeHandler self node cb name domHandler w = Some (r, w') ->
        r = Ok tt)
  /\ (forall (fuel : nat) (rtTesting : bool) (pageSrc : option jsstring)
             (chunkCB : option nat) (finalCB : option (M unit))
             (selserMode : bool) (w : World),
        serializeDOM fuel rtTesting pageSrc chunkCB finalCB selserMode w
        = match serializeDOMBody fuel chunkCB finalCB selserMode
                  (length (emitted w)) (atTry rtTesting pageSrc w) with
          | Some (Throw e, w1) =>
              Some (Throw e, logged [SerializeDOMError e; ErrCB e] w1)
          | other => other
          end).
Proof.
  split; [|split].
  - intros fuel node cb w w0 w1 name attrs dp cs ops e cb' domHandler
      Hnode Hmarker Hhandle Hbefore Hthrow.
    pose (w2 := withState (set_inModifiedContent false)
                  (mkWorld (state w1) (doc w1)
                     (console w1 ++ [ErrorStack e; NodeAndHandler name])
                     (emitted w1) (allocated w1))).
    destruct (Returns_afterHandle node domHandler w2)
      as ([] & w' & more & Hafter & Hcon).
    exists w', more. split.
    + cbn [_serializeNode]. unfold _serializeNodeBody.
      unfold bind at 1 2, getState, getDoc. rewrite Hnode, Hmarker.
      fold cb' domHandler. unfold bind at 1. rewrite Hbefore.
      unfold bind at 1 2 3. unfold invokeHandler. rewrite Hhandle.
      unfold tryCatch. rewrite Hthrow. unfold log, modifyState.
      fold w2. rewrite Hafter. reflexivity.
    + rewrite Hcon. unfold w2. simpl. now rewrite <- app_assoc.
  - intros self node cb name domHandler w w' r. unfold invokeHandler.
    destruct (handle domHandler) as [ops|].
    + unfold tryCatch.
      destruct (runHandler self node cb ops w) as [[[[]|e] w1]|];
        [| |discriminate]; intros [= <- _]; reflexivity.
    + intros [= <- _]. reflexivity.
  - intros fuel rtTesting pageSrc chunkCB finalCB selserMode w.
    unfold serializeDOM, bind, freshSep, modifyState, emittedCount, tryCatch.
    unfold withState. cbn [state doc console emitted allocated].
    fold (atTry rtTesting pageSrc w).
    destruct (serializeDOMBody fuel chunkCB finalCB selserMode
                (length (emitted w)) (atTry rtTesting pageSrc w))
      as [[[out|e] w1]|]; reflexivity.
Qed.

End Frames.

End Effects.

(** * Further properties of the serializer *)

(** ** Separator constraints *)

Section Constraints.

Import Serializer.

Local Open Scope Z_scope.

(** X1: [mergeConstraints] always returns a range that can be met:
    both bounds are set and [min <= max], with [a] of the older and [b] of
    the newer constraint; and it writes to the console exactly when the two
    ranges do not overlap. *)
Theorem mergeConstraints_satisfiable (old new : Constraints) :
  exists mn mx,
    fst (mergeConstraints old new)
    = mkConstraints (c_a old) (c_b new) (Some mn) (Some mx)
    /\ mn <= mx
    /\ (snd (mergeConstraints old new) = [] <->
        Z.max (orZero (c_min old)) (orZero (c_min new))
        <= Z.min (orTwo (c_max old)) (orTwo (c_max new))).
Proof.
  unfold mergeConstraints.
  destruct (Z.ltb_spec (Z.min (orTwo (c_max old)) (orTwo (c_max new)))
              (Z.max (orZero (c_min old)) (orZero (c_min new)))) as [Hlt|Hle].
  - eexists _, _. split; [reflexivity|]. split; [lia|].
    split; [discriminate | lia].
  - eexists _, _. split; [reflexivity|]. split; [lia|]. split; [lia | reflexivity].
Qed.

Ltac split_bounds :=
  repeat (cbn [c_a c_b c_min c_max fst snd] in *;
          match goal with
          | |- context [match ?x with Some _ => _ | None => _ end] =>
              destruct x eqn:?
          | |- context [if (?a <? ?b) then _ else _] =>
              destruct (Z.ltb_spec a b)
          end);
  cbn [c_a c_b c_min c_max fst snd] in *.

Ltac close_options :=
  repeat match goal with
         | H : Some _ = Some _ |- _ => injection H as <-
         | H : None = Some _ |- _ => discriminate H
         | H : Some _ = None |- _ => discriminate H
         end.

(** X2: when the handler of the second node gives consistent bounds,
    the constraints between two nodes stay within them, whatever the handler
    of the first node asks for. *)
Theorem getSepNlConstraints_B_wins (d : Node) (nodeA nodeB : path)
    (sepNlsHandlerA : option (Node -> path -> path -> NlBounds))
    (hB : Node -> path -> path -> NlBounds) :
  let cb := hB d nodeB nodeA in
  let res := fst (getSepNlConstraints d nodeA sepNlsHandlerA nodeB (Some hB)) in
  (forall mn mx, b_min cb = Some mn -> b_max cb = Some mx -> mn <= mx) ->
  c_b res = Some cb
  /\ (forall mn, b_min cb = Some mn -> exists r, c_min res = Some r /\ mn <= r)
  /\ (forall mx, b_max cb = Some mx -> exists r, c_max res = Some r /\ r <= mx).
Proof.
  intros cb res Hwf. subst res. unfold getSepNlConstraints. fold cb.
  destruct (b_min cb) as [cbmin|] eqn:Hmin, (b_max cb) as [cbmax|] eqn:Hmax;
    try specialize (Hwf _ _ eq_refl eq_refl);
    destruct sepNlsHandlerA as [hA|]; split_bounds;
    (split; [reflexivity|]);
    (split; [intros ? [= <-] || intros ? [=] | intros ? [= <-] || intros ? [=]]);
    close_options;
    try (eexists; split; [reflexivity|]; unfold orZero, default in *; lia).
Qed.

(** X3: when each handler gives consistent bounds (and the second no
    negative ones), the constraints between two nodes can be met: a maximum
    in the result is never below its minimum. *)
Theorem getSepNlConstraints_consistent (d : Node) (nodeA nodeB : path)
    (sepNlsHandlerA sepNlsHandlerB : option (Node -> path -> path -> NlBounds)) :
  let res := fst (getSepNlConstraints d nodeA sepNlsHandlerA nodeB sepNlsHandlerB) in
  (forall hA mx, sepNlsHandlerA = Some hA ->
     b_max (hA d nodeA nodeB) = Some mx -> orZero (b_min (hA d nodeA nodeB)) <= mx) ->
  (forall hB mx, sepNlsHandlerB = Some hB ->
     b_max (hB d nodeB nodeA) = Some mx ->
     0 <= mx /\ orZero (b_min (hB d nodeB nodeA)) <= mx) ->
  forall mx, c_max res = Some mx -> orZero (c_min res) <= mx.
Proof.
  intros res HA HB. subst res. unfold getSepNlConstraints.
  destruct sepNlsHandlerA as [hA|], sepNlsHandlerB as [hB|];
    try (specialize (fun mx => HA _ mx eq_refl));
    try (specialize (fun mx => HB _ mx eq_refl));
    split_bounds; intros mx Hmx;
    repeat match goal with
           | H : Some _ = Some _ |- _ => injection H as <-
           | H : None = Some _ |- _ => discriminate H
           | H : Some _ = None |- _ => discriminate H
           | H : forall mx, ?x = Some mx -> _, E : ?x = Some _ |- _ =>
               specialize (H _ E)
           | H : ?x = Some _ |- context [?x] => rewrite H
           | H : ?x = None |- context [?x] => rewrite H
           | H : ?x = Some _, H' : context [?x] |- _ => rewrite H in H'
           | H : ?x = None, H' : context [?x] |- _ => rewrite H in H'
           end;
    repeat match goal with
           | H : forall mx, Some _ = Some mx -> _ |- _ => specialize (H _ eq_refl)
           | H : forall mx, None = Some mx -> _ |- _ => clear H
           end;
    unfold orZero, default, id in *;
    repeat match goal with
           | |- context [match ?x with Some _ => _ | None => _ end] => destruct x
           | H : context [match ?x with Some _ => _ | None => _ end] |- _ => destruct x
           end; try lia.
Qed.

End Constraints.

(** ** The matcher and the patterns *)

Section Matcher.

Import Regex.
Import Matching.
Import Serializer.

Lemma m_Rep lo hi greedy r x k :
  m (Rep lo hi greedy r) x k
  = repLoop (m r) (groupsIn r) greedy k (lo + length (ahead x) + 1) lo hi x.
Proof. reflexivity. Qed.

Lemma orElse_Some {A} (a b : option A) (z : A) :
  orElse a b = Some z -> a = Some z \/ b = Some z.
Proof. destruct a; simpl; auto. Qed.

Lemma repLoop_sound (r : re) greedy k z
    (IH : forall x k z, m r x k = Some z -> exists y, sem r x y /\ k y = Some z) :
  forall fuel lo hi x,
    repLoop (m r) (groupsIn r) greedy k fuel lo hi x = Some z ->
    exists y n, withinBounds lo hi n
                /\ iter (sem r) (groupsIn r) n x y /\ k y = Some z.
Proof.
  assert (Hstep : forall fuel' lo hi x,
    hi <> Some 0 ->
    (forall lo hi x, repLoop (m r) (groupsIn r) greedy k fuel' lo hi x = Some z ->
       exists y n, withinBounds lo hi n
                   /\ iter (sem r) (groupsIn r) n x y /\ k y = Some z) ->
    m r (clearCaptures (groupsIn r) x)
      (fun y => if Nat.eqb lo 0 && Nat.eqb (length (ahead y)) (length (ahead x))
                then None
                else repLoop (m r) (groupsIn r) greedy k fuel' (pred lo)
                       (option_map pred hi) y) = Some z ->
    exists y n, withinBounds lo hi n
                /\ iter (sem r) (groupsIn r) n x y /\ k y = Some z).
  { intros fuel' lo hi x Hhi IHf Hm.
    apply IH in Hm as (y1 & Hsem & Hd).
    destruct (_ && _); [discriminate|].
    apply IHf in Hd as (y & n & [Hlo Hup] & Hit & Hk).
    exists y, (S n). split; [|split; [eapply iter_more; eassumption | exact Hk]].
    destruct hi as [[|h]|]; [congruence| |]; simpl in *.
    - split; [|lia]. destruct Hlo as [Hlo|[= ->]]; [left; lia | now right].
    - split; [|exact I]. destruct Hlo as [Hlo|Hlo]; [left; lia | discriminate]. }
  induction fuel as [|fuel IHf]; intros lo hi x Hrun.
  - destruct hi as [[|h]|]; simpl in Hrun; try discriminate.
    exists x, 0. repeat split; [now right | lia | apply iter_done | exact Hrun].
  - assert (Hzero : lo = 0 -> k x = Some z ->
              exists y n, withinBounds lo hi n
                          /\ iter (sem r) (groupsIn r) n x y /\ k y = Some z).
    { intros -> Hkx. exists x, 0.
      repeat split; [left; lia | destruct hi; [lia|exact I] | apply iter_done | exact Hkx]. }
    destruct hi as [[|h]|]; simpl in Hrun.
    + exists x, 0. repeat split; [now right | lia | apply iter_done | exact Hrun].
    + destruct lo as [|lo]; cbn [Nat.eqb negb] in Hrun;
        [ destruct greedy; apply orElse_Some in Hrun as [Hrun|Hrun];
          first [ exact (Hzero eq_refl Hrun)
                | exact (Hstep fuel 0 (Some (S h)) x ltac:(discriminate) IHf Hrun) ]
        | exact (Hstep fuel (S lo) (Some (S h)) x ltac:(discriminate) IHf Hrun) ].
    + destruct lo as [|lo]; cbn [Nat.eqb negb] in Hrun;
        [ destruct greedy; apply orElse_Some in Hrun as [Hrun|Hrun];
          first [ exact (Hzero eq_refl Hrun)
                | exact (Hstep fuel 0 None x ltac:(discriminate) IHf Hrun) ]
        | exact (Hstep fuel (S lo) None x ltac:(discriminate) IHf Hrun) ].
Qed.

(** Whenever the matcher succeeds, the state its continuation accepted is a
    match of the pattern. *)
Lemma m_sound (r : re) :
  forall x k z, m r x k = Some z -> exists y, sem r x y /\ k y = Some z.
Proof.
  induction r as [|p|r1 IH1 r2 IH2|r1 IH1 r2 IH2|lo hi greedy r IH|n r IH
                 |positive r IH| | |]; intros x k z Hm.
  - exists x. split; [reflexivity | exact Hm].
  - simpl in Hm. destruct (ahead x) as [|c rest] eqn:Hx; [discriminate|].
    destruct (p c) eqn:Hp; [|discriminate].
    eexists. split; [|exact Hm]. simpl. rewrite Hx. eauto.
  - simpl in Hm. apply IH1 in Hm as (y1 & H1 & Hm).
    apply IH2 in Hm as (y & H2 & Hk). exists y. split; [|exact Hk].
    exists y1. auto.
  - simpl in Hm. apply orElse_Some in Hm as [Hm|Hm].
    + apply IH1 in Hm as (y & H1 & Hk). exists y. split; [left; exact H1|exact Hk].
    + apply IH2 in Hm as (y & H2 & Hk). exists y. split; [right; exact H2|exact Hk].
  - rewrite m_Rep in Hm. eapply repLoop_sound in Hm; [|exact IH].
    destruct Hm as (y & n & Hb & Hit & Hk). exists y. split; [|exact Hk].
    exists n. auto.
  - simpl in Hm. apply IH in Hm as (y & Hs & Hk).
    eexists. split; [|exact Hk]. exists y. auto.
  - simpl in Hm. destruct (m r x Some) as [y0|] eqn:Hlook.
    + destruct positive; [|discriminate].
      eexists. split; [|exact Hm]. simpl. rewrite Hlook. auto.
    + destruct positive; [discriminate|].
      exists x. split; [|exact Hm]. simpl. rewrite Hlook. auto.
  - simpl in Hm. destruct (passed x) eqn:Hp; [|discriminate].
    exists x. split; [|exact Hm]. simpl. auto.
  - simpl in Hm. destruct (ahead x) eqn:Ha; [|discriminate].
    exists x. split; [|exact Hm]. simpl. auto.
  - simpl in Hm. destruct (xorb _ _) eqn:Hw; [|discriminate].
    exists x. split; [|exact Hm]. simpl. auto.
Qed.

Lemma advances_refl r x : advances r x x.
Proof. exists []. repeat split; auto. Qed.

Lemma getCapture_filter n (f : nat -> bool) caps :
  f n = true ->
  getCapture n (filter (fun p => f (fst p)) caps) = getCapture n caps.
Proof.
  intros Hf. induction caps as [|[k s] caps IH]; [reflexivity|].
  rewrite filter_cons. simpl.
  destruct (decide (f k)) as [Hk|Hk].
  - simpl. destruct (Nat.eqb k n); [reflexivity|exact IH].
  - destruct (Nat.eqb_spec k n) as [->|_]; [|exact IH].
    rewrite Hf in Hk. exfalso. apply Hk. exact I.
Qed.

Lemma getCapture_setCapture n k s caps :
  getCapture n (setCapture k s caps)
  = if Nat.eqb k n then Some s else getCapture n caps.
Proof.
  unfold setCapture. simpl. destruct (Nat.eqb_spec k n) as [->|Hne]; [reflexivity|].
  apply (getCapture_filter n (fun j => negb (Nat.eqb j k))).
  apply negb_true_iff. apply Nat.eqb_neq. congruence.
Qed.

Lemma getCapture_clear n ns x :
  n ∉ ns -> getCapture n (captures (clearCaptures ns x)) = getCapture n (captures x).
Proof.
  intros Hn. unfold clearCaptures. simpl.
  apply (getCapture_filter n (fun j => negb (existsb (Nat.eqb j) ns))).
  apply negb_true_iff. apply not_true_is_false. intros H.
  apply existsb_exists in H as (j & Hj & Heq). apply Nat.eqb_eq in Heq. subst j.
  apply Hn. now apply list_elem_of_In.
Qed.

Lemma advances_weaken r1 r x y :
  (forall c, accepts r1 c = true -> accepts r c = true) ->
  (forall n, n ∉ groupsIn r -> n ∉ groupsIn r1) ->
  advances r1 x y -> advances r x y.
Proof.
  intros Ha Hg (s & E & P & F & C). exists s. repeat split; auto.
  eapply Forall_impl; [exact F|]. exact Ha.
Qed.

Lemma advances_trans r1 r2 r x y z :
  (forall c, accepts r1 c = true -> accepts r c = true) ->
  (forall c, accepts r2 c = true -> accepts r c = true) ->
  (forall n, n ∉ groupsIn r -> n ∉ groupsIn r1) ->
  (forall n, n ∉ groupsIn r -> n ∉ groupsIn r2) ->
  advances r1 x y -> advances r2 y z -> advances r x z.
Proof.
  intros Ha1 Ha2 Hg1 Hg2 (s1 & E1 & P1 & F1 & C1) (s2 & E2 & P2 & F2 & C2).
  exists (s1 ++ s2). repeat split.
  - now rewrite E1, E2, app_assoc.
  - now rewrite P2, P1, rev_app_distr, app_assoc.
  - apply Forall_app. split; (eapply Forall_impl; [eassumption|]); auto.
  - intros n Hn. rewrite C2 by auto. apply C1. auto.
Qed.

(** A match consumes a stretch of the input made of characters the pattern
    accepts, and sets no group but the pattern's own. *)
Lemma sem_advances (r : re) : forall x y, sem r x y -> advances r x y.
Proof.
  induction r as [|p|r1 IH1 r2 IH2|r1 IH1 r2 IH2|lo hi greedy r IH|n r IH
                 |positive r IH| | |]; intros x y Hs; simpl in Hs.
  - subst y. apply advances_refl.
  - destruct Hs as (c & rest & Hx & Hp & ->). exists [c]. simpl.
    repeat split; auto.
  - destruct Hs as (z & H1 & H2).
    eapply (advances_trans r1 r2); eauto; simpl; intros;
      rewrite ?orb_true_iff, ?not_elem_of_app in *; tauto.
  - destruct Hs as [H1|H2].
    + eapply (advances_weaken r1); eauto; simpl; intros;
        rewrite ?orb_true_iff, ?not_elem_of_app in *; tauto.
    + eapply (advances_weaken r2); eauto; simpl; intros;
        rewrite ?orb_true_iff, ?not_elem_of_app in *; tauto.
  - destruct Hs as (i & _ & Hs). induction Hs as [x|i x y z Hstep _ IHit].
    + apply advances_refl.
    + apply IH in Hstep.
      assert (Hx : advances r x y).
      { destruct Hstep as (s & E & P & F & C). exists s. repeat split; auto.
        intros n Hn. rewrite C by exact Hn. now apply getCapture_clear. }
      eapply (advances_trans r r); eauto.
  - destruct Hs as (y0 & Hs & ->). apply IH in Hs as (s & E & P & F & C).
    exists s. cbn [ahead passed captures]. repeat split; auto.
    intros j Hj. cbn [groupsIn] in Hj. apply not_elem_of_cons in Hj as [Hne Hj].
    rewrite getCapture_setCapture.
    destruct (Nat.eqb_spec n j) as [->|_]; [congruence|]. now apply C.
  - destruct (m r x Some) as [y0|] eqn:Hlook.
    + destruct Hs as [-> ->]. exists []. simpl. repeat split; auto.
      intros j Hj. apply m_sound in Hlook as (y1 & Hs & [= ->]).
      apply IH in Hs as (s & E & P & F & C). now apply C.
    + destruct Hs as [-> ->]. apply advances_refl.
  - destruct Hs as [_ ->]. apply advances_refl.
  - destruct Hs as [_ ->]. apply advances_refl.
  - destruct Hs as [_ ->]. apply advances_refl.
Qed.

Lemma scan_Bol_fail (r : re) (before after : jsstring) :
  before <> [] -> scan (Seq Bol r) before after = None.
Proof.
  revert before. induction after as [|c after IH]; intros before Hne;
    destruct before as [|b before]; try congruence; cbn [scan].
  - reflexivity.
  - unfold matchAt. cbn [m passed]. now apply IH.
Qed.

Lemma exec_Bol (r : re) (s : jsstring) (res : result) :
  exec (Seq Bol r) s = Some res -> matchAt (Seq Bol r) [] s = Some res.
Proof.
  unfold exec. destruct s as [|c s]; cbn [scan].
  - destruct (matchAt _ [] []); congruence.
  - destruct (matchAt _ [] (c :: s)); [congruence|].
    rewrite scan_Bol_fail by discriminate. discriminate.
Qed.

Lemma matchAt_sem (r : re) (before after : jsstring) (res : result) :
  matchAt r before after = Some res ->
  exists y, sem r (MState before after []) y
            /\ res = Result (length before)
                       (take (length after - length (ahead y)) after) (captures y).
Proof.
  unfold matchAt. destruct (m r _ Some) as [y|] eqn:Hm; [|discriminate].
  intros [= <-]. apply m_sound in Hm as (y' & Hs & [= ->]). eauto.
Qed.

Lemma take_consumed {A} (s rest : list A) :
  take (length (s ++ rest) - length rest) (s ++ rest) = s.
Proof.
  rewrite length_app. replace (length s + length rest - length rest) with (length s) by lia.
  apply take_app_length.
Qed.

(** X8: [escapedText] wraps the text in nowiki tags and loses nothing
    of it: the trailing line breaks stay outside the tags, everything else
    is inside. *)
Theorem escapedText_keeps_text (text wrapped : jsstring) :
  escapedText text = Ok wrapped ->
  exists head newlines,
    text = head ++ newlines
    /\ wrapped = lit "<nowiki>" ++ head ++ lit "</nowiki>" ++ newlines
    /\ Forall (fun c => c = 13%N \/ c = 10%N) newlines.
Proof.
  unfold escapedText.
  destruct (exec Re.escaped text) as [mt|] eqn:Hexec; [|discriminate].
  intros [= <-].
  apply exec_Bol, matchAt_sem in Hexec as (y & Hs & ->).
  destruct Hs as (x0 & [_ ->] & x1 & (y1 & H1 & ->) & x2 & (y2 & H2 & ->) & Hy & ->).
  apply sem_advances in H1 as (s1 & E1 & _ & _ & _).
  apply sem_advances in H2 as (s2 & E2 & _ & F2 & C2).
  cbn [ahead passed captures] in *.
  rewrite Hy, app_nil_r in E2. subst s2.
  exists s1, (ahead y1). split; [exact E1|]. split.
  - unfold group. cbn [groups captures].
    rewrite !getCapture_setCapture. cbn [Nat.eqb].
    rewrite C2 by (cbn; apply not_elem_of_nil).
    rewrite getCapture_setCapture. cbn [Nat.eqb default].
    rewrite Hy. cbn [length]. rewrite Nat.sub_0_r, firstn_all.
    rewrite E1 at 1 2. rewrite take_consumed.
    reflexivity.
  - eapply Forall_impl; [exact F2|]. intros c Hc. cbn in Hc.
    unfold Re.code in Hc. rewrite orb_true_iff, !N.eqb_eq in Hc. exact Hc.
Qed.

Lemma sem_str (s : string) (x y : mstate) :
  sem (str s) x y -> ahead x = lit s ++ ahead y.
Proof.
  unfold str, lit. revert x.
  induction (list_ascii_of_string s) as [|a l IH]; intros x Hs; simpl in Hs.
  - subst y. reflexivity.
  - destruct Hs as (z & (c & rest & Hx & Hp & ->) & Hs).
    apply IH in Hs. simpl in Hs. rewrite Hx, Hs. simpl.
    unfold one in Hp. apply N.eqb_eq in Hp. now subst c.
Qed.

Lemma look_arrow_fails (x : mstate) (t : jsstring) :
  m (str "->") x Some = None -> ahead x <> [45; 62]%N ++ t.
Proof.
  intros Hnone Heq. change (str "->") with
    (Seq (Chr (fun c => N.eqb c 45)) (Seq (Chr (fun c => N.eqb c 62)) Empty)) in Hnone.
  cbn [m] in Hnone. rewrite Heq in Hnone. simpl in Hnone. discriminate.
Qed.

Lemma comment_body_step (x y : mstate) :
  sem (Group 2 (Alt (Chr (neg (one "-")))
                   (Seq (Chr (one "-")) (Look false (str "->"))))) x y ->
  exists c, ahead x = c :: ahead y
            /\ (c <> 45%N \/ forall t, ahead y <> [45; 62]%N ++ t).
Proof.
  intros (y0 & Hs & ->). cbn [ahead].
  destruct Hs as [(c & rest & Hx & Hp & ->) | (z & (c & rest & Hx & Hp & ->) & Hl)].
  - exists c. split; [exact Hx|]. left. intros ->. discriminate.
  - cbn [sem] in Hl.
    destruct (m (str "->") _ Some) eqn:Hlook; destruct Hl as [? ->]; [discriminate|].
    exists c. split; [exact Hx|]. right. intros t.
    exact (look_arrow_fails _ t Hlook).
Qed.

Lemma comment_body (gs : list nat) (n : nat) (x y : mstate) :
  iter (sem (Group 2 (Alt (Chr (neg (one "-")))
                      (Seq (Chr (one "-")) (Look false (str "->")))))) gs n x y ->
  exists body, ahead x = body ++ ahead y /\ noClose body (ahead y).
Proof.
  induction 1 as [x|n x y z Hstep _ (body & Hy & Hno)].
  - exists []. split; [reflexivity|]. intros b1 b2 _. simpl. lia.
  - apply comment_body_step in Hstep as (c & Hx & Hc). cbn [clearCaptures ahead] in Hx.
    exists (c :: body). split; [rewrite Hx, Hy; reflexivity|].
    intros [|b b1] b2 Heq.
    + exfalso. rewrite lit_terminator in Heq. simpl in Heq.
      injection Heq as -> Heq. destruct Hc as [Hc|Hc]; [congruence|].
      apply (Hc b2). rewrite Hy. exact Heq.
    + simpl in Heq. injection Heq as _ Heq. apply Hno in Heq. simpl. lia.
Qed.

Lemma sepPiece_step (x y : mstate) :
  sem (Group 1 (Alt (Chr space) (Re.comment (Group 2)))) x y ->
  exists p, ahead x = p ++ ahead y /\ sepPiece p.
Proof.
  intros (y0 & Hs & ->). cbn [ahead].
  destruct Hs as [(c & rest & Hx & Hp & ->) | Hs].
  - exists [c]. split; [exact Hx|]. left. eauto.
  - destruct Hs as (x1 & Hopen & x2 & (n & _ & Hbody) & Hclose).
    apply sem_str in Hopen, Hclose.
    apply comment_body in Hbody as (body & Hb & Hno).
    exists (lit "<!--" ++ body ++ lit "-->"). split.
    + rewrite Hopen, Hb, Hclose. now rewrite <- !app_assoc.
    + right. exists body. split; [reflexivity|].
      intros b1 b2 Heq. rewrite Hclose in Hno.
      specialize (Hno b1 (b2 ++ ahead y0)).
      rewrite !app_assoc in Hno. rewrite <- (app_assoc b1) in Hno.
      rewrite <- Heq in Hno. specialize (Hno eq_refl).
      apply (f_equal length) in Heq. rewrite !length_app in Heq.
      destruct b2; [reflexivity|]. simpl in Heq. lia.
Qed.

(** X6: a separator accepted by [isValidSep] is a sequence of white
    space characters and whole comments, where a comment ends at its first
    terminator. *)
Theorem isValidSep_sound (sep : jsstring) :
  isValidSep sep = true ->
  exists pieces, sep = concat pieces /\ Forall sepPiece pieces.
Proof.
  unfold isValidSep, test.
  destruct (exec Re.validSep sep) as [res|] eqn:Hexec; [intros _|discriminate].
  apply exec_Bol, matchAt_sem in Hexec as (y & Hs & _).
  destruct Hs as (x0 & [_ ->] & x1 & (n & _ & Hit) & Hend & ->).
  assert (Hgen : forall n x y,
    iter (sem (Group 1 (Alt (Chr space) (Re.comment (Group 2)))))
      (groupsIn (Group 1 (Alt (Chr space) (Re.comment (Group 2))))) n x y ->
    exists pieces, ahead x = concat pieces ++ ahead y /\ Forall sepPiece pieces).
  { clear. induction 1 as [x|n x y z Hstep _ (ps & Hy & Hps)].
    - exists []. split; [reflexivity|constructor].
    - apply sepPiece_step in Hstep as (p & Hx & Hp). cbn [clearCaptures ahead] in Hx.
      exists (p :: ps). split; [|constructor; assumption].
      rewrite Hx, Hy. simpl. now rewrite app_assoc. }
  apply Hgen in Hit as (ps & Hx & Hps). cbn [ahead] in Hx.
  rewrite Hend, app_nil_r in Hx. eauto.
Qed.

Lemma scan_sound (r : re) (after before : jsstring) (res : result) :
  scan r before after = Some res ->
  exists pre post, after = pre ++ post
                   /\ matchAt r (rev pre ++ before) post = Some res.
Proof.
  revert before. induction after as [|c after IH]; intros before; cbn [scan].
  - destruct (matchAt r before []) eqn:Hm; [|discriminate].
    intros [= <-]. exists [], []. auto.
  - destruct (matchAt r before (c :: after)) eqn:Hm.
    + intros [= <-]. exists [], (c :: after). auto.
    + intros Hs. apply IH in Hs as (pre & post & -> & Hm').
      exists (c :: pre), post. split; [reflexivity|].
      simpl. now rewrite <- app_assoc.
Qed.

(** A successful [test] comes from a match at some position of the text. *)
Lemma test_sem (r : re) (s : jsstring) :
  test r s = true ->
  exists pre post y, s = pre ++ post /\ sem r (MState (rev pre) post []) y.
Proof.
  unfold test, exec. destruct (scan r [] s) as [res|] eqn:Hs; [intros _|discriminate].
  apply scan_sound in Hs as (pre & post & -> & Hm). rewrite app_nil_r in Hm.
  apply matchAt_sem in Hm as (y & Hy & _). eauto.
Qed.

Context {ext : Externals}.

Lemma special_needs_special (text : jsstring) :
  Forall (fun c => oneOf "<>[]-+|'!=#*:;~{}" c = false) text ->
  (forall c d rest, text = c :: d :: rest -> c = 32%N \/ c = 9%N -> space d = true) ->
  test Re.special text = false.
Proof.
  intros Hplain Hlead. apply not_true_is_false. intros Ht.
  apply test_sem in Ht as (pre & post & y & -> & [Hs|Hs]).
  - destruct Hs as (x0 & [Hp ->] & x1 & (c & rest & Hx & Hc & ->) & (n & [Hb _] & Hit)).
    cbn [passed ahead] in *. apply (f_equal (@rev _)) in Hp. rewrite rev_involutive in Hp.
    cbn in Hp. subst pre post. cbn [app] in *.
    destruct Hb as [Hb|Hb]; [|discriminate].
    inversion Hit as [|n' x' y' z' Hstep _]; subst; [lia|].
    destruct Hstep as (d & rest' & Hx' & Hd & _). cbn [clearCaptures ahead] in Hx'.
    subst rest. unfold neg in Hd. apply negb_true_iff in Hd.
    rewrite (Hlead c d rest' eq_refl) in Hd; [discriminate|].
    unfold Re.codes in Hc. cbn in Hc. rewrite !orb_true_iff, !N.eqb_eq in Hc.
    destruct Hc as [?|[?|?]]; [now left | now right | discriminate].
  - destruct Hs as (c & rest & Hx & Hc & _). cbn [ahead] in Hx. subst post.
    apply Forall_app in Hplain as [_ Hplain].
    apply Forall_cons in Hplain as [Hplain _]. congruence.
Qed.

(** X9: text with no character that wikitext gives a meaning to, and
    that names no RFC, ISBN or PMID, is returned as it is, whatever the
    context and the escape handler on the stack; the state is not touched. *)
Theorem escapeWikiText_leaves_plain_text (text : jsstring) (opts : option Opts)
    (w : World) :
  test Re.urlTriggers text = false ->
  Forall (fun c => oneOf "<>[]-+|'!=#*:;~{}" c = false) text ->
  (forall c d rest, text = c :: d :: rest -> c = 32%N \/ c = 9%N -> space d = true) ->
  escapeWikiText text opts w = Some (Ok text, w).
Proof.
  intros Hurl Hplain Hlead. unfold escapeWikiText.
  rewrite Hurl, (special_needs_special text Hplain Hlead). reflexivity.
Qed.

Lemma blank_is_space (v : jsstring) :
  test Re.blank v = true -> Forall (fun c => space c = true) v.
Proof.
  intros Ht. apply test_sem in Ht as (pre & post & y & -> & Hs).
  destruct Hs as (x0 & [Hp ->] & x1 & Hstar & Hend & ->).
  cbn [passed] in Hp. apply (f_equal (@rev _)) in Hp. rewrite rev_involutive in Hp.
  cbn in Hp. subst pre. cbn [app].
  apply sem_advances in Hstar as (s & E & _ & F & _). cbn [ahead] in E.
  rewrite Hend, app_nil_r in E. subst post. exact F.
Qed.

Lemma leadingNewlines_matched (v : jsstring) (mt : result) :
  exec Re.leadingNewlines v = Some mt ->
  matched mt `prefix_of` v /\ Forall (fun c => space c = true) (matched mt).
Proof.
  intros He. apply exec_Bol, matchAt_sem in He as (y & Hs & ->).
  apply sem_advances in Hs as (s & E & _ & F & _). cbn [ahead matched] in *.
  pose proof (take_consumed s (ahead y)) as Ht. rewrite <- E in Ht. rewrite Ht.
  split.
  - rewrite E. now apply prefix_app_r.
  - eapply Forall_impl; [exact F|]. intros c Hc. cbn in Hc.
    unfold Re.code in Hc. apply N.eqb_eq in Hc. now subst c.
Qed.

(** A greedy run over the characters of a class: when the text ahead
    starts with [s], all in the class, and goes on with a character
    outside it or ends there, the loop hands the position after [s] to
    [k] first. *)
Lemma repLoop_chars (p : cset) (k : mstate -> option mstate) (z : mstate)
    (t : jsstring) :
  match t with c :: _ => p c = false | [] => True end ->
  forall (s : jsstring) (fuel lo : nat) (b : jsstring),
    Forall (fun c => p c = true) s ->
    lo <= length s -> length s < fuel ->
    k (MState (rev s ++ b) t []) = Some z ->
    repLoop (m (Chr p)) [] true k fuel lo None (MState b (s ++ t) []) = Some z.
Proof.
  intros Ht s. induction s as [|c s IH]; intros fuel lo b Hall Hlo Hfuel Hk.
  - cbn [length] in Hlo. assert (lo = 0) by lia. subst lo.
    destruct fuel as [|fuel]; [lia|]. cbn in Hk |- *.
    destruct t as [|c t]; [exact Hk|]. now rewrite Ht.
  - apply Forall_cons in Hall as [Hc Hall]. cbn [length] in Hlo, Hfuel.
    destruct fuel as [|fuel]; [lia|].
    assert (Hrec : repLoop (m (Chr p)) [] true k fuel (pred lo) None
                     (MState (c :: b) (s ++ t) []) = Some z).
    { apply IH; [exact Hall | lia | lia |].
      cbn [rev] in Hk. now rewrite <- app_assoc in Hk. }
    cbn [repLoop app]. cbn [clearCaptures passed ahead captures existsb negb filter m].
    rewrite Hc. cbn [length].
    replace (length (s ++ t) =? S (length (s ++ t))) with false
      by (symmetry; apply Nat.eqb_neq; lia).
    rewrite andb_false_r.
    repeat match goal with
    | |- context [repLoop ?f ?g ?gr ?kk ?fu ?l ?h ?x] =>
        progress change (repLoop f g gr kk fu l h x)
          with (repLoop (m (Chr p)) [] true k fuel (pred lo) None
                  (MState (c :: b) (s ++ t) []))
    end.
    rewrite Hrec. now destruct (negb (lo =? 0)).
Qed.

Lemma scan_here (r : re) (before after : jsstring) (res : result) :
  matchAt r before after = Some res -> scan r before after = Some res.
Proof. intros H. destruct after; cbn [scan]; now rewrite H. Qed.

Lemma forallb_Forall {A} (f : A -> bool) (l : list A) :
  forallb f l = true <-> Forall (fun c => f c = true) l.
Proof.
  induction l as [|c l IH]; cbn [forallb]; [split; auto|].
  rewrite andb_true_iff, Forall_cons, IH. reflexivity.
Qed.

(** [/^\s*$/] matches exactly the texts that are all white space. *)
Lemma blank_spec (v : jsstring) : test Re.blank v = forallb space v.
Proof.
  destruct (forallb space v) eqn:Hall.
  - apply forallb_Forall in Hall. unfold test, exec.
    assert (Hm : exists res, matchAt Re.blank [] v = Some res).
    { unfold matchAt, Re.blank. cbn [seq m passed]. unfold star. rewrite m_Rep.
      cbn [groupsIn ahead].
      pose proof (repLoop_chars space
                    (fun y => match ahead y with [] => Some y | _ :: _ => None end)
                    _ [] I v
                    (0 + length v + 1) 0 [] Hall ltac:(lia) ltac:(lia) eq_refl)
        as Hrun.
      rewrite app_nil_r in Hrun. rewrite Hrun. eauto. }
    destruct Hm as [res Hm]. now rewrite (scan_here _ _ _ _ Hm).
  - destruct (test Re.blank v) eqn:Ht; [|reflexivity].
    apply blank_is_space, forallb_Forall in Ht. congruence.
Qed.

Lemma leadingLineFeeds_split (v : jsstring) :
  exists t, v = leadingLineFeeds v ++ t
            /\ Forall (fun c => Re.code 10 c = true) (leadingLineFeeds v)
            /\ match t with c :: _ => Re.code 10 c = false | [] => True end.
Proof.
  induction v as [|c v (t & E & F & Ht)]; [exists []; now repeat split|].
  cbn [leadingLineFeeds]. destruct (c =? 10)%N eqn:Hc.
  - exists t. cbn [app]. rewrite <- E. repeat split; [|exact Ht].
    apply Forall_cons. split; [exact Hc | exact F].
  - exists (c :: v). now repeat split.
Qed.

(** [/^\n+/] matches the line feeds a text starts with, when there are
    any. *)
Lemma leadingNewlines_spec (v : jsstring) :
  exec Re.leadingNewlines v
  = match leadingLineFeeds v with
    | [] => None
    | nls => Some (Result 0 nls [])
    end.
Proof.
  destruct (leadingLineFeeds_split v) as (t & E & F & Ht).
  destruct (leadingLineFeeds v) as [|c s] eqn:Hs.
  - cbn [app] in E. subst t.
    destruct (exec Re.leadingNewlines v) as [res|] eqn:He; [|reflexivity].
    apply exec_Bol in He. unfold matchAt, Re.leadingNewlines, Re.nl in He.
    cbn [m passed] in He. unfold plus in He. rewrite m_Rep in He.
    cbn [ahead] in He. replace (1 + length v + 1) with (S (S (length v))) in He by lia.
    cbn in He. destruct v as [|c v]; [discriminate|]. now rewrite Ht in He.
  - unfold exec. apply scan_here. unfold matchAt, Re.leadingNewlines, Re.nl.
    cbn [m passed]. unfold plus. rewrite m_Rep. cbn [groupsIn ahead].
    rewrite E at 2.
    rewrite (repLoop_chars (Re.code 10) Some (MState (rev (c :: s)) t []) t Ht
               (c :: s) _ 1 []);
      [| exact F | cbn [length]; lia | rewrite E, length_app; lia
       | now rewrite app_nil_r ].
    cbn [ahead captures length]. f_equal. f_equal.
    rewrite E at 1 2. apply take_consumed.
Qed.

(** X7: on a text node, [handleSeparatorText] answers whether the
    text is white space only.  If it is, the whole text is appended to the
    separator source collected so far; if not, the line feeds the text
    starts with are, and when it starts with none the state stays as it
    is.  Nothing else changes. *)
Theorem handleSeparatorText_adds_white_space (node : path) (v : jsstring)
    (w : World) :
  nodeAt (doc w) node = Some (Text v) ->
  handleSeparatorText node w
  = Some (Ok (forallb space v),
          if forallb space v then withSepSrc v w
          else
            match leadingLineFeeds v with
            | [] => w
            | nls => withSepSrc nls w
            end).
Proof.
  intros Hnode. unfold handleSeparatorText, bind, getDoc. rewrite Hnode.
  rewrite blank_spec. destruct (forallb space v); [reflexivity|].
  rewrite leadingNewlines_spec. now destruct (leadingLineFeeds v).
Qed.

End Matcher.

(** ** What the serializer leaves alone, and what it restores *)

Section Keeping.

Import Serializer.
Import Frame.

Context {ext : Externals}.

Section KeepsLemmas.

Variable R : World -> World -> Prop.
Hypothesis R_refl : forall w, R w w.
Hypothesis R_trans : forall w1 w2 w3, R w1 w2 -> R w2 w3 -> R w1 w3.

Lemma Keeps_ret {A} (a : A) : Keeps R (ret a).
Proof. intros w r w' [= <- <-]. apply R_refl. Qed.

Lemma Keeps_throw {A} (e : JsError) : Keeps R (@throw A e).
Proof. intros w r w' [= <- <-]. apply R_refl. Qed.

Lemma Keeps_outOfFuel {A} : Keeps R (@outOfFuel A).
Proof. intros w r w'; discriminate. Qed.

Lemma Keeps_bind {A B} (c : M A) (k : A -> M B) :
  Keeps R c -> (forall a, Keeps R (k a)) -> Keeps R (bind c k).
Proof.
  intros Hc Hk w r w' Hrun. unfold bind in Hrun.
  destruct (c w) as [[[a|e] w1]|] eqn:Hcw; [| |discriminate].
  - eapply R_trans; [exact (Hc _ _ _ Hcw) | exact (Hk _ _ _ _ Hrun)].
  - injection Hrun as <- <-. exact (Hc _ _ _ Hcw).
Qed.

Lemma Keeps_tryCatch {A} (c : M A) (h : JsError -> M A) :
  Keeps R c -> (forall e, Keeps R (h e)) -> Keeps R (tryCatch c h).
Proof.
  intros Hc Hh w r w' Hrun. unfold tryCatch in Hrun.
  destruct (c w) as [[[a|e] w1]|] eqn:Hcw; [| |discriminate].
  - injection Hrun as <- <-. exact (Hc _ _ _ Hcw).
  - eapply R_trans; [exact (Hc _ _ _ Hcw) | exact (Hh _ _ _ _ Hrun)].
Qed.

Lemma Keeps_liftOutcome {A} (o : outcome A) : Keeps R (liftOutcome o).
Proof. destruct o; [apply Keeps_ret | apply Keeps_throw]. Qed.

Lemma Keeps_getState : Keeps R getState.
Proof. intros w r w' [= <- <-]. apply R_refl. Qed.

Lemma Keeps_getDoc : Keeps R getDoc.
Proof. intros w r w' [= <- <-]. apply R_refl. Qed.

Lemma Keeps_emittedCount : Keeps R emittedCount.
Proof. intros w r w' [= <- <-]. apply R_refl. Qed.

Lemma Keeps_emittedSince n : Keeps R (emittedSince n).
Proof. intros w r w' [= <- <-]. apply R_refl. Qed.

Lemma Keeps_when b (c : M unit) : Keeps R c -> Keeps R (when b c).
Proof. intros Hc. destruct b; [exact Hc | apply Keeps_ret]. Qed.

End KeepsLemmas.

Lemma bind_Ok {A B} (c : M A) (k : A -> M B) (w w' : World) (b : B) :
  bind c k w = Some (Ok b, w') ->
  exists a w1, c w = Some (Ok a, w1) /\ k a w1 = Some (Ok b, w').
Proof.
  unfold bind. destruct (c w) as [[[a|e] w1]|]; [eauto|discriminate..].
Qed.

Ltac bind_inv H :=
  let a := fresh "a" in
  let w1 := fresh "w" in
  let H1 := fresh "Hstep" in
  apply bind_Ok in H as (a & w1 & H1 & H).

Ltac prim H :=
  cbv [getState getDoc modifyState ret emittedSince emittedCount freshBits
       freshSep setDoc log emit] in H;
  injection H; clear H; intros; subst.

Ltac bind_prim H :=
  let a := fresh "a" in
  let w1 := fresh "w" in
  let H1 := fresh "Hstep" in
  apply bind_Ok in H as (a & w1 & H1 & H); prim H1.

Lemma onlyCurrLine_refl w : onlyCurrLine w w.
Proof. destruct w as [[] ? ? ? ?]. reflexivity. Qed.

Lemma onlyCurrLine_trans w1 w2 w3 :
  onlyCurrLine w1 w2 -> onlyCurrLine w2 w3 -> onlyCurrLine w1 w3.
Proof.
  unfold onlyCurrLine. intros H12 H23. rewrite H23 at 1. rewrite H12 at 1.
  reflexivity.
Qed.

Lemma onlyCurrLine_set_cl f : Keeps onlyCurrLine (set_cl f).
Proof. intros w r w' [= <- <-]. reflexivity. Qed.

Ltac cl_step :=
  first
    [ apply onlyCurrLine_set_cl
    | apply (Keeps_getState _ onlyCurrLine_refl)
    | apply (Keeps_getDoc _ onlyCurrLine_refl)
    | apply (Keeps_liftOutcome _ onlyCurrLine_refl)
    | apply (Keeps_ret _ onlyCurrLine_refl)
    | apply (Keeps_throw _ onlyCurrLine_refl)
    | apply (Keeps_bind onlyCurrLine onlyCurrLine_trans); [| intros ?; cbv beta zeta]
    | apply (Keeps_when onlyCurrLine onlyCurrLine_refl)
    | match goal with
      | |- Keeps _ (match ?x with _ => _ end) => destruct x
      | |- Keeps _ (if ?b then _ else _) => destruct b
      end ].

Lemma escapeWikiText_keeps (text : jsstring) (opts : option Opts) :
  Keeps onlyCurrLine (escapeWikiText text opts).
Proof. unfold escapeWikiText, processCurrLine. cbv zeta. repeat cl_step. Qed.

(** X10: [escapeWikiText] is an oracle: whatever it answers, and also
    when it throws, every field of the state is as it was, [currLine]
    apart; it emits nothing, creates no object and leaves the document as
    it is. *)
Theorem escapeWikiText_only_touches_currLine (text : jsstring)
    (opts : option Opts) (w w' : World) (r : outcome jsstring) :
  escapeWikiText text opts w = Some (r, w') ->
  state w' = set_currLine (currLine (state w')) (state w)
  /\ doc w' = doc w
  /\ emitted w' = emitted w
  /\ allocated w' = allocated w.
Proof.
  intros Hrun. apply escapeWikiText_keeps in Hrun. unfold onlyCurrLine in Hrun.
  rewrite Hrun at 1 3 4 5. repeat split.
Qed.

(** X11: [escapeWikiLinkContentString] leaves [onSOL] false; it
    takes its escape handler off the stack again when the escaping returns,
    and leaves it on the stack when the escaping throws. *)
Theorem escapeWikiLinkContentString_stack (contentString : jsstring)
    (w w' : World) (r : outcome jsstring) :
  escapeWikiLinkContentString contentString w = Some (r, w') ->
  onSOL (state w') = false
  /\ wteHandlerStack (state w')
     = match r with
       | Ok _ => wteHandlerStack (state w)
       | Throw _ => wteHandlerStack (state w) ++ [wikilinkHandler]
       end.
Proof.
  unfold escapeWikiLinkContentString, bind, modifyState, ret.
  destruct (escapeWikiText contentString None _) as [[[res|e] w1]|] eqn:Hesc;
    [| |discriminate];
    apply escapeWikiText_keeps in Hesc; unfold onlyCurrLine in Hesc;
    intros [= <- <-]; rewrite Hesc; cbn.
  - split; [reflexivity|]. apply removelast_last.
  - split; reflexivity.
Qed.

Section Same.
Context {X : Type} (f : State -> X).

Lemma sameField_refl w : sameField f w w.
Proof. reflexivity. Qed.

Lemma sameField_trans w1 w2 w3 :
  sameField f w1 w2 -> sameField f w2 w3 -> sameField f w1 w3.
Proof. unfold sameField. congruence. Qed.

Lemma same_modifyState g :
  (forall st, f (g st) = f st) -> Keeps (sameField f) (modifyState g).
Proof. intros Hg w r w' [= <- <-]. apply Hg. Qed.

Lemma same_emit sink chunk node : Keeps (sameField f) (emit sink chunk node).
Proof. intros w r w' [= <- <-]. reflexivity. Qed.

Lemma same_freshSep : Keeps (sameField f) freshSep.
Proof. intros w r w' [= <- <-]. reflexivity. Qed.

Lemma same_log l : Keeps (sameField f) (log l).
Proof. intros w r w' [= <- <-]. reflexivity. Qed.

End Same.

Ltac same_step f :=
  first
    [ apply (same_modifyState f); intros ?; reflexivity
    | apply (same_emit f)
    | apply (same_freshSep f)
    | apply (same_log f)
    | apply (Keeps_getState _ (sameField_refl f))
    | apply (Keeps_getDoc _ (sameField_refl f))
    | apply (Keeps_liftOutcome _ (sameField_refl f))
    | apply (Keeps_ret _ (sameField_refl f))
    | apply (Keeps_throw _ (sameField_refl f))
    | apply (Keeps_bind _ (sameField_trans f)); [| intros ?; cbv beta zeta]
    | apply (Keeps_when _ (sameField_refl f))
    | match goal with
      | |- Keeps _ (match ?x with _ => _ end) => destruct x
      | |- Keeps _ (if ?b then _ else _) => destruct b
      end ].

Lemma emitSepFirst_keeps {X} (f : State -> X) node cb :
  (forall v st, f (set_sep v st) = f st) ->
  (forall v st, f (set_onSOL v st) = f st) ->
  Keeps (sameField f) (emitSepFirst node cb).
Proof.
  intros Hsep Hsol.
  unfold emitSepFirst, emitSeparator, emitSep, getOrigSrc. cbv zeta.
  repeat first [ apply (same_modifyState f); intros ?; solve [apply Hsep | apply Hsol]
               | same_step f ].
Qed.

(** X12: after [emitSepAndOutput] has returned, the chunk it was
    given for [node] is the last one emitted, [node] is the previous node
    and the last source node, the modification flag of the current node has
    moved to the previous one and is reset, and [escapeText] is off. *)
Theorem emitSepAndOutput_bookkeeping (res : jsstring) (node : path) (cb : Sink)
    (w w' : World) :
  emitSepAndOutput res node cb w = Some (Ok tt, w') ->
  escapeText (state w') = false
  /\ prevNode (state w') = Some node
  /\ prevNodeUnmodified (state w') = currNodeUnmodified (state w)
  /\ currNodeUnmodified (state w') = false
  /\ lastSourceNode (sep (state w')) = Some node
  /\ exists out, last (emitted w') = Some (mkEmission cb out node).
Proof.
  unfold emitSepAndOutput. intros H. bind_inv H.
  pose proof (emitSepFirst_keeps currNodeUnmodified node cb
                (fun _ _ => eq_refl) (fun _ _ => eq_refl) _ _ _ Hstep) as Hcur.
  unfold sameField in Hcur. rewrite <- Hcur. clear Hstep Hcur.
  unfold outputAfterSep in H.
  do 5 bind_prim H. bind_inv H. do 2 bind_prim H.
  bind_inv H. bind_inv H. do 3 bind_prim H.
  assert (Hpre : w0 = withState (set_currLine (currLine (state w0)))
              (withState (set_currNodeUnmodified false)
                 (withState (set_prevNode (Some node))
                    (withState
                       (set_prevNodeUnmodified (currNodeUnmodified (state w1))) w1)))).
  { unfold when, resetCurrLine, modifyState, ret in Hstep.
    destruct (onSOL _); injection Hstep as _ Hw; rewrite <- Hw; [reflexivity|].
    destruct w1 as [[] ? ? ? ?]; reflexivity. }
  clear Hstep.
  assert (Hesc : escapeText (state w2) = false
                 /\ forall X (f : State -> X),
                      (forall v st, f (set_currLine v st) = f st) ->
                      (forall v st, f (set_escapeText v st) = f st) ->
                      f (state w2) = f (state w0)).
  { destruct (escapeText (state w0)) eqn:He.
    - bind_inv Hstep0. bind_prim Hstep0. prim Hstep0.
      apply escapeWikiText_keeps in Hstep. unfold onlyCurrLine in Hstep. rewrite Hstep.
      split; [reflexivity|]. intros X f Hcl Hesc. cbn. now rewrite Hesc, Hcl.
    - prim Hstep0. split; [exact He|]. reflexivity. }
  clear Hstep0. destruct Hesc as [Hesc Hw2].
  assert (Hw3 : escapeText (state w3) = false
                /\ forall X (f : State -> X),
                     (forall v st, f (set_currLine v st) = f st) ->
                     (forall v st, f (set_escapeText v st) = f st) ->
                     f (state w3) = f (state w0)).
  { unfold when, set_cl, modifyState, ret in Hstep1.
    destruct (_ && _); injection Hstep1 as _ Hw; rewrite <- Hw.
    - split; [exact Hesc|]. intros X f Hcl He. cbn. rewrite Hcl. now apply Hw2.
    - split; [exact Hesc|]. exact Hw2. }
  clear Hstep1 Hesc Hw2. destruct Hw3 as [Hesc Hw3].
  assert (Hfin : forall X (f : State -> X),
            (forall v st, f (set_onSOL v st) = f st) ->
            f (state w')
            = f (set_sep (sep_lastSourceSep (src (sep_lastSourceNode (Some node) (sep (state w3))))
                            (sep_lastSourceNode (Some node) (sep (state w3))))
                   (state w3))
            /\ emitted w' = emitted w3 ++ [mkEmission cb a1 node]).
  { intros X f Hsol. unfold when, modifyState, ret in H.
    destruct (negb _); injection H as Hw; rewrite <- Hw; cbn; [rewrite Hsol|];
      split; reflexivity. }
  clear H.
  repeat split.
  - rewrite (proj1 (Hfin _ escapeText (fun _ _ => eq_refl))). exact Hesc.
  - rewrite (proj1 (Hfin _ prevNode (fun _ _ => eq_refl))). cbn.
    rewrite (Hw3 _ prevNode (fun _ _ => eq_refl) (fun _ _ => eq_refl)).
    rewrite Hpre. reflexivity.
  - rewrite (proj1 (Hfin _ prevNodeUnmodified (fun _ _ => eq_refl))). cbn.
    rewrite (Hw3 _ prevNodeUnmodified (fun _ _ => eq_refl) (fun _ _ => eq_refl)).
    rewrite Hpre. reflexivity.
  - rewrite (proj1 (Hfin _ currNodeUnmodified (fun _ _ => eq_refl))). cbn.
    rewrite (Hw3 _ currNodeUnmodified (fun _ _ => eq_refl) (fun _ _ => eq_refl)).
    rewrite Hpre. reflexivity.
  - rewrite (proj1 (Hfin _ (fun st => lastSourceNode (sep st)) (fun _ _ => eq_refl))).
    reflexivity.
  - exists a1. rewrite (proj2 (Hfin _ escapeText (fun _ _ => eq_refl))).
    apply last_snoc.
Qed.

Section Children.

Variable self : path -> option CB -> M path.

(** X13: [serializeChildren] puts [state.chunkCB] back when it
    returns, whatever serializes the children and whatever callback was
    installed for them. *)
Theorem serializeChildren_restores_chunkCB (node : path) (chunkCB : option CB)
    (wtEscaper : option WteHandler) (w w' : World) :
  serializeChildren self node chunkCB wtEscaper w = Some (Ok tt, w') ->
  Serializer.chunkCB (state w') = Serializer.chunkCB (state w).
Proof.
  unfold serializeChildren. intros H.
  do 3 bind_prim H.
  do 2 bind_inv H.
  bind_prim H. bind_inv H. bind_prim H.
  destruct wtEscaper; prim H; reflexivity.
Qed.

(** X14: [serializeChildrenToString] returns with the pending
    separator it was called with. *)
Theorem serializeChildrenToString_restores_sep (node : path)
    (wtEscaper : option WteHandler) (onSOL : option bool) (w w' : World)
    (out : jsstring) :
  serializeChildrenToString self node wtEscaper onSOL w = Some (Ok out, w') ->
  sep (state w') = sep (state w).
Proof.
  unfold serializeChildrenToString. intros H.
  do 5 bind_prim H.
  do 3 bind_inv H.
  do 2 bind_prim H.
  prim H. reflexivity.
Qed.

End Children.

End Keeping.

(** ** The content view *)

Section ContentView.

Import Content.
Import View.

Lemma matchAt_boundary (before : jsstring) (c : char) (rest : jsstring) :
  Regex.matchAt boundaryTest before (c :: rest)
  = if isBoundaryChar c
    then Some (Regex.Result (length before) [c] [(1, [c])])
    else None.
Proof.
  unfold Regex.matchAt, boundaryTest. cbn [Regex.m Regex.ahead].
  destruct (isBoundaryChar c); [|reflexivity].
  cbn [Regex.ahead Regex.captures Regex.passed length].
  replace (S (length rest) - length rest) with 1 by lia. reflexivity.
Qed.

Lemma matchAt_boundary_nil (before : jsstring) :
  Regex.matchAt boundaryTest before [] = None.
Proof. reflexivity. Qed.

(** One turn of the loop: the search from [before] either finds no
    boundary character, or stops at the first one. *)
Lemma scan_boundary (before after : jsstring) :
  match Regex.scan boundaryTest before after with
  | Some res =>
      exists skipped c rest,
        after = skipped ++ c :: rest
        /\ forallb (fun c => negb (isBoundaryChar c)) skipped = true
        /\ isBoundaryChar c = true
        /\ Regex.index res = length before + length skipped
        /\ Regex.matched res = [c]
  | None => forallb (fun c => negb (isBoundaryChar c)) after = true
  end.
Proof.
  revert before. induction after as [|c after IH]; intros before.
  - reflexivity.
  - cbn [Regex.scan]. rewrite matchAt_boundary.
    destruct (isBoundaryChar c) eqn:Hc.
    + exists [], c, after. cbn. rewrite Nat.add_0_r. auto.
    + specialize (IH (c :: before)).
      destruct (Regex.scan boundaryTest (c :: before) after) as [res|].
      * destruct IH as (skipped & c' & rest & -> & Hs & Hc' & Hi & Hm).
        exists (c :: skipped), c', rest. cbn. rewrite Hc, Hs. cbn.
        repeat split; auto. rewrite Hi. cbn. lia.
      * cbn. now rewrite Hc.
Qed.

Lemma breaksFrom_app (i : nat) (s1 s2 : jsstring) :
  breaksFrom i (s1 ++ s2) = breaksFrom i s1 ++ breaksFrom (i + length s1) s2.
Proof.
  revert i. induction s1 as [|c s1 IH]; intros i; cbn.
  - now rewrite Nat.add_0_r.
  - rewrite IH. replace (S i + length s1) with (i + S (length s1)) by lia.
    destruct (isBoundaryChar c); reflexivity.
Qed.

Lemma breaksFrom_none (i : nat) (s : jsstring) :
  forallb (fun c => negb (isBoundaryChar c)) s = true -> breaksFrom i s = [].
Proof.
  revert i. induction s as [|c s IH]; intros i; cbn; [reflexivity|].
  destruct (isBoundaryChar c); cbn; [discriminate|]. apply IH.
Qed.

Lemma boundaryLoop_spec (fuel : nat) (text : jsstring) (i : nat)
    (boundaries : list nat) (end_ : option nat) :
  i <= length text ->
  length text - i < fuel ->
  boundaryLoop fuel text i boundaries end_
  = Some (boundaries ++ breaksFrom i (drop i text),
          match last (breaksFrom i (drop i text)) with
          | Some e => Some e
          | None => end_
          end).
Proof.
  revert i boundaries end_. induction fuel as [|fuel IH]; intros i bs e Hi Hfuel; [lia|].
  cbn [boundaryLoop]. unfold execGlobal.
  destruct (Nat.ltb_spec (length text) i) as [|_]; [lia|].
  pose proof (scan_boundary (rev (take i text)) (drop i text)) as Hscan.
  destruct (Regex.scan boundaryTest (rev (take i text)) (drop i text)) as [res|].
  - destruct Hscan as (skipped & c & rest & Hdrop & Hs & Hc & Hidx & Hm).
    rewrite length_rev, length_take, Nat.min_l in Hidx by exact Hi.
    assert (Hlen : length text = i + length skipped + S (length rest)).
    { rewrite <- (take_drop i text) at 1. rewrite length_app, length_take, Hdrop.
      rewrite length_app. cbn. lia. }
    assert (Hnext : drop (i + length skipped + 1) text = rest).
    { replace (i + length skipped + 1) with (i + (length skipped + 1)) by lia.
      rewrite <- drop_drop, Hdrop, <- drop_drop, drop_app_length. reflexivity. }
    rewrite Hidx, Hm. cbn [length].
    rewrite IH by lia. rewrite Hnext, Hdrop.
    rewrite breaksFrom_app, (breaksFrom_none _ skipped) by exact Hs.
    cbn [app breaksFrom]. rewrite Hc.
    replace (S (i + length skipped)) with (i + length skipped + 1) by lia.
    rewrite <- app_assoc. cbn [app]. do 2 f_equal.
    destruct (breaksFrom (i + length skipped + 1) rest) as [|b bs']; [reflexivity|].
    rewrite last_cons_cons. destruct (last (b :: bs')) eqn:Hl; [reflexivity|].
    apply last_None in Hl. discriminate.
  - rewrite (breaksFrom_none _ _ Hscan). cbn. now rewrite app_nil_r.
Qed.

Lemma breaksFrom_bounds (i : nat) (s : jsstring) :
  Forall (fun b => i < b <= i + length s) (breaksFrom i s).
Proof.
  revert i. induction s as [|c s IH]; intros i; cbn [breaksFrom length]; [constructor|].
  assert (Htail : Forall (fun b => i < b <= i + S (length s)) (breaksFrom (S i) s)).
  { eapply Forall_impl; [apply IH|]. cbn. intros b Hb. lia. }
  destruct (isBoundaryChar c); [constructor; [lia|]|]; exact Htail.
Qed.

Lemma breaksFrom_sorted (i : nat) (s : jsstring) :
  StronglySorted lt (breaksFrom i s).
Proof.
  revert i. induction s as [|c s IH]; intros i; cbn [breaksFrom]; [constructor|].
  destruct (isBoundaryChar c); [|apply IH].
  constructor; [apply IH|].
  eapply Forall_impl; [apply breaksFrom_bounds|]. cbn. intros b Hb. lia.
Qed.

Lemma breaksFrom_elem (i : nat) (s : jsstring) (k : nat) :
  k ∈ breaksFrom i s
  <-> exists j c, k = i + j + 1 /\ s !! j = Some c /\ isBoundaryChar c = true.
Proof.
  revert i. induction s as [|c s IH]; intros i; cbn [breaksFrom].
  - split; [intros H; inversion H | intros (j & c & _ & H & _); discriminate].
  - assert (Htail : k ∈ breaksFrom (S i) s <->
              exists j c', k = i + S j + 1 /\ s !! j = Some c' /\ isBoundaryChar c' = true).
    { rewrite IH. split; intros (j & c' & -> & H1 & H2); exists j, c';
        repeat split; auto; lia. }
    destruct (isBoundaryChar c) eqn:Hc.
    + rewrite elem_of_cons, Htail. split.
      * intros [->|(j & c' & -> & H1 & H2)].
        -- exists 0, c. repeat split; auto. lia.
        -- exists (S j), c'. auto.
      * intros ([|j] & c' & -> & H1 & H2).
        -- left. lia.
        -- right. exists j, c'. auto.
    + rewrite Htail. split.
      * intros (j & c' & -> & H1 & H2). exists (S j), c'. auto.
      * intros ([|j] & c' & -> & H1 & H2).
        -- cbn in H1. injection H1 as <-. congruence.
        -- exists j, c'. auto.
Qed.

Lemma StronglySorted_app_one {A} (R : A -> A -> Prop) (l : list A) (x : A) :
  StronglySorted R l -> Forall (fun a => R a x) l -> StronglySorted R (l ++ [x]).
Proof.
  induction 1 as [|a l Hl IH Ha]; intros Hx; cbn.
  - repeat constructor.
  - apply Forall_cons in Hx as [Hax Hx]. constructor; [auto|].
    apply Forall_app. split; [exact Ha | repeat constructor; exact Hax].
Qed.

Lemma StronglySorted_impl_le (l : list nat) :
  StronglySorted lt l -> StronglySorted le l.
Proof.
  induction 1 as [|a l Hl IH Ha]; constructor; [exact IH|].
  eapply Forall_impl; [exact Ha|]. cbn. lia.
Qed.

Lemma scanBoundaries_spec (data : list Item) :
  let text := concat (map chrOf data) in
  let breaks := breaksFrom 0 text in
  scanBoundaries data
  = Some (0 :: breaks
            ++ (if bool_decide (last breaks = Some (length text)) then []
                else [length text])).
Proof.
  intros text breaks. unfold scanBoundaries. fold text.
  rewrite boundaryLoop_spec by lia. rewrite drop_0. fold breaks.
  pose proof (breaksFrom_bounds 0 text) as Hb. fold breaks in Hb.
  destruct (last breaks) as [e|] eqn:Hlast.
  - apply last_Some in Hlast as [front Hfront]. rewrite Hfront in Hb |- *.
    apply Forall_app in Hb as [_ Hb]. apply Forall_cons in Hb as [He _].
    rewrite length_app, length_app. cbn [length].
    replace (1 + (length front + 1) =? 1) with false
      by (symmetry; apply Nat.eqb_neq; lia).
    rewrite orb_false_r.
    destruct (Nat.ltb_spec e (length text)) as [Hlt|Hge].
    + rewrite bool_decide_eq_false_2 by (intros [= ->]; lia). reflexivity.
    + rewrite bool_decide_eq_true_2 by (f_equal; lia).
      now rewrite app_nil_r.
  - apply last_None in Hlast. rewrite Hlast. cbn.
    rewrite bool_decide_eq_false_2 by discriminate. reflexivity.
Qed.

Lemma scanBoundaries_sorted (data : list Item) :
  let text := concat (map chrOf data) in
  exists boundaries,
    scanBoundaries data = Some boundaries
    /\ head boundaries = Some 0
    /\ last boundaries = Some (length text)
    /\ StronglySorted le boundaries
    /\ (text <> [] -> StronglySorted lt boundaries).
Proof.
  intros text. rewrite scanBoundaries_spec. fold text.
  set (breaks := breaksFrom 0 text).
  pose proof (breaksFrom_bounds 0 text) as Hb. fold breaks in Hb.
  pose proof (breaksFrom_sorted 0 text) as Hs. fold breaks in Hs.
  eexists. split; [reflexivity|]. split; [reflexivity|].
  assert (Hpos : Forall (lt 0) breaks).
  { eapply Forall_impl; [exact Hb|]. cbn. intros b ?. lia. }
  destruct (bool_decide_reflect (last breaks = Some (length text))) as [Hlast|Hlast].
  - rewrite app_nil_r. split; [|split].
    + destruct breaks as [|b bs]; [discriminate|].
      rewrite last_cons_cons. exact Hlast.
    + constructor.
      * apply StronglySorted_impl_le; exact Hs.
      * eapply Forall_impl; [exact Hpos|]. cbn. lia.
    + intros _. constructor; assumption.
  - split; [|split].
    + rewrite app_comm_cons. apply last_snoc.
    + constructor.
      * apply StronglySorted_app_one.
        -- apply StronglySorted_impl_le; exact Hs.
        -- eapply Forall_impl; [exact Hb|]. cbn. lia.
      * apply Forall_app. split.
        -- eapply Forall_impl; [exact Hpos|]. cbn. lia.
        -- repeat constructor. lia.
    + intros Hne. assert (0 < length text) by (destruct text; [congruence|cbn; lia]).
      assert (Hlt : Forall (fun b => b < length text) breaks).
      { destruct (last breaks) as [e|] eqn:He.
        - apply last_Some in He as [front Hfront].
          rewrite Hfront in Hb, Hs |- *.
          apply Forall_app in Hb as [Hbf Hbe]. apply Forall_cons in Hbe as [Hbe _].
          assert (e < length text) by (destruct (decide (e = length text)); [congruence|lia]).
          apply Forall_app. split; [|repeat constructor; assumption].
          clear -Hs H0. induction front as [|a front IH]; [constructor|].
          cbn in Hs. inversion Hs as [|? ? Hs' Ha]; subst.
          constructor; [|auto].
          apply Forall_app in Ha as [_ Ha]. apply Forall_cons in Ha as [Ha _]. lia.
        - apply last_None in He. rewrite He. constructor. }
      constructor.
      * apply StronglySorted_app_one; assumption.
      * apply Forall_app. split; [exact Hpos | repeat constructor; assumption].
Qed.

(** X17: [scanBoundaries] always ends, and the boundaries it leaves
    start with 0, end with the length of the text and never decrease; they
    increase strictly when the text is not empty, and are [0, 0] when it
    is. *)
Theorem scanBoundaries_shape (data : list Item) :
  let text := concat (map chrOf data) in
  exists boundaries,
    scanBoundaries data = Some boundaries
    /\ head boundaries = Some 0
    /\ last boundaries = Some (length text)
    /\ StronglySorted le boundaries
    /\ (text <> [] -> StronglySorted lt boundaries)
    /\ (text = [] -> boundaries = [0; 0]).
Proof.
  intros text.
  destruct (scanBoundaries_sorted data) as (bs & Hrun & Hhead & Hlast & Hle & Hlt).
  exists bs. repeat split; try assumption.
  intros Hempty. rewrite scanBoundaries_spec in Hrun. fold text in Hrun.
  rewrite Hempty in Hrun. cbn in Hrun. now injection Hrun.
Qed.

(** X18: strictly inside the text, the boundaries are exactly the
    offsets that follow a boundary character. *)
Theorem scanBoundaries_breaks (data : list Item) (boundaries : list nat) (k : nat) :
  let text := concat (map chrOf data) in
  scanBoundaries data = Some boundaries ->
  0 < k < length text ->
  k ∈ boundaries
  <-> exists c, text !! (k - 1) = Some c /\ isBoundaryChar c = true.
Proof.
  intros text. rewrite scanBoundaries_spec. fold text. intros [= <-] Hk.
  rewrite elem_of_cons, elem_of_app, breaksFrom_elem.
  split.
  - intros [->|[(j & c & -> & Hj & Hc)|Hlast]]; [lia| |].
    + exists c. replace (0 + j + 1 - 1) with j by lia. auto.
    + destruct (bool_decide _); [inversion Hlast|].
      apply list_elem_of_singleton in Hlast. lia.
  - intros (c & Hj & Hc). right. left. exists (k - 1), c.
    repeat split; auto. lia.
Qed.

(** X16: closing an annotation right after it was opened never
    throws and leaves the stack as it was before the opening. *)
Theorem renderAnnotation_open_then_close (heap : Heap) (annotation : ref)
    (stack stack1 : list ref) (opening : jsstring) :
  renderAnnotation heap BiasOpen annotation stack = (Ok opening, stack1) ->
  exists closing,
    renderAnnotation heap BiasClose annotation stack1 = (Ok closing, stack).
Proof.
  unfold renderAnnotation.
  destruct (inRenderers (type (heap annotation))) eqn:Hin.
  - destruct (renderSide open (heap annotation)) as [s|e]; [|discriminate].
    intros [= <- <-]. rewrite last_snoc, Nat.eqb_refl, removelast_last.
    destruct (close_always_renders _ Hin) as [c ->]. eauto.
  - intros [= <- <-]. eauto.
Qed.

Section GetHtml.

Variable memberText : jsstring -> jsstring.
Variable heap : Heap.

Lemma unknown_step (b : bias) (a : ref) (stack : list ref) :
  known heap a = false -> renderAnnotation heap b a stack = (Ok [], stack).
Proof. unfold known, renderAnnotation. now intros ->. Qed.

Lemma open_step (a : ref) (stack : list ref) :
  known heap a = true -> renderable (heap a) = true ->
  exists s, renderAnnotation heap BiasOpen a stack = (Ok s, stack ++ [a]).
Proof.
  unfold known, renderAnnotation. intros -> Hr.
  apply renderable_sides in Hr as [[s ->] _]. eauto.
Qed.

Lemma close_step (a : ref) (stack : list ref) :
  known heap a = true ->
  Forall (fun a => renderable (heap a) = true) stack ->
  NoDup stack -> a ∈ stack ->
  exists s stack',
    renderAnnotation heap BiasClose a stack = (Ok s, stack')
    /\ NoDup stack'
    /\ Forall (fun a => renderable (heap a) = true) stack'
    /\ forall b, b ∈ stack' <-> b ∈ stack /\ b <> a.
Proof.
  intros Hknown Hall Hnd Hin. unfold renderAnnotation. unfold known in Hknown.
  rewrite Hknown. destruct (close_always_renders _ Hknown) as [s Hs].
  assert (Hsplit : forall below above, stack = below ++ a :: above ->
            NoDup (below ++ above)
            /\ Forall (fun a => renderable (heap a) = true) (below ++ above)
            /\ forall b, b ∈ below ++ above <-> b ∈ stack /\ b <> a).
  { intros below above ->. apply NoDup_app in Hnd as (Hb & Hdis & Ha).
    apply NoDup_cons in Ha as [Hna Ha].
    apply Forall_app in Hall as [Hallb Halla]. apply Forall_cons in Halla as [_ Halla].
    split; [|split].
    - apply NoDup_app. repeat split; auto.
      intros x Hx Hx'. apply (Hdis x Hx). now right.
    - apply Forall_app. auto.
    - intros b. rewrite !elem_of_app, elem_of_cons. split.
      + intros [Hb'|Hb']; split; auto.
        * intros ->. apply (Hdis a Hb'). now left.
        * intros ->. contradiction.
      + intros [[Hb'|[->|Hb']] Hne]; auto. congruence. }
  destruct (last stack) as [top|] eqn:Hlast.
  - destruct (Nat.eqb_spec top a) as [->|Hne].
    + apply last_Some in Hlast as [below Hbelow].
      rewrite Hs. exists ([] ++ s), (removelast stack). split; [reflexivity|].
      assert (removelast stack = below) as ->
        by (rewrite Hbelow; apply removelast_last).
      destruct (Hsplit below [] Hbelow) as (H1 & H2 & H3).
      rewrite app_nil_r in H1, H2, H3. auto.
    + destruct (inArray a stack) as [depth|] eqn:Hd.
      2:{ apply inArray_None in Hd. contradiction. }
      pose proof (inArray_Some _ _ _ Hd) as Hst.
      assert (Habove : Forall (fun r => renderable (heap r) = true)
                         (drop (S depth) stack)).
      { rewrite Hst in Hall. apply Forall_app in Hall as [_ Hall].
        now apply Forall_cons in Hall as [_ Hall]. }
      replace (depth + 1) with (S depth) by lia.
      rewrite (renderAll_ok close).
      2:{ apply Forall_rev. eapply Forall_impl; [exact Habove|].
          intros r Hr. now apply renderable_sides in Hr as [_ ?]. }
      rewrite Hs.
      rewrite (renderAll_ok open).
      2:{ eapply Forall_impl; [exact Habove|].
          intros r Hr. now apply renderable_sides in Hr as [? _]. }
      eexists _, _. split; [reflexivity|].
      rewrite delete_take_drop. apply Hsplit. exact Hst.
  - apply last_None in Hlast. subst stack. inversion Hin.
Qed.

Lemma notIn_spec (other : list ref) (a : ref) :
  notIn other a = true <-> a ∉ other.
Proof.
  unfold notIn. rewrite <- inArray_None.
  destruct (inArray a other); split; congruence.
Qed.

Lemma closeEach (wanted : ref -> bool) (l : list ref) :
  forall (out : jsstring) (stack : list ref),
    NoDup l -> NoDup stack ->
    Forall (fun a => renderable (heap a) = true) stack ->
    (forall a, a ∈ l -> wanted a = true -> known heap a = true -> a ∈ stack) ->
    exists out' stack',
      renderEach heap BiasClose wanted l (out, stack) = Ok (out', stack')
      /\ NoDup stack'
      /\ Forall (fun a => renderable (heap a) = true) stack'
      /\ forall b, b ∈ stack' <->
            b ∈ stack /\ ~ (b ∈ l /\ wanted b = true /\ known heap b = true).
Proof.
  induction l as [|a l IH]; intros out stack Hl Hnd Hall Hin.
  - exists out, stack. split; [reflexivity|]. split; [exact Hnd|].
    split; [exact Hall|]. intros b. rewrite elem_of_nil. tauto.
  - apply NoDup_cons in Hl as [Hal Hl]. cbn [renderEach snd fst].
    assert (Hskip : forall out,
              exists out' stack',
                renderEach heap BiasClose wanted l (out, stack) = Ok (out', stack')
                /\ NoDup stack'
                /\ Forall (fun a => renderable (heap a) = true) stack'
                /\ forall b, b ∈ stack' <->
                      b ∈ stack /\ ~ (b ∈ l /\ wanted b = true /\ known heap b = true)).
    { intros out0. apply IH; auto. intros b Hb. apply Hin. now right. }
    destruct (wanted a) eqn:Hw; [destruct (known heap a) eqn:Hk|].
    + destruct (close_step a stack Hk Hall Hnd) as (s & stack1 & -> & Hnd1 & Hall1 & Hmem1).
      { apply Hin; auto. left. }
      cbv iota beta.
      destruct (IH (out ++ s) stack1 Hl Hnd1 Hall1) as (out' & stack' & Heq & Hnd' & Hall' & Hmem').
      { intros b Hb Hwb Hkb. apply Hmem1. split.
        - apply Hin; auto. now right.
        - intros ->. contradiction. }
      exists out', stack'. split; [exact Heq|]. split; [exact Hnd'|].
      split; [exact Hall'|]. intros b. rewrite Hmem', Hmem1, elem_of_cons.
      destruct (decide (b = a)) as [->|Hne]; intuition congruence.
    + rewrite unknown_step by exact Hk. cbv iota beta.
      destruct (Hskip (out ++ [])) as (out' & stack' & Heq & Hnd' & Hall' & Hmem').
      exists out', stack'. split; [exact Heq|]. split; [exact Hnd'|].
      split; [exact Hall'|]. intros b. rewrite Hmem', elem_of_cons.
      destruct (decide (b = a)) as [->|Hne]; intuition congruence.
    + destruct (Hskip out) as (out' & stack' & Heq & Hnd' & Hall' & Hmem').
      exists out', stack'. split; [exact Heq|]. split; [exact Hnd'|].
      split; [exact Hall'|]. intros b. rewrite Hmem', elem_of_cons.
      destruct (decide (b = a)) as [->|Hne]; intuition congruence.
Qed.

Lemma openEach (wanted : ref -> bool) (l : list ref) :
  forall (out : jsstring) (stack : list ref),
    NoDup l -> NoDup stack ->
    Forall (fun a => renderable (heap a) = true) stack ->
    (forall a, a ∈ l -> wanted a = true -> known heap a = true ->
       (a ∉ stack) /\ renderable (heap a) = true) ->
    exists out' stack',
      renderEach heap BiasOpen wanted l (out, stack) = Ok (out', stack')
      /\ NoDup stack'
      /\ Forall (fun a => renderable (heap a) = true) stack'
      /\ forall b, b ∈ stack' <->
            (b ∈ stack \/ (b ∈ l /\ wanted b = true /\ known heap b = true)).
Proof.
  induction l as [|a l IH]; intros out stack Hl Hnd Hall Hin.
  - exists out, stack. split; [reflexivity|]. split; [exact Hnd|].
    split; [exact Hall|]. intros b. rewrite elem_of_nil. tauto.
  - apply NoDup_cons in Hl as [Hal Hl]. cbn [renderEach snd fst].
    assert (Hskip : forall out,
              exists out' stack',
                renderEach heap BiasOpen wanted l (out, stack) = Ok (out', stack')
                /\ NoDup stack'
                /\ Forall (fun a => renderable (heap a) = true) stack'
                /\ forall b, b ∈ stack' <->
                      (b ∈ stack \/ (b ∈ l /\ wanted b = true /\ known heap b = true))).
    { intros out0. apply IH; auto. intros b Hb. apply Hin. now right. }
    destruct (wanted a) eqn:Hw; [destruct (known heap a) eqn:Hk|].
    + destruct (Hin a) as [Hna Hra]; auto; [left|].
      destruct (open_step a stack Hk Hra) as (s & ->). cbv iota beta.
      destruct (IH (out ++ s) (stack ++ [a]) Hl) as (out' & stack' & Heq & Hnd' & Hall' & Hmem').
      { apply NoDup_app. repeat split; auto.
        - intros x Hx Hx'. apply list_elem_of_singleton in Hx'. congruence.
        - apply NoDup_singleton. }
      { apply Forall_app. split; [exact Hall|]. repeat constructor. exact Hra. }
      { intros b Hb Hwb Hkb. destruct (Hin b) as [Hnb Hrb]; auto; [now right|].
        split; [|exact Hrb]. rewrite elem_of_app, list_elem_of_singleton.
        intros [? | ->]; contradiction. }
      exists out', stack'. split; [exact Heq|]. split; [exact Hnd'|].
      split; [exact Hall'|]. intros b.
      rewrite Hmem', elem_of_app, list_elem_of_singleton, elem_of_cons.
      destruct (decide (b = a)) as [->|Hne]; intuition congruence.
    + rewrite unknown_step by exact Hk. cbv iota beta.
      destruct (Hskip (out ++ [])) as (out' & stack' & Heq & Hnd' & Hall' & Hmem').
      exists out', stack'. split; [exact Heq|]. split; [exact Hnd'|].
      split; [exact Hall'|]. intros b. rewrite Hmem', elem_of_cons.
      destruct (decide (b = a)) as [->|Hne]; intuition congruence.
    + destruct (Hskip out) as (out' & stack' & Heq & Hnd' & Hall' & Hmem').
      exists out', stack'. split; [exact Heq|]. split; [exact Hnd'|].
      split; [exact Hall'|]. intros b. rewrite Hmem', elem_of_cons.
      destruct (decide (b = a)) as [->|Hne]; intuition congruence.
Qed.

Lemma renderItem_tracks (left right : Item) (out : jsstring) (stack : list ref) :
  wellFormed heap left -> wellFormed heap right ->
  tracks heap left stack ->
  exists out' stack',
    renderItem memberText heap left right (out, stack) = Ok (out', stack')
    /\ tracks heap right stack'.
Proof.
  intros [Hndl Hwfl] [Hndr Hwfr] (Hnd & Hall & Hmem). unfold renderItem.
  destruct left as [lc|lc la], right as [rc|rc ra]; cbn [annotationsOf] in *.
  - eexists _, _. split; [reflexivity|].
    split; [exact Hnd|]. split; [exact Hall|]. exact Hmem.
  - destruct (openEach (fun _ => true) ra out stack Hndr Hnd Hall)
      as (out' & stack' & Heq & Hnd' & Hall' & Hmem').
    { intros a Ha _ Hk. split.
      - intros Hin. apply Hmem in Hin as [Hin _]. inversion Hin.
      - exact (proj1 (Forall_forall _ _) Hwfr a Ha Hk). }
    rewrite Heq. eexists _, _. split; [reflexivity|].
    split; [exact Hnd'|]. split; [exact Hall'|]. intros b.
    rewrite Hmem', Hmem, elem_of_nil. tauto.
  - destruct (closeEach (fun _ => true) la out stack Hndl Hnd Hall)
      as (out' & stack' & Heq & Hnd' & Hall' & Hmem').
    { intros a Ha _ Hk. apply Hmem. auto. }
    rewrite Heq. eexists _, _. split; [reflexivity|].
    split; [exact Hnd'|]. split; [exact Hall'|]. intros b.
    rewrite Hmem', Hmem, elem_of_nil. tauto.
  - destruct (closeEach (notIn ra) la out stack Hndl Hnd Hall)
      as (out1 & stack1 & Heq1 & Hnd1 & Hall1 & Hmem1).
    { intros a Ha _ Hk. apply Hmem. auto. }
    rewrite Heq1.
    destruct (openEach (notIn la) ra out1 stack1 Hndr Hnd1 Hall1)
      as (out' & stack' & Heq & Hnd' & Hall' & Hmem').
    { intros a Ha Hw Hk. apply notIn_spec in Hw. split.
      - intros Hin. apply Hmem1 in Hin as [Hin _]. apply Hmem in Hin as [Hin _].
        contradiction.
      - exact (proj1 (Forall_forall _ _) Hwfr a Ha Hk). }
    rewrite Heq. eexists _, _. split; [reflexivity|].
    split; [exact Hnd'|]. split; [exact Hall'|]. intros b.
    rewrite Hmem', Hmem1, Hmem, !notIn_spec.
    destruct (decide (b ∈ la)), (decide (b ∈ ra)); tauto.
Qed.

Lemma renderLoop_tracks (data : list Item) :
  forall (left : Item) (out : jsstring) (stack : list ref),
    wellFormed heap left -> Forall (wellFormed heap) data ->
    tracks heap left stack ->
    exists out' stack' final,
      renderLoop memberText heap left data (out, stack) = Ok (out', stack', final)
      /\ wellFormed heap final /\ tracks heap final stack'.
Proof.
  induction data as [|item data IH]; intros left out stack Hl Hdata Ht.
  - exists out, stack, left. auto.
  - apply Forall_cons in Hdata as [Hitem Hdata]. cbn [renderLoop].
    destruct (renderItem_tracks left item out stack Hl Hitem Ht)
      as (out1 & stack1 & Heq & Ht1).
    rewrite Heq. apply IH; auto.
Qed.

Lemma wellFormed_slice (contentCache : list Item) (start : Z) (finish : option Z) :
  Forall (wellFormed heap) contentCache ->
  Forall (wellFormed heap) (slice contentCache start finish).
Proof. intros H. unfold slice. apply Forall_take, Forall_drop, H. Qed.

(** X19: [getHtml] never throws on content in which no element
    carries an annotation twice and every annotation with a renderer can be
    rendered, whatever the range: the stack error cannot occur. *)
Theorem getHtml_renders_well_formed_content (contentCache : list Item)
    (range : option (Z * Z)) :
  Forall (wellFormed heap) contentCache ->
  exists out, getHtml memberText heap contentCache range = Ok out.
Proof.
  intros Hwf. unfold getHtml. cbv zeta.
  set (data := match range with
               | Some (start, finish) => slice contentCache start (Some finish)
               | None => slice contentCache 0 None
               end).
  assert (Hdata : Forall (wellFormed heap) data).
  { subst data. destruct range as [[start finish]|]; now apply wellFormed_slice. }
  destruct (renderLoop_tracks data (Plain []) [] [])
    as (out & stack & final & Heq & [Hndf Hwff] & Hnd & Hall & Hmem); auto.
  { split; [apply NoDup_nil_2 | apply Forall_nil_2]. }
  { split; [apply NoDup_nil_2|]. split; [apply Forall_nil_2|].
    intros a. cbn. rewrite elem_of_nil. tauto. }
  match goal with
  | |- context [renderLoop ?a ?b ?c ?d ?e] =>
      replace (renderLoop a b c d e) with (Ok (out, stack, final))
        by (symmetry; exact Heq)
  end.
  destruct final as [c|c ra]; [destruct data; eauto|].
  destruct (closeEach (fun _ => true) ra out stack Hndf Hnd Hall)
    as (out' & stack' & Heq' & _).
  { intros a Ha _ Hk. apply Hmem. auto. }
  destruct data; [eauto|]. rewrite Heq'. eauto.
Qed.

End GetHtml.

End ContentView.

(** ** Link content *)

Section LinkContent.
Import Links.

Variable stripSuffix : jsstring -> jsstring -> jsstring.
Hypothesis stripSuffix_spec : forall s t, stripSuffix (s ++ t) t = s.

Lemma substr_suffix (s t : jsstring) :
  t <> [] ->
  substr s (Z.of_nat (length s) - Z.of_nat (length t)) None = t ->
  exists body, s = body ++ t.
Proof.
  intros Hne Hsub. unfold substr in Hsub.
  set (from := if (Z.of_nat (length s) - Z.of_nat (length t) <? 0)%Z
               then Z.max (Z.of_nat (length s)
                           + (Z.of_nat (length s) - Z.of_nat (length t))) 0
               else (Z.of_nat (length s) - Z.of_nat (length t))%Z) in Hsub.
  destruct (_ <=? 0)%Z; [congruence|].
  rewrite take_ge in Hsub by (rewrite length_drop; lia).
  exists (take (Z.to_nat from) s). rewrite <- Hsub. symmetry. apply take_drop.
Qed.

Lemma substr_prefix (s t : jsstring) :
  t <> [] ->
  substr s 0 (Some (Z.of_nat (length t))) = t ->
  t ++ substr s (Z.of_nat (length t)) None = s.
Proof.
  intros Hne Hsub. unfold substr in *. cbn [Z.ltb Z.compare] in *.
  rewrite Z.sub_0_r in Hsub. cbn [Z.to_nat drop] in Hsub.
  destruct (_ <=? 0)%Z eqn:Hc in Hsub; [congruence|].
  apply Z.leb_gt in Hc.
  assert (Hlen : length t <= length s).
  { apply (f_equal length) in Hsub. rewrite length_take in Hsub. lia. }
  assert (Htake : take (length t) s = t).
  { rewrite <- Hsub at 2. f_equal. lia. }
  destruct (Z.of_nat (length t) <? 0)%Z eqn:Hneg; [apply Z.ltb_lt in Hneg; lia|].
  destruct (_ <=? 0)%Z eqn:Hc'.
  - apply Z.leb_le in Hc'. rewrite app_nil_r. rewrite <- Htake.
    apply take_ge. lia.
  - rewrite Nat2Z.id. rewrite take_ge by (rewrite length_drop; lia).
    rewrite <- Htake at 1. apply take_drop.
Qed.

Lemma truthy_default (v : option jsstring) : truthy v = true -> default [] v <> [].
Proof. destruct v as [[|c s]|]; simpl; congruence. Qed.

Lemma falsy_default (v : option jsstring) : truthy v = false -> default [] v = [].
Proof. destruct v as [[|c s]|]; simpl; congruence. Qed.

(** X15: with no pipe trick, [splitLinkContentString] loses nothing:
    the prefix, the content and the tail it returns make up the content it
    was given. *)
Theorem splitLinkContentString_round_trip (contentString : jsstring) (dp : LinkData) :
  pipetrick dp = false ->
  let parts := splitLinkContentString stripSuffix contentString dp in
  p_prefix parts ++ p_contentString parts ++ p_tail parts = contentString.
Proof.
  intros Hpipe. unfold splitLinkContentString. rewrite Hpipe.
  set (t := tail dp). set (p := prefix dp).
  assert (Htail : exists body t',
            (if truthy t
                && Js.eqb (substr contentString
                             (Z.of_nat (length contentString)
                              - Z.of_nat (length (default [] t))) None)
                     (default [] t)
             then (stripSuffix contentString (default [] t), t)
             else if truthy t then (contentString, Some [])
             else (contentString, t)) = (body, t')
            /\ body ++ default [] t' = contentString).
  { destruct (truthy t) eqn:Ht; cbn [andb].
    - destruct (Js.eqb _ _) eqn:He.
      + apply eqb_spec in He.
        apply substr_suffix in He as [body Hb]; [|now apply truthy_default].
        eexists _, _. split; [reflexivity|].
        rewrite Hb at 1. now rewrite stripSuffix_spec.
      + eexists _, _. split; [reflexivity|]. apply app_nil_r.
    - eexists _, _. split; [reflexivity|].
      rewrite (falsy_default _ Ht). apply app_nil_r. }
  destruct Htail as (body & t' & -> & Hbody).
  assert (Hprefix : exists inner p',
            (if truthy p
                && Js.eqb (substr body 0 (Some (Z.of_nat (length (default [] p)))))
                     (default [] p)
             then (substr body (Z.of_nat (length (default [] p))) None, p)
             else if truthy p then (body, Some [])
             else (body, p)) = (inner, p')
            /\ default [] p' ++ inner = body).
  { destruct (truthy p) eqn:Hp; cbn [andb].
    - destruct (Js.eqb _ _) eqn:He.
      + apply eqb_spec in He.
        eexists _, _. split; [reflexivity|].
        apply substr_prefix; [now apply truthy_default | exact He].
      + eexists _, _. split; [reflexivity|]. reflexivity.
    - eexists _, _. split; [reflexivity|].
      now rewrite (falsy_default _ Hp). }
  destruct Hprefix as (inner & p' & -> & Hinner).
  cbn. rewrite app_assoc, Hinner. exact Hbody.
Qed.

End LinkContent.

(** ** Separators under constraints *)

Section MakeSeparator.

Import Regex.
Import Matching.
Import Serializer.
Import Separator.

(** Iterations of a single character class consume that many characters
    of the class. *)
Lemma iter_chr (p : cset) (gs : list nat) (n : nat) (x y : mstate) :
  iter (sem (Chr p)) gs n x y ->
  exists s, length s = n /\ ahead x = s ++ ahead y
            /\ Forall (fun c => p c = true) s.
Proof.
  induction 1 as [x|n x y z Hstep _ (s & Hlen & Hy & Hs)].
  - exists []. repeat split; auto.
  - destruct Hstep as (c & rest & Hx & Hp & ->). cbn [clearCaptures ahead] in *.
    exists (c :: s). cbn. rewrite Hx, Hy, Hlen. repeat split; auto.
Qed.

Lemma comment_starts (x y : mstate) :
  sem commentRe x y -> exists rest, ahead x = 60%N :: rest.
Proof.
  intros (x1 & Hopen & _). apply sem_str in Hopen. rewrite Hopen.
  eexists. reflexivity.
Qed.

Lemma comment_ends (x y : mstate) :
  sem commentRe x y -> exists front, ahead x = front ++ 62%N :: ahead y.
Proof.
  intros (x1 & Hopen & x2 & Hbody & Hclose).
  apply sem_str in Hclose.
  apply sem_advances in Hopen as (s1 & E1 & _).
  apply sem_advances in Hbody as (s2 & E2 & _).
  exists (s1 ++ s2 ++ [45; 45]%N). rewrite E1, E2, Hclose.
  rewrite <- !app_assoc. reflexivity.
Qed.

(** A match of the split pattern contains a [<]. *)
Lemma splitRe_needs_comment (before after : jsstring) :
  Forall (fun c => c <> 60%N) after -> matchAt splitRe before after = None.
Proof.
  intros Hplain. destruct (matchAt splitRe before after) as [res|] eqn:Hm;
    [exfalso|reflexivity].
  apply matchAt_sem in Hm as (y & [Hs|Hs] & _).
  - destruct Hs as (n & [Hb _] & Hit).
    destruct Hb as [Hb|Hb]; [|discriminate].
    inversion Hit as [|n' x' y' z' Hstep _]; subst; [lia|].
    destruct Hstep as (x1 & (c & rest & Hx & _ & ->) & x2 & Hws & x3 & Hc & _).
    cbn [clearCaptures ahead] in Hx. subst after.
    apply sem_advances in Hws as (s & E & _). cbn [ahead] in E.
    apply comment_starts in Hc as [rest' Hc]. rewrite Hc in E. subst rest.
    apply Forall_cons in Hplain as [_ Hplain].
    apply Forall_app in Hplain as [_ Hplain].
    apply Forall_cons in Hplain as [Hplain _]. congruence.
  - apply comment_starts in Hs as [rest Hs]. cbn [ahead] in Hs. subst after.
    apply Forall_cons in Hplain as [Hplain _]. congruence.
Qed.

Lemma splitFrom_no_match (r : re) (s : jsstring) :
  (forall q, matchAt r (rev (take q s)) (drop q s) = None) ->
  forall fuel ncaps q, splitFrom fuel r ncaps s 0 q = [Some s].
Proof.
  intros Hnone. induction fuel as [|fuel IH]; intros ncaps q; cbn [splitFrom].
  - now rewrite drop_0.
  - destruct (q <? length s); [|now rewrite drop_0].
    rewrite Hnone. apply IH.
Qed.

Lemma split_plain (sep : jsstring) :
  Forall (fun c => c <> 60%N) sep -> split splitRe 0 sep = [Some sep].
Proof.
  intros Hplain. unfold split. destruct sep as [|c sep]; [reflexivity|].
  apply splitFrom_no_match. intros q. apply splitRe_needs_comment.
  now apply Forall_drop.
Qed.

Lemma matchAt_chr (p : cset) (before after : jsstring) :
  matchAt (Chr p) before after
  = match after with
    | c :: _ => if p c then Some (Result (length before) [c] []) else None
    | [] => None
    end.
Proof.
  unfold matchAt. cbn [m ahead]. destruct after as [|c rest]; [reflexivity|].
  destruct (p c); [|reflexivity].
  cbn [ahead captures length].
  replace (S (length rest) - length rest) with 1 by lia. reflexivity.
Qed.

Lemma scan_chr (p : cset) (before after : jsstring) :
  match scan (Chr p) before after with
  | Some res =>
      exists skipped c rest,
        after = skipped ++ c :: rest
        /\ List.filter p skipped = []
        /\ p c = true
        /\ index res = length before + length skipped
        /\ matched res = [c]
  | None => List.filter p after = []
  end.
Proof.
  revert before. induction after as [|c after IH]; intros before.
  - reflexivity.
  - cbn [scan]. rewrite matchAt_chr.
    destruct (p c) eqn:Hc.
    + exists [], c, after. cbn. rewrite Nat.add_0_r. auto.
    + specialize (IH (c :: before)).
      destruct (scan (Chr p) (c :: before) after) as [res|].
      * destruct IH as (skipped & c' & rest & -> & Hs & Hc' & Hi & Hm).
        exists (c :: skipped), c', rest. cbn. rewrite Hc.
        repeat split; auto. rewrite Hi. cbn. lia.
      * cbn. now rewrite Hc.
Qed.

Lemma countAllFrom_chr (p : cset) (fuel : nat) (before after : jsstring) :
  length after < fuel ->
  countAllFrom fuel (Chr p) before after = length (List.filter p after).
Proof.
  revert before after. induction fuel as [|fuel IH]; intros before after Hfuel; [lia|].
  cbn [countAllFrom]. pose proof (scan_chr p before after) as Hscan.
  destruct (scan (Chr p) before after) as [res|].
  - destruct Hscan as (skipped & c & rest & -> & Hs & Hc & Hi & Hm).
    rewrite Hi, Hm. cbn [length].
    replace (length before + length skipped - length before + 1)
      with (length skipped + 1) by lia.
    replace (drop (length skipped + 1) (skipped ++ c :: rest)) with rest.
    2:{ rewrite <- drop_drop, drop_app_length. reflexivity. }
    rewrite IH.
    2:{ rewrite length_app in Hfuel. cbn in Hfuel. lia. }
    rewrite List.filter_app, Hs. cbn. now rewrite Hc.
  - now rewrite Hscan.
Qed.

Lemma sepNlCount_plain (sep : jsstring) :
  Forall (fun c => c <> 60%N) sep ->
  sepNlCount sep = length (List.filter (Re.code 10) sep).
Proof.
  intros Hplain. unfold sepNlCount. rewrite split_plain by exact Hplain.
  unfold joinBits. cbn [map default concat]. rewrite app_nil_r.
  unfold countAll, Re.newline, Re.nl. apply countAllFrom_chr. unfold id. lia.
Qed.

(** The pattern that strips the last line finds nothing in a text that ends
    with a line feed. *)
Lemma lastLine_after_newline (s : jsstring) :
  test lastLine (s ++ [10%N]) = false.
Proof.
  apply not_true_is_false. intros Ht.
  apply test_sem in Ht as (pre & post & y & Hsplit & Hs).
  destruct Hs as (z1 & (n & [Hb _] & Hplus) & z2 & (k & [_ Hk] & Hopt) & Hend & ->).
  apply iter_chr in Hplus as (s1 & Hlen & E1 & F1). cbn [ahead] in E1.
  destruct Hb as [Hb|Hb]; [|discriminate].
  assert (Hlast : exists front, post = front ++ [10%N]).
  { destruct (list_eq_nil_dec post) as [->|Hne].
    - destruct s1; [cbn in Hlen; lia | discriminate].
    - destruct (exists_last Hne) as (front & c & ->). exists front.
      rewrite app_assoc in Hsplit. apply app_inj_tail in Hsplit as [_ ->].
      reflexivity. }
  destruct Hlast as (front & ->).
  inversion Hopt as [x' Hz|k' x' y' z' Hstep Hrest]; subst.
  - rewrite Hend, app_nil_r in E1. subst s1.
    apply Forall_app in F1 as [_ F1]. apply Forall_cons in F1 as [F1 _].
    discriminate.
  - assert (k' = 0) by lia. subst k'. inversion Hrest; subst.
    destruct Hstep as (y0 & (x1 & Hc & (j & _ & Htail)) & ->).
    cbn [ahead] in Hend.
    apply comment_ends in Hc as (cf & Hc). cbn [clearCaptures ahead] in Hc.
    apply iter_chr in Htail as (s3 & _ & E3 & F3). rewrite Hend, app_nil_r in E3.
    rewrite Hc, E3 in E1.
    destruct (list_eq_nil_dec s3) as [->|Hne].
    + change (62%N :: []) with ([] ++ [62%N]) in E1.
      rewrite !app_assoc in E1. apply app_inj_tail in E1 as [_ E1]. discriminate.
    + destruct (exists_last Hne) as (s3' & c & ->).
      apply Forall_app in F3 as [_ F3]. apply Forall_cons in F3 as [F3 _].
      rewrite app_comm_cons, !app_assoc in E1.
      apply app_inj_tail in E1 as [_ <-]. discriminate.
Qed.

Lemma replaceAll_no_match (r : re) (tpl : list rpiece) (s : jsstring) :
  test r s = false -> replaceAll r tpl s = s.
Proof.
  unfold test, exec, replaceAll. cbn [replaceAllFrom].
  destruct (scan r [] s); [discriminate|reflexivity].
Qed.

(** X4: a separator without comments that has fewer line feeds than
    the constraints ask for gets the missing ones appended, and nothing
    else is changed: the stripping of the last line leaves them alone. *)
Theorem makeSeparator_appends_missing_newlines (sep nodeName : jsstring)
    (nlConstraints : Constraints) (atStartOfOutput : bool) (minNls : Z) :
  let count := length (List.filter (Re.code 10) sep) in
  Forall (fun c => c <> 60%N) sep ->
  minNlsOf nlConstraints atStartOfOutput = Ok minNls ->
  (Z.of_nat count < minNls)%Z ->
  makeSeparator sep nodeName nlConstraints atStartOfOutput
  = Ok (sep ++ replicate (Z.to_nat minNls - count) 10%N).
Proof.
  intros count Hplain Hmin Hlt. unfold makeSeparator.
  rewrite Hmin, (sepNlCount_plain sep Hplain). fold count.
  replace (0 <? minNls)%Z with true by (symmetry; apply Z.ltb_lt; lia).
  replace (Z.of_nat count <? minNls)%Z with true by (symmetry; apply Z.ltb_lt; lia).
  cbn [andb].
  replace (Z.to_nat (minNls - Z.of_nat count)) with (Z.to_nat minNls - count) by lia.
  destruct (_ && _); [|reflexivity].
  destruct (Z.to_nat minNls - count) as [|k] eqn:Hk; [lia|].
  rewrite replicate_S_end, app_assoc.
  now rewrite replaceAll_no_match by apply lastLine_after_newline.
Qed.

Lemma newlinesIn_app (s t : jsstring) :
  newlinesIn (s ++ t) = newlinesIn s + newlinesIn t.
Proof. unfold newlinesIn. now rewrite List.filter_app, length_app. Qed.

Lemma newlinesIn_none (p : cset) (s : jsstring) :
  (forall c, p c = true -> Re.code 10 c = false) ->
  Forall (fun c => p c = true) s -> newlinesIn s = 0.
Proof.
  intros Hp. unfold newlinesIn. induction 1 as [|c s Hc _ IH]; [reflexivity|].
  cbn. now rewrite (Hp c Hc).
Qed.

(** Iterations of a character class, with what they leave of the captures. *)
Lemma iter_chr_captures (p : cset) (gs : list nat) (n : nat) (x y : mstate) :
  iter (sem (Chr p)) gs n x y ->
  captures x = [] -> captures y = [].
Proof.
  induction 1 as [x|n x y z Hstep _ IH]; [auto|].
  intros Hx. apply IH. destruct Hstep as (c & rest & _ & _ & ->).
  cbn. now rewrite Hx.
Qed.

Lemma sem_splitRe_comment (x y : mstate) :
  sem splitRe x y -> ~ Forall (fun c => c <> 60%N) (ahead x).
Proof.
  intros Hs Hplain.
  pose proof (splitRe_needs_comment (passed x) (ahead x) Hplain) as Hnone.
  destruct Hs as [Hs|Hs].
  - destruct Hs as (n & [Hb _] & Hit).
    destruct Hb as [Hb|Hb]; [|discriminate].
    inversion Hit as [|n' x' y' z' Hstep _]; subst; [lia|].
    destruct Hstep as (x1 & (c & rest & Hx & _ & ->) & x2 & Hws & x3 & Hc & _).
    cbn [clearCaptures ahead] in Hx. rewrite Hx in Hplain.
    apply sem_advances in Hws as (s & E & _). cbn [ahead] in E.
    apply comment_starts in Hc as [rest' Hc]. rewrite Hc in E. subst rest.
    apply Forall_cons in Hplain as [_ Hplain].
    apply Forall_app in Hplain as [_ Hplain].
    apply Forall_cons in Hplain as [Hplain _]. congruence.
  - apply comment_starts in Hs as [rest Hs]. rewrite Hs in Hplain.
    apply Forall_cons in Hplain as [Hplain _]. congruence.
Qed.

Lemma split_captured_plain (sep : jsstring) :
  Forall (fun c => c <> 60%N) sep -> split (Group 1 splitRe) 1 sep = [Some sep].
Proof.
  intros Hplain.
  assert (Hnone : forall before after,
            Forall (fun c => c <> 60%N) after ->
            matchAt (Group 1 splitRe) before after = None).
  { intros before after Ha.
    destruct (matchAt _ before after) as [res|] eqn:Hm; [exfalso|reflexivity].
    apply matchAt_sem in Hm as (y & (y0 & Hs & _) & _).
    exact (sem_splitRe_comment _ _ Hs Ha). }
  unfold split. destruct sep as [|c sep].
  - now rewrite Hnone by constructor.
  - apply splitFrom_no_match. intros q. apply Hnone. now apply Forall_drop.
Qed.

Lemma test_splitRe_plain (sep : jsstring) :
  Forall (fun c => c <> 60%N) sep -> test splitRe sep = false.
Proof.
  intros Hplain. apply not_true_is_false. intros Ht.
  apply test_sem in Ht as (pre & post & y & -> & Hs).
  apply Forall_app in Hplain as [_ Hplain].
  exact (sem_splitRe_comment _ _ Hs Hplain).
Qed.

(** A greedy star hands over at least the position it started from. *)
Lemma star_total (r : re) (x : mstate) (k : mstate -> option mstate) :
  is_Some (k x) -> is_Some (m (star r) x k).
Proof.
  intros [z Hk]. unfold star. rewrite m_Rep.
  replace (0 + length (ahead x) + 1) with (S (length (ahead x))) by lia.
  cbn [repLoop Nat.eqb negb]. rewrite Hk.
  destruct (m r _ _); cbn; eauto.
Qed.

Lemma firstNewline_found (text : jsstring) :
  0 < newlinesIn text -> is_Some (exec firstNewline text).
Proof.
  unfold exec. generalize (@nil char) as before.
  induction text as [|c text IH]; intros before Hn; [cbn in Hn; lia|].
  cbn [scan]. destruct (matchAt firstNewline before (c :: text)) eqn:Hm; [eauto|].
  destruct (Re.code 10 c) eqn:Hc.
  - exfalso. unfold matchAt, firstNewline, Re.nl in Hm. cbn [m ahead] in Hm.
    rewrite Hc in Hm.
    match type of Hm with
    | match m (star ?r) ?x ?k with _ => _ end = _ =>
        destruct (star_total r x k) as [z Hz]; [cbn; eauto|]; rewrite Hz in Hm
    end.
    discriminate.
  - apply IH. unfold newlinesIn in *. cbn in Hn. now rewrite Hc in Hn.
Qed.

Lemma test_chr (p : cset) (s : jsstring) :
  List.filter p s <> [] -> test (Chr p) s = true.
Proof.
  intros Hne. unfold test, exec. pose proof (scan_chr p [] s) as Hscan.
  destruct (scan (Chr p) [] s); [reflexivity|contradiction].
Qed.

(** Replacing the first line feed with what follows it on its line takes
    that line feed out of the text. *)
Lemma replace_firstNewline (text : jsstring) :
  0 < newlinesIn text ->
  exists pre g rest,
    text = pre ++ 10%N :: g ++ rest
    /\ replace firstNewline [RGroup 1] text = pre ++ g ++ rest.
Proof.
  intros Hn. destruct (firstNewline_found text Hn) as [res Hex].
  unfold replace. rewrite Hex. unfold exec in Hex.
  apply scan_sound in Hex as (pre & post & -> & Hm). rewrite app_nil_r in Hm.
  apply matchAt_sem in Hm as (y & Hs & ->).
  destruct Hs as (x1 & (c & rest & Hx & Hc & ->) & (y0 & Hstar & ->)).
  cbn [ahead passed captures] in *. subst post.
  unfold Re.code in Hc. apply N.eqb_eq in Hc. subst c.
  apply sem_advances in Hstar as (g & E & _). cbn [ahead] in E. subst rest.
  exists pre, g, (ahead y0). split; [reflexivity|].
  cbn [index matched groups]. rewrite length_rev, take_app_length.
  unfold expand, group. cbn [map concat groups]. rewrite getCapture_setCapture.
  cbn [Nat.eqb default]. rewrite app_nil_r.
  rewrite take_consumed. unfold id.
  change (10%N :: g ++ ahead y0) with ((10%N :: g) ++ ahead y0).
  rewrite take_consumed. cbn [length].
  replace (length pre + S (length g)) with (length pre + (1 + length g)) by lia.
  rewrite <- drop_drop, drop_app_length. cbn [Nat.add skipn app].
  now rewrite drop_app_length.
Qed.

Lemma stripNewlines_spec (max : Z) :
  (0 <= max)%Z ->
  forall fuel text n,
    n = Z.of_nat (newlinesIn text) -> length text <= fuel ->
    Forall (fun c => c <> 60%N) text ->
    exists text',
      stripNewlines fuel n max (Some text) = Ok (Some text', Z.min n max)
      /\ Z.of_nat (newlinesIn text') = Z.min n max
      /\ Forall (fun c => c <> 60%N) text'.
Proof.
  intros Hmax. induction fuel as [|fuel IH]; intros text n Hn Hlen Hplain.
  - destruct text; [|cbn in Hlen; lia]. cbn in Hn. subst n. cbn [stripNewlines].
    exists []. rewrite Z.min_l by lia. repeat split; auto.
    destruct (max <? _)%Z; [destruct (test _ _)|]; reflexivity.
  - cbn [stripNewlines]. destruct (Z.ltb_spec max n) as [Hlt|Hge].
    + assert (Hpos : 0 < newlinesIn text) by lia.
      unfold Re.newline, Re.nl. rewrite test_chr.
      2:{ unfold newlinesIn in Hpos. destruct (List.filter _ text); [cbn in Hpos; lia|discriminate]. }
      destruct (replace_firstNewline text Hpos) as (pre & g & rest & Htext & Hrep).
      rewrite Hrep.
      destruct (IH (pre ++ g ++ rest) (n - 1)%Z) as (text' & Hrun & Hcount & Hplain').
      * subst text n. rewrite !newlinesIn_app. change (10%N :: g ++ rest) with ([10%N] ++ g ++ rest).
        rewrite !newlinesIn_app. cbn. lia.
      * subst text. rewrite !length_app in *. cbn in Hlen. rewrite length_app in Hlen. lia.
      * subst text. apply Forall_app in Hplain as [H1 H2].
        apply Forall_cons in H2 as [_ H2]. apply Forall_app. auto.
      * exists text'. rewrite Hrun, Hcount.
        replace (Z.min (n - 1) max) with (Z.min n max) by lia. auto.
    + exists text. rewrite Z.min_l by lia. auto.
Qed.

(** Stripping the last line of a text without comments takes no line feed
    out of it. *)
Lemma lastLine_keeps_newlines (s : jsstring) :
  Forall (fun c => c <> 60%N) s ->
  newlinesIn (replaceAll lastLine [RGroup 1] s) = newlinesIn s.
Proof.
  intros Hplain. unfold replaceAll. cbn [replaceAllFrom].
  destruct (scan lastLine [] s) as [res|] eqn:Hscan; [|reflexivity].
  apply scan_sound in Hscan as (pre & post & -> & Hm). rewrite app_nil_r in Hm.
  apply matchAt_sem in Hm as (y & Hs & ->).
  destruct Hs as (z1 & (n & [Hb _] & Hplus) & z2 & (k & [_ Hk] & Hopt) & Hend & ->).
  pose proof (iter_chr_captures _ _ _ _ _ Hplus eq_refl) as Hcap.
  apply iter_chr in Hplus as (s1 & Hlen & E1 & F1). cbn [ahead] in E1.
  destruct Hb as [Hb|Hb]; [|discriminate].
  apply Forall_app in Hplain as [_ Hpost].
  assert (Hcases : z2 = z1 \/ exists rest, ahead z1 = 60%N :: rest).
  { inversion Hopt as [x' Hz|k' x' y' z' Hstep Hrest]; [now left|right].
    destruct Hstep as (y0 & (x1 & Hc & _) & _).
    apply comment_starts in Hc as [rest Hc]. cbn [clearCaptures ahead] in Hc.
    eauto. }
  clear Hopt. destruct Hcases as [->|[rest Hc]].
  - rewrite Hend, app_nil_r in E1. subst post.
    cbn [index matched groups ahead length].
    rewrite Hend. cbn [length]. rewrite !Nat.sub_0_r, !firstn_all, length_rev.
    unfold expand, group. cbn [map concat groups]. rewrite Hcap.
    cbn [getCapture default app].
    destruct s1 as [|c s1]; [cbn in Hlen; lia|].
    rewrite take_app_length.
    rewrite drop_ge by (rewrite length_app; lia).
    assert (Htail : forall fuel before, replaceAllFrom fuel lastLine [RGroup 1] before [] = []).
    { intros [|fuel] before; reflexivity. }
    rewrite Htail, app_nil_r, newlinesIn_app.
    assert (Hnone : newlinesIn (c :: s1) = 0).
    { apply (newlinesIn_none (neg (Re.codes [10; 62]%N))); [|exact F1].
      intros d Hd. unfold neg, Re.codes, Re.code in *. cbn in Hd.
      destruct (d =? 10)%N; [discriminate|reflexivity]. }
    rewrite Hnone. lia.
  - exfalso. rewrite E1, Hc in Hpost. apply Forall_app in Hpost as [_ Hpost].
    apply Forall_cons in Hpost as [Hpost _]. congruence.
Qed.

(** X5: a separator without comments that has more line feeds than
    the maximum is cut down to exactly the maximum. *)
Theorem makeSeparator_strips_excess_newlines (sep nodeName : jsstring)
    (nlConstraints : Constraints) (atStartOfOutput : bool) (minNls max : Z) :
  let count := length (List.filter (Re.code 10) sep) in
  Forall (fun c => c <> 60%N) sep ->
  minNlsOf nlConstraints atStartOfOutput = Ok minNls ->
  c_max nlConstraints = Some max ->
  (minNls <= Z.of_nat count)%Z ->
  (0 <= max < Z.of_nat count)%Z ->
  exists out,
    makeSeparator sep nodeName nlConstraints atStartOfOutput = Ok out
    /\ length (List.filter (Re.code 10) out) = Z.to_nat max.
Proof.
  intros count Hplain Hmin Hmax Hle [Hmax0 Hlt]. unfold makeSeparator.
  rewrite Hmin, Hmax, (sepNlCount_plain sep Hplain). fold count.
  replace (Z.of_nat count <? minNls)%Z with false by (symmetry; apply Z.ltb_ge; lia).
  rewrite andb_false_r.
  replace (max <? Z.of_nat count)%Z with true by (symmetry; apply Z.ltb_lt; lia).
  rewrite (split_captured_plain sep Hplain).
  cbn [length rev app stripLoop].
  replace (max <? Z.of_nat count)%Z with true by (symmetry; apply Z.ltb_lt; lia).
  cbn [skipComments]. change (default [] (Some sep)) with sep.
  rewrite (test_splitRe_plain sep Hplain), andb_false_r.
  change (default [] (Some sep)) with sep.
  destruct (stripNewlines_spec max Hmax0 (length sep) sep (Z.of_nat count))
    as (text' & Hrun & Hcount & Hplain'); auto.
  rewrite Hrun. rewrite Z.min_r by lia.
  replace (max <? max)%Z with false by (symmetry; apply Z.ltb_ge; lia).
  cbn [rev app joinBits map concat]. change (default [] (Some text')) with text'.
  rewrite app_nil_r.
  rewrite Z.min_r in Hcount by lia.
  destruct (_ && _); eexists; (split; [reflexivity|]).
  - fold (newlinesIn (replaceAll lastLine [RGroup 1] text')).
    rewrite lastLine_keeps_newlines by exact Hplain'. lia.
  - fold (newlinesIn text'). lia.
Qed.

End MakeSeparator.

(** ** The statements on sample inputs

    The lemmas below run the serializer on the documents of [Sample], with
    its collaborators. *)

#[local] Existing Instance Sample.externals.

Import Serializer.

Lemma emitSepAndOutput_prefers_original_separator_witness :
  emitSepFirst [1] outSink Sample.listWorld
  = Some (Ok tt, afterEmitSep [10%N] [1] outSink Sample.listWorld)
  /\ emitted (afterEmitSep [10%N] [1] outSink Sample.listWorld)
     = [mkEmission outSink [10%N] [1]].
Proof.
  pose proof (emitSepAndOutput_prefers_original_separator (lit "*b") [1] outSink
                Sample.listWorld Sample.listSrc (DNum 2) (DNum 3)
                eq_refl eq_refl eq_refl eq_refl eq_refl) as [Hvalid _].
  destruct (Hvalid eq_refl) as (Hfirst & Hemitted & _).
  split; [exact Hfirst | exact Hemitted].
Defined.

(** C6, as stated, fails: the [br] of [<p>a<br>b</p>] is not of HTML
    syntax and its parent is a [p], yet the handler calls [cb] with the
    empty string in the state it was given, whose pending constraints are
    [{max: 2}] and not [{min: 2, max: 2}]: the [br] is not the only child
    of the [p]. *)
Lemma br_handle_keeps_constraints_between_siblings :
  nodeAt Sample.lineBreak [0; 1] = Some (Sample.elt "BR" [])
  /\ (nodeName <$> parentNode Sample.lineBreak [0; 1]) = Some (lit "P")
  /\ constraints (sep (state Sample.brWorld))
     = Some (mkConstraints (Some (mkBounds None None))
               (Some (mkBounds None None)) None (Some 2%Z))
  /\ br_handle [0; 1] (Some (chunkCBWrapper outSink)) Sample.brWorld
     = callCB (Some (chunkCBWrapper outSink)) [] [0; 1] Sample.brWorld.
Proof. repeat split. Qed.

Lemma br_handle_spec_witness :
  br_handle [0; 1] (Some (chunkCBWrapper outSink)) Sample.brWorld
  = callCB (Some (chunkCBWrapper outSink)) [] [0; 1] Sample.brWorld.
Proof.
  exact (br_handle_spec [0; 1] (Some (chunkCBWrapper outSink)) Sample.brWorld
           (lit "BR") [] (mkDataParsoid [] None) []
           (Sample.elt "P" [Text (lit "a"); Sample.elt "BR" []; Text (lit "b")])
           eq_refl eq_refl eq_refl eq_refl).
Defined.

(** C2, as stated, fails.  In [<body><p>a<i>{{x}}\r</i>c</p></body>] the
    handler of [i] pushes the quote escape handler and serializes its
    children; escaping the text raises a [TypeError] inside that nested
    [serializeChildren], which is left before its [pop]; [_serializeNode]
    catches the exception around the handler of [i] and carries on.  The
    outer call of [serializeChildren] on the body returns normally, and
    the stack that was empty before it holds one handler after it. *)
Lemma serializeChildren_unbalanced_after_caught_exception :
  let run := serializeChildren (_serializeNode 4) []
               (Some (chunkCBWrapper outSink)) None in
  run (Sample.world Sample.quotedCR)
  = Some (Ok tt, worldAfter run (Sample.world Sample.quotedCR))
  /\ wteHandlerStack (state (Sample.world Sample.quotedCR)) = []
  /\ wteHandlerStack (state (worldAfter run (Sample.world Sample.quotedCR)))
     = [quoteHandler]
  /\ console (worldAfter run (Sample.world Sample.quotedCR))
     = [ErrorStack TypeError; NodeAndHandler (lit "I")].
Proof. vm_compute. repeat split. Qed.

Lemma serializeChildren_balanced_witness :
  let run := serializeChildren (_serializeNode 4) []
               (Some (chunkCBWrapper outSink)) (Some quoteHandler) in
  run (Sample.world Sample.quoted)
  = Some (Ok tt, worldAfter run (Sample.world Sample.quoted))
  /\ wteHandlerStack (state (worldAfter run (Sample.world Sample.quoted)))
     = wteHandlerStack (state (Sample.world Sample.quoted)).
Proof.
  intros run.
  assert (Hrun : run (Sample.world Sample.quoted)
                 = Some (Ok tt, worldAfter run (Sample.world Sample.quoted)))
    by (vm_compute; reflexivity).
  split; [exact Hrun|].
  apply (serializeChildren_balanced 4 [] (Some (chunkCBWrapper outSink))
           (Some quoteHandler) _ _ Hrun).
  vm_compute. reflexivity.
Defined.

(** C3, as stated, fails.  The template handler of the [span] in
    [<body><p>a<span typeof="mw:Object/Template" data-mw="{"></span>c</p></body>]
    ends in the [SyntaxError] of [JSON.parse]; the exception is written to
    the console with the node name, and [serializeDOM] returns the
    wikitext of the rest of the document instead of throwing. *)
Lemma serializeDOM_returns_after_handler_exception :
  let run := serializeDOM 4 false None None None false in
  handle (_getDOMHandler (state (Sample.world Sample.badTemplate))
            Sample.badTemplate (Some [0; 1]))
  = Some [OpAssign (set_activeTemplateId None); OpThrow SyntaxError]
  /\ run (Sample.world Sample.badTemplate)
     = Some (Ok (lit "ac"), worldAfter run (Sample.world Sample.badTemplate))
  /\ console (worldAfter run (Sample.world Sample.badTemplate))
     = [ErrorStack SyntaxError; NodeAndHandler (lit "SPAN")].
Proof. vm_compute. repeat split. Qed.

(** What does reach the caller of [serializeDOM]: an exception raised
    outside every handler, here by the escape of a text that is a child
    of the body itself; it is logged, handed to [errCB] and thrown
    again. *)
Example serializeDOM_rethrows_outside_handlers :
  let run := serializeDOM 4 false None None None false in
  run (Sample.world Sample.bareText)
  = Some (Throw TypeError, worldAfter run (Sample.world Sample.bareText))
  /\ console (worldAfter run (Sample.world Sample.bareText))
     = [SerializeDOMError TypeError; ErrCB TypeError].
Proof. vm_compute. repeat split. Qed.

(** The sweep for templated attributes runs inside the [try]: the
    [SyntaxError] of [JSON.parse] on the [data-parsoid] of a meta is
    thrown again before anything is emitted. *)
Example serializeDOM_rethrows_from_the_sweep :
  let run := serializeDOM 4 false None None None false in
  let w := Sample.world (Sample.attrMeta "{") in
  run w = Some (Throw SyntaxError, worldAfter run w)
  /\ console (worldAfter run w)
     = [SerializeDOMError SyntaxError; ErrCB SyntaxError]
  /\ emitted (worldAfter run w) = [].
Proof. vm_compute. repeat split. Qed.

(** With a [data-parsoid] that is JSON the sweep records the attribute
    under the template, and the document is serialized. *)
Example serializeDOM_records_templated_attributes :
  let run := serializeDOM 4 false None None None false in
  let w := Sample.world (Sample.attrMeta "{}") in
  run w = Some (Ok (lit "x"), worldAfter run w)
  /\ tplAttrs (state (worldAfter run w))
     = [(lit "#mwt1", mkTplAttrs [] [(lit "href", None)] [])].
Proof. vm_compute. repeat split. Qed.

(** So does [finalCB]: what it throws after the last chunk is logged,
    handed to [errCB] and thrown again. *)
Example serializeDOM_rethrows_from_finalCB :
  let run := serializeDOM 4 false None None
               (Some (throw (Thrown (lit "done")))) false in
  let w := Sample.world Sample.quoted in
  run w = Some (Throw (Thrown (lit "done")), worldAfter run w)
  /\ console (worldAfter run w)
     = [SerializeDOMError (Thrown (lit "done")); ErrCB (Thrown (lit "done"))]
  /\ concat (map e_chunk (emitted (worldAfter run w)))
     = lit "a''<nowiki>b{{x}}</nowiki>''c".
Proof. vm_compute. repeat split. Qed.

(** A text node without a parent, serialized as the root: reading
    [node.parentNode.childNodes] raises a [TypeError]. *)
Example serializeDOM_rethrows_for_a_root_text :
  let run := serializeDOM 4 false None None None false in
  let w := Sample.world (Text (lit "x")) in
  run w = Some (Throw TypeError, worldAfter run w)
  /\ console (worldAfter run w) = [SerializeDOMError TypeError; ErrCB TypeError].
Proof. vm_compute. repeat split. Qed.

Lemma handler_exception_is_logged_and_swallowed_witness :
  (exists w' more,
     _serializeNode 1 [0; 1] None Sample.templateWorld = Some (Ok [0; 1], w')
     /\ console w'
        = console Sample.templateReady
            ++ [ErrorStack SyntaxError; NodeAndHandler (lit "SPAN")] ++ more)
  /\ (let w := Sample.world Sample.bareText in
      let w1 := worldAfter (serializeDOMBody 4 None None false 0)
                  (atTry false None w) in
      serializeDOMBody 4 None None false 0 (atTry false None w)
      = Some (Throw TypeError, w1)
      /\ serializeDOM 4 false None None None false w
         = Some (Throw TypeError,
                 logged [SerializeDOMError TypeError; ErrCB TypeError] w1)).
Proof.
  destruct handler_exception_is_logged_and_swallowed as (Hnode & _ & Hdom).
  split.
  - apply (Hnode 0 [0; 1] None
             Sample.templateWorld Sample.templateReady Sample.templateReady
             (lit "SPAN")
             [(lit "typeof", lit "mw:Object/Template"); (lit "data-mw", lit "{")]
             (mkDataParsoid [] None) []
             [OpAssign (set_activeTemplateId None); OpThrow SyntaxError]
             SyntaxError);
      vm_compute; reflexivity.
  - intros w w1.
    assert (Hbody : serializeDOMBody 4 None None false 0 (atTry false None w)
                    = Some (Throw TypeError, w1)) by (vm_compute; reflexivity).
    split; [exact Hbody|].
    rewrite (Hdom 4 false None None None false w).
    change (length (emitted w)) with 0. rewrite Hbody; try reflexivity.
Defined.

(** The handler of a heading asks for one or two newlines after it and a
    paragraph inside a list item for none before it: the paragraph wins. *)
Lemma getSepNlConstraints_B_wins_witness :
  let hA : Node -> path -> path -> NlBounds :=
    fun _ _ _ => mkBounds (Some 1%Z) (Some 2%Z) in
  let hB : Node -> path -> path -> NlBounds :=
    fun _ _ _ => mkBounds (Some 0%Z) (Some 0%Z) in
  let res := fst (getSepNlConstraints Sample.quoted [0] (Some hA) [1] (Some hB)) in
  c_b res = Some (mkBounds (Some 0%Z) (Some 0%Z))
  /\ (forall mn, Some 0%Z = Some mn -> exists r, c_min res = Some r /\ (mn <= r)%Z)
  /\ (forall mx, Some 0%Z = Some mx -> exists r, c_max res = Some r /\ (r <= mx)%Z).
Proof.
  intros hA hB.
  apply (getSepNlConstraints_B_wins Sample.quoted [0] [1] (Some hA) hB).
  intros mn mx [= <-] [= <-]. reflexivity.
Defined.

Lemma getSepNlConstraints_consistent_witness :
  let hA : Node -> path -> path -> NlBounds :=
    fun _ _ _ => mkBounds (Some 1%Z) (Some 2%Z) in
  let hB : Node -> path -> path -> NlBounds :=
    fun _ _ _ => mkBounds (Some 0%Z) (Some 0%Z) in
  let res := fst (getSepNlConstraints Sample.quoted [0] (Some hA) [1] (Some hB)) in
  c_max res = Some 0%Z /\ (orZero (c_min res) <= 0)%Z.
Proof.
  intros hA hB res.
  assert (Hmax : c_max res = Some 0%Z) by (vm_compute; reflexivity).
  split; [exact Hmax|].
  apply (getSepNlConstraints_consistent Sample.quoted [0] [1] (Some hA) (Some hB));
    [ intros h mx [= <-] [= <-]; vm_compute; discriminate
    | intros h mx [= <-] [= <-]; split; vm_compute; discriminate
    | exact Hmax ].
Defined.

(** ** Further properties on sample inputs *)

Lemma escapedText_keeps_text_witness :
  let text := lit "[[x]]" ++ [10%N] in
  let wrapped := lit "<nowiki>[[x]]</nowiki>" ++ [10%N] in
  escapedText text = Ok wrapped
  /\ exists head newlines,
       text = head ++ newlines
       /\ wrapped = lit "<nowiki>" ++ head ++ lit "</nowiki>" ++ newlines
       /\ Forall (fun c => c = 13%N \/ c = 10%N) newlines.
Proof.
  intros text wrapped.
  assert (H : escapedText text = Ok wrapped) by (vm_compute; reflexivity).
  split; [exact H | exact (escapedText_keeps_text text wrapped H)].
Defined.

Lemma isValidSep_sound_witness :
  let sep := lit " <!-- a-b -->" ++ [10%N] in
  isValidSep sep = true
  /\ exists pieces, sep = concat pieces /\ Forall sepPiece pieces.
Proof.
  intros sep.
  assert (H : isValidSep sep = true) by (vm_compute; reflexivity).
  split; [exact H | exact (isValidSep_sound sep H)].
Defined.

Lemma escapeWikiText_only_touches_currLine_witness :
  let w := withState (set_onSOL false) (Sample.world Sample.quoted) in
  let run := escapeWikiText (lit "a]") None in
  let w' := worldAfter run w in
  run w = Some (Ok (lit "a]"), w')
  /\ processed (currLine (state w')) = true
  /\ state w' = set_currLine (currLine (state w')) (state w)
  /\ doc w' = doc w
  /\ emitted w' = emitted w
  /\ allocated w' = allocated w.
Proof.
  intros w run w'.
  assert (H : run w = Some (Ok (lit "a]"), w')) by (vm_compute; reflexivity).
  split; [exact H|]. split; [vm_compute; reflexivity|].
  exact (escapeWikiText_only_touches_currLine (lit "a]") None w _ _ H).
Defined.

Lemma escapeWikiLinkContentString_stack_witness :
  let w := Sample.headingLine in
  let run := escapeWikiLinkContentString (lit "a=") in
  run w = Some (Throw TypeError, worldAfter run w)
  /\ hasOpenHeadingChar (currLine (state (worldAfter run w))) = true
  /\ onSOL (state (worldAfter run w)) = false
  /\ wteHandlerStack (state (worldAfter run w))
     = wteHandlerStack (state w) ++ [wikilinkHandler].
Proof.
  intros w run.
  assert (H : run w = Some (Throw TypeError, worldAfter run w))
    by (vm_compute; reflexivity).
  split; [exact H|]. split; [vm_compute; reflexivity|].
  exact (escapeWikiLinkContentString_stack (lit "a=") w _ _ H).
Defined.

(** [escapeWikiText] itself on that line, away from the start of a line:
    without [opts] the read of [opts.isLastChild] raises a [TypeError],
    after the analysis of the line has been recorded in [currLine]; with
    the [opts] of a last child the text is escaped. *)
Example escapeWikiText_reads_opts_behind_heading_char :
  let w := withState (set_onSOL false) Sample.headingLine in
  let run := escapeWikiText (lit "a=") None in
  run w = Some (Throw TypeError, worldAfter run w)
  /\ currLine (state (worldAfter run w))
     = mkCurrLine (lit "=x") (Some [0; 0]) true true false
  /\ escapeWikiText (lit "a=") (Some (mkOpts [0; 2] true)) w
     = Some (Ok (lit "<nowiki>a=</nowiki>"), worldAfter run w)
  /\ escapeWikiText (lit "a=") (Some (mkOpts [0; 0] false)) w
     = Some (Ok (lit "a="), worldAfter run w).
Proof. vm_compute. repeat split. Qed.

(** The same call on a line without an open heading char returns, and the
    handler is off the stack again. *)
Example escapeWikiLinkContentString_returns :
  let w := Sample.world Sample.quoted in
  let run := escapeWikiLinkContentString (lit "a=") in
  run w = Some (Ok (lit "a="), worldAfter run w)
  /\ wteHandlerStack (state (worldAfter run w)) = wteHandlerStack (state w).
Proof. vm_compute. repeat split. Qed.

Lemma emitSepAndOutput_bookkeeping_witness :
  let w := Sample.world Sample.quoted in
  let run := emitSepAndOutput (lit "a") [0; 0] outSink in
  run w = Some (Ok tt, worldAfter run w)
  /\ escapeText (state (worldAfter run w)) = false
  /\ prevNode (state (worldAfter run w)) = Some [0; 0]
  /\ prevNodeUnmodified (state (worldAfter run w)) = currNodeUnmodified (state w)
  /\ currNodeUnmodified (state (worldAfter run w)) = false
  /\ lastSourceNode (sep (state (worldAfter run w))) = Some [0; 0]
  /\ exists out, last (emitted (worldAfter run w)) = Some (mkEmission outSink out [0; 0]).
Proof.
  intros w run.
  assert (H : run w = Some (Ok tt, worldAfter run w)) by (vm_compute; reflexivity).
  split; [exact H|].
  exact (emitSepAndOutput_bookkeeping (lit "a") [0; 0] outSink w _ H).
Defined.

Lemma serializeChildren_restores_chunkCB_witness :
  let w := Sample.world Sample.quoted in
  let run := serializeChildren (_serializeNode 4) []
               (Some (chunkCBWrapper outSink)) (Some quoteHandler) in
  run w = Some (Ok tt, worldAfter run w)
  /\ length (emitted (worldAfter run w)) = 10
  /\ chunkCB (state (worldAfter run w)) = chunkCB (state w).
Proof.
  intros w run.
  assert (H : run w = Some (Ok tt, worldAfter run w)) by (vm_compute; reflexivity).
  split; [exact H|]. split; [vm_compute; reflexivity|].
  exact (serializeChildren_restores_chunkCB (_serializeNode 4) []
           (Some (chunkCBWrapper outSink)) (Some quoteHandler) w _ H).
Defined.

Lemma serializeChildrenToString_restores_sep_witness :
  let w := Sample.world Sample.quoted in
  let run := serializeChildrenToString (_serializeNode 4) [0] None None in
  let out := lit "a''<nowiki>b{{x}}</nowiki>''c" in
  run w = Some (Ok out, worldAfter run w)
  /\ sep (state (worldAfter run w)) = sep (state w).
Proof.
  intros w run out.
  assert (H : run w = Some (Ok out, worldAfter run w)) by (vm_compute; reflexivity).
  split; [exact H|].
  exact (serializeChildrenToString_restores_sep (_serializeNode 4) [0] None None
           w _ out H).
Defined.

Lemma scanBoundaries_breaks_witness :
  View.scanBoundaries sampleContent = Some [0; 5; 6]
  /\ (5 ∈ [0; 5; 6]
      <-> exists c, concat (map View.chrOf sampleContent) !! (5 - 1) = Some c
                    /\ View.isBoundaryChar c = true).
Proof.
  assert (H : View.scanBoundaries sampleContent = Some [0; 5; 6])
    by (vm_compute; reflexivity).
  split; [exact H|].
  apply (scanBoundaries_breaks sampleContent [0; 5; 6] 5 H).
  vm_compute. lia.
Defined.

Lemma getHtml_renders_well_formed_content_witness :
  Forall (View.wellFormed sampleHeap) sampleContent
  /\ exists out, View.getHtml (fun name => name) sampleHeap sampleContent
                   (Some (1, 3)%Z) = Ok out.
Proof.
  assert (H : Forall (View.wellFormed sampleHeap) sampleContent).
  { repeat (apply Forall_cons; split);
      [ split; cbn [View.annotationsOf];
        [ apply (bool_decide_unpack _); vm_compute; exact I
        | repeat (apply Forall_cons; split); try apply Forall_nil_2;
          intros Hin;
          first [ vm_compute; reflexivity | vm_compute in Hin; discriminate ] ] ..
      | apply Forall_nil_2 ]. }
  split; [exact H|].
  exact (getHtml_renders_well_formed_content (fun name => name) sampleHeap
           sampleContent (Some (1, 3)%Z) H).
Defined.

Lemma escapeWikiText_leaves_plain_text_witness :
  let w := withState (set_wteHandlerStack [quoteHandler]) (Sample.world Sample.quoted) in
  escapeWikiText (lit "plain text.") None w = Some (Ok (lit "plain text."), w).
Proof.
  intros w. apply escapeWikiText_leaves_plain_text.
  - vm_compute. reflexivity.
  - repeat (apply Forall_cons; split; [vm_compute; reflexivity|]). apply Forall_nil_2.
  - intros c d rest [= <- <- <-] [Hc|Hc]; discriminate.
Defined.

Lemma handleSeparatorText_adds_white_space_witness :
  let w := Sample.world newlinesDoc in
  let v := [10; 10]%N ++ lit "a" in
  nodeAt (doc w) [0; 0] = Some (Text v)
  /\ src (sep (state (withSepSrc [10; 10]%N w))) = Some [10; 10]%N
  /\ handleSeparatorText [0; 0] w = Some (Ok false, withSepSrc [10; 10]%N w).
Proof.
  intros w v.
  assert (Hn : nodeAt (doc w) [0; 0] = Some (Text v)) by (vm_compute; reflexivity).
  split; [exact Hn|]. split; [vm_compute; reflexivity|].
  exact (handleSeparatorText_adds_white_space [0; 0] v w Hn).
Defined.

Lemma renderAnnotation_open_then_close_witness :
  let opened := Content.renderAnnotation sampleHeap Content.BiasOpen 1 [0] in
  snd opened = [0; 1]
  /\ exists closing,
       Content.renderAnnotation sampleHeap Content.BiasClose 1 (snd opened)
       = (Ok closing, [0]).
Proof.
  intros opened. split; [vm_compute; reflexivity|].
  apply (renderAnnotation_open_then_close sampleHeap 1 [0] (snd opened)
           (match fst opened with Ok s => s | Throw _ => [] end)).
  vm_compute. reflexivity.
Defined.

Lemma splitLinkContentString_round_trip_witness :
  let dp := Links.mkLinkData (Some (lit "s")) (Some (lit "re")) false in
  let parts := Links.splitLinkContentString sampleStripSuffix (lit "reuses") dp in
  parts = Links.mkContentParts (lit "use") (lit "s") (lit "re")
  /\ Links.p_prefix parts ++ Links.p_contentString parts ++ Links.p_tail parts
     = lit "reuses".
Proof.
  intros dp parts. split; [vm_compute; reflexivity|].
  apply (splitLinkContentString_round_trip sampleStripSuffix).
  - intros s t. apply take_consumed.
  - reflexivity.
Defined.

Lemma makeSeparator_appends_missing_newlines_witness :
  let nlConstraints :=
    mkConstraints (Some (mkBounds None None)) (Some (mkBounds (Some 2%Z) None))
      (Some 2%Z) (Some 2%Z) in
  Separator.makeSeparator (lit " ") (lit "P") nlConstraints false
  = Ok (lit " " ++ [10; 10]%N).
Proof.
  intros nlConstraints.
  apply (makeSeparator_appends_missing_newlines (lit " ") (lit "P") nlConstraints
           false 2%Z).
  - repeat constructor. discriminate.
  - reflexivity.
  - vm_compute. reflexivity.
Defined.

Lemma makeSeparator_strips_excess_newlines_witness :
  let nlConstraints :=
    mkConstraints (Some (mkBounds None None)) (Some (mkBounds None (Some 1%Z)))
      None (Some 1%Z) in
  exists out,
    Separator.makeSeparator ([10; 32; 10; 10]%N) (lit "P") nlConstraints true = Ok out
    /\ length (List.filter (Re.code 10) out) = 1.
Proof.
  intros nlConstraints.
  apply (makeSeparator_strips_excess_newlines [10; 32; 10; 10]%N (lit "P")
           nlConstraints true 0%Z 1%Z).
  - repeat constructor; discriminate.
  - reflexivity.
  - reflexivity.
  - vm_compute. discriminate.
  - vm_compute. split; [discriminate | reflexivity].
Defined.
